(** * Medal graph: model builder, filter pipeline and drag interaction

    Shallow embedding of the relational-graph code of the repository:
    - the graph model builder, the [complete] callback of the medals
      loader in [App.tsx] (function [Layout]; the file is
      [src/unnamed/part_000], lines 77 to 131, and the panel that shows
      the graph is at lines 220 to 226);
    - the filter pipeline and the radius computation of the component
      [MedalGraph] (second part of
      [src/Homework3/marcotullio/src/components/ParallelSets.tsx], from
      line 321 on);
    - the drag handlers of [MedalGraph] (lines 535 to 550), which drive a
      d3-force simulation (module [D3]; d3 itself is a dependency and not
      part of the repository).

    JavaScript numbers are modelled by what the code does with them.
    Counts, thresholds and degrees are whole numbers far below 2^53 (an
    array holds fewer than 2^32 elements), which binary floating point
    represents and adds exactly; they are exact rationals ([Q]) or
    integers here.  The radii are computed with the fractions 0.8 and
    0.6, which binary floating point rounds, and can be NaN; they are
    IEEE 754 binary64 values (module [Num], over the specification of
    floating point of the standard library).  The positions and the
    energy of the force simulation are those of d3 (module [D3]).

    JavaScript strings are [string]; a JavaScript object used as a
    dictionary whose enumeration order is observed is an
    insertion-ordered association list; a [Set] of strings that is only
    queried is a [gset], one that is enumerated is an insertion-ordered
    list.  The object [degree] is read with [degree[id]], which also
    finds the properties that every object inherits from
    [Object.prototype]; it is modelled with its own entries and these
    inherited ones.  No key of [linkMap] is the name of an inherited
    property, since each holds ["|"]. *)

From Stdlib Require Import String Ascii List QArith Qminmax Qpower Qround Lqa ZArith Lia Bool.
From Stdlib Require Import Sorted.
From Stdlib Require Import Floats.SpecFloat.
From stdpp Require Import base option list strings gmap.

Import ListNotations.
Local Open Scope string_scope.
Local Open Scope list_scope.

(** ** JavaScript library functions used by the source *)

Module JS.

(** [s.split(sep)] for a one-character separator: the pieces between the
    occurrences of [sep]; the empty string gives one empty piece. *)
Fixpoint split (sep : ascii) (s : string) : list string :=
  match s with
  | EmptyString => [EmptyString]
  | String c s' =>
      if Ascii.eqb c sep then EmptyString :: split sep s'
      else match split sep s' with
           | p :: ps => String c p :: ps
           | [] => [String c EmptyString]
           end
  end.

(** [a.join(sep)]. *)
Fixpoint join (sep : string) (l : list string) : string :=
  match l with
  | [] => EmptyString
  | [x] => x
  | x :: rest => x +:+ sep +:+ join sep rest
  end.

(** [new Set(arr)] followed by [Array.from]: the distinct values in the
    order of their first occurrence.  [set_add] is [Set.prototype.add]
    on the insertion-ordered content of the set; the source builds sets
    of strings, which a [Set] compares as [===] does. *)
Definition set_add {A} `{EqDecision A} (seen : list A) (x : A) : list A :=
  if bool_decide (x ∈ seen) then seen else seen ++ [x].

Definition set_from {A} `{EqDecision A} (arr : list A) : list A :=
  fold_left set_add arr [].

(** The [i]-th variable of an array destructuring pattern; the source
    only destructures arrays that are long enough (see
    [split_linkKey_length] below), so the default is never used. *)
Definition destructure (i : nat) (parts : list string) : string :=
  nth i parts EmptyString.

(** Truthiness of a string: every string but the empty one. *)
Definition truthy (s : string) : bool := negb (String.eqb s EmptyString).

(** [Math.max(lo, ...xs)] with a first argument written out. *)
Definition max_of (lo : Q) (xs : list Q) : Q := fold_left Qmax xs lo.

(** [x < y] on numbers. *)
Definition ltb (x y : Q) : bool := negb (Qle_bool y x).

End JS.

(** ** Data model *)

(** [interface Medal] of [App.tsx]; the builder reads these five fields
    (the numeric and date fields are converted and never read again). *)
Record Medal := {
  medal_type : string;
  name : string;
  discipline : string;
  event : string;
  country : string
}.

Inductive NodeType := country_t | discipline_t.

#[global] Instance NodeType_eq_dec : EqDecision NodeType.
Proof. solve_decision. Defined.

(** [interface GraphNode]: [{ id; type }]. *)
Record GraphNode := {
  node_id : string;
  node_type : NodeType
}.

#[global] Instance GraphNode_eq_dec : EqDecision GraphNode.
Proof. solve_decision. Defined.

(** [interface GraphLink]; the optional fields are [option]s. *)
Record GraphLink := {
  source : string;
  target : string;
  medal : string;
  athlete : option string;
  link_event : option string;
  count : option Q
}.

(** The value type of [linkMap]. *)
Record LinkAgg := {
  agg_count : Q;
  agg_athlete : list string;
  agg_event : list string;
  agg_medal : string
}.

(** [{ nodes, links }], the state [graphData] and the props of
    [MedalGraph]. *)
Record Graph := {
  nodes : list GraphNode;
  links : list GraphLink
}.

(** ** Graph model builder ([App.tsx], the medals [complete] callback,
    lines 83 to 128) *)

Definition pipe : ascii := "|"%char.

(** [`${m.country}|${m.discipline}|${m.medal_type}`] *)
Definition linkKey (m : Medal) : string :=
  country m +:+ "|" +:+ discipline m +:+ "|" +:+ medal_type m.

(** [linkMap]: a JavaScript object enumerated by [Object.entries].  Its
    keys all contain ["|"], so none is an array index and the enumeration
    order is the insertion order. *)
Definition LinkMap := list (string * LinkAgg).

Fixpoint lm_get (k : string) (m : LinkMap) : option LinkAgg :=
  match m with
  | [] => None
  | (k', v) :: rest => if String.eqb k k' then Some v else lm_get k rest
  end.

Fixpoint lm_update (k : string) (f : LinkAgg -> LinkAgg) (m : LinkMap) : LinkMap :=
  match m with
  | [] => []
  | (k', v) :: rest =>
      if String.eqb k k' then (k', f v) :: rest else (k', v) :: lm_update k f rest
  end.

(** The body of [parsed.forEach]. *)
Definition accumulate (lm : LinkMap) (m : Medal) : LinkMap :=
  let key := linkKey m in
  match lm_get key lm with
  | None =>
      lm ++ [(key, {| agg_count := 1; agg_athlete := [name m];
                      agg_event := [event m]; agg_medal := medal_type m |})]
  | Some _ =>
      lm_update key
        (fun v => {| agg_count := (agg_count v + 1)%Q;
                     agg_athlete := agg_athlete v ++ [name m];
                     agg_event := agg_event v ++ [event m];
                     agg_medal := agg_medal v |})
        lm
  end.

Definition linkMapOf (parsed : list Medal) : LinkMap :=
  fold_left accumulate parsed [].

(** The callback of [Object.entries(linkMap).map]. *)
Definition toLink (entry : string * LinkAgg) : GraphLink :=
  let parts := JS.split pipe (fst entry) in
  {| source := JS.destructure 0 parts;
     target := JS.destructure 1 parts;
     medal := JS.destructure 2 parts;
     athlete := Some (JS.join ", " (agg_athlete (snd entry)));
     link_event := Some (JS.join ", " (agg_event (snd entry)));
     count := Some (agg_count (snd entry)) |}.

Definition countries (parsed : list Medal) : list string :=
  JS.set_from (map country parsed).

Definition disciplines (parsed : list Medal) : list string :=
  JS.set_from (map discipline parsed).

Definition build (parsed : list Medal) : Graph :=
  {| nodes :=
       map (fun c => {| node_id := c; node_type := country_t |}) (countries parsed)
       ++ map (fun d => {| node_id := d; node_type := discipline_t |}) (disciplines parsed);
     links := map toLink (linkMapOf parsed) |}.

(** The [complete] callback contains no [throw] and calls nothing that
    throws: it always hands a graph to [setGraphData]. *)
Inductive Outcome (A : Type) :=
| Returns (a : A)
| Throws (error_name : string).
Arguments Returns {A} a.
Arguments Throws {A} error_name.

Definition complete (parsed : list Medal) : Outcome Graph :=
  Returns (build parsed).

(** The medal graph panel of [Layout]:
    [graphData.nodes.length > 0 ? <MedalGraph .../> : <div>Loading medal graph...</div>]. *)
Inductive Panel :=
| LoadingMedalGraph
| MedalGraphView (ns : list GraphNode) (ls : list GraphLink).

Definition medalPanel (graphData : Graph) : Panel :=
  if (0 <? length (nodes graphData))%nat
  then MedalGraphView (nodes graphData) (links graphData)
  else LoadingMedalGraph.

(** ** Filter pipeline ([MedalGraph], lines 358 to 427) *)

(** [function clamp(n, lo, hi) { return Math.max(lo, Math.min(hi, n)); }] *)
Definition clamp (n lo hi : Q) : Q := Qmax lo (Qmin hi n).

(** The filter parameters: the component state set by the controls. *)
Record FilterState := {
  selectedCountry : string;
  selectedDiscipline : string;
  selectedMedal : string;
  minCount : Q;
  showOnlyConnected : bool
}.

(** [selected !== "All" ? selected : null] *)
Definition wanted (selected : string) : option string :=
  if String.eqb selected "All" then None else Some selected.

(** [l.count ?? 1] *)
Definition countOr1 (l : GraphLink) : Q := default 1%Q (count l).

(** The predicate of [links.filter] in [filteredLinks]; every [return
    false] of the source is one [false] branch here. *)
Definition keepLink (p : FilterState) (l : GraphLink) : bool :=
  let src := source l in
  let tgt := target l in
  let wantedCountry := wanted (selectedCountry p) in
  let wantedDiscipline := wanted (selectedDiscipline p) in
  let wantedMedal := wanted (selectedMedal p) in
  if match wantedMedal with
     | Some w => JS.truthy w && negb (String.eqb (medal l) w)
     | None => false
     end
  then false
  else
    let c := countOr1 l in
    if JS.ltb c (minCount p) then false
    else if match wantedCountry with
            | Some w => JS.truthy w && negb (String.eqb src w || String.eqb tgt w)
            | None => false
            end
    then false
    else if match wantedDiscipline with
            | Some w => JS.truthy w && negb (String.eqb src w || String.eqb tgt w)
            | None => false
            end
    then false
    else true.

Definition filteredLinks (ls : list GraphLink) (p : FilterState) : list GraphLink :=
  List.filter (keepLink p) ls.

(** [filteredNodeIds]: the loop adds [l.source], then [l.target]. *)
Definition filteredNodeIds (fl : list GraphLink) : gset string :=
  fold_left (fun s l => {[target l]} ∪ ({[source l]} ∪ s)) fl ∅.

Definition filteredNodes (ns : list GraphNode) (ids : gset string)
    (show_only_connected : bool) : list GraphNode :=
  if negb show_only_connected then ns
  else List.filter (fun n => bool_decide (node_id n ∈ ids)) ns.

(** The filter pipeline as one function from graph and parameters to the
    visible subgraph: the chain [filteredLinks], [filteredNodeIds],
    [filteredNodes] of the component. *)
Definition filterGraph (g : Graph) (p : FilterState) : Graph :=
  let fl := filteredLinks (links g) p in
  {| nodes := filteredNodes (nodes g) (filteredNodeIds fl) (showOnlyConnected p);
     links := fl |}.

(** The effect on [links]:
    [maxC = Math.max(1, ...links.map(l => l.count ?? 1));
     setMinCount(c => clamp(c, 1, maxC))]. *)
Definition maxCount (ls : list GraphLink) : Q :=
  JS.max_of 1 (map countOr1 ls).

Definition onLinksChange (ls : list GraphLink) (p : FilterState) : FilterState :=
  {| selectedCountry := selectedCountry p;
     selectedDiscipline := selectedDiscipline p;
     selectedMedal := selectedMedal p;
     minCount := clamp (minCount p) 1 (maxCount ls);
     showOnlyConnected := showOnlyConnected p |}.

(** ** Numbers with rounding

    A JavaScript number is an IEEE 754 binary64 value: 53 bits of
    precision, round to nearest, ties to even. *)

Module Num.

Definition prec : Z := 53.
Definition emax : Z := 1024.

Definition number : Type := spec_float.

Definition NaN : number := S754_nan.

(** The number that a whole number denotes. *)
Definition ofZ (z : Z) : number := binary_normalize prec emax z 0 false.

(** [x + y], [x * y] and [x / y] *)
Definition add (x y : number) : number := SFadd prec emax x y.
Definition mul (x y : number) : number := SFmul prec emax x y.
Definition div (x y : number) : number := SFdiv prec emax x y.

(** The literal with one decimal that stands for [t] tenths, such as
    [0.8] for 8: the number nearest to [t / 10]. *)
Definition tenths (t : Z) : number := div (ofZ t) (ofZ 10).

Definition isNaN (x : number) : bool :=
  match x with
  | S754_nan => true
  | _ => false
  end.

Definition isNegZero (x : number) : bool :=
  match x with
  | S754_zero true => true
  | _ => false
  end.

(** [x <= y], false when one of them is NaN. *)
Definition leb (x y : number) : bool := SFleb x y.

(** [Math.min(a, b)] and [Math.max(a, b)]: NaN when an argument is NaN;
    the negative zero is the smaller zero. *)
Definition min (a b : number) : number :=
  if isNaN a || isNaN b then NaN
  else if SFltb a b then a
  else if SFltb b a then b
  else if isNegZero a then a else b.

Definition max (a b : number) : number :=
  if isNaN a || isNaN b then NaN
  else if SFltb a b then b
  else if SFltb b a then a
  else if isNegZero a then b else a.

(** [function clamp(n, lo, hi) { return Math.max(lo, Math.min(hi, n)); }]
    on numbers in general; [clamp] above is the same function on
    numbers that are rationals, where [Math.min] and [Math.max] round
    nothing. *)
Definition clamp (n lo hi : number) : number := max lo (min hi n).

End Num.

(** ** Degrees and radii ([MedalGraph], the layout effect, lines 474 to
    498 and 524) *)

(** The values that [degree] holds or inherits: [undefined], a whole
    number, NaN, a text that is no numeral (the text of a function or of
    an object, followed by digits), and a function or an object.  The
    numbers are counts of edge ends, counted up from 0 by 1: they stay
    far below 2^53, where the addition rounds nothing, so they are
    integers here; [toNumber] gives the number that enters the rounded
    arithmetic of the radii. *)
Inductive Value :=
| VUndefined
| VNumber (k : Z)
| VNaN
| VText
| VObject.

(** The names of the properties of [Object.prototype], which the object
    literal [{}] inherits; all are functions but [__proto__], whose
    getter returns [Object.prototype]. *)
Definition objectPrototypeKeys : list string :=
  ["constructor"; "__defineGetter__"; "__defineSetter__"; "hasOwnProperty";
   "__lookupGetter__"; "__lookupSetter__"; "isPrototypeOf";
   "propertyIsEnumerable"; "toString"; "valueOf"; "__proto__";
   "toLocaleString"].

Definition inherited (k : string) : bool :=
  existsb (String.eqb k) objectPrototypeKeys.

(** [degree[k]]: the own entry, or else the inherited property. *)
Definition getProp (degree : gmap string Value) (k : string) : Value :=
  match degree !! k with
  | Some v => v
  | None => if inherited k then VObject else VUndefined
  end.

(** [v || 0]: [undefined], 0 and NaN are falsy. *)
Definition orZero (v : Value) : Value :=
  match v with
  | VUndefined => VNumber 0
  | VNumber k => if (k =? 0)%Z then VNumber 0 else VNumber k
  | VNaN => VNumber 0
  | VText => VText
  | VObject => VObject
  end.

(** [v + 1]: a sum of numbers, or the text of [v] followed by ["1"]. *)
Definition plusOne (v : Value) : Value :=
  match v with
  | VUndefined => VNaN
  | VNumber k => VNumber (k + 1)
  | VNaN => VNaN
  | VText => VText
  | VObject => VText
  end.

(** The number that [v] is converted to in a product. *)
Definition toNumber (v : Value) : Num.number :=
  match v with
  | VNumber k => Num.ofZ k
  | VUndefined | VNaN | VText | VObject => Num.NaN
  end.

(** [degree[k] = (degree[k] || 0) + 1]: the assignment makes an own
    entry, except for [__proto__], whose setter ignores a value that is
    no object; the value is a number, NaN or a text here. *)
Definition increment (degree : gmap string Value) (k : string) : gmap string Value :=
  let v := plusOne (orZero (getProp degree k)) in
  if String.eqb k "__proto__" then degree else <[k := v]> degree.

(** [degree]: the object filled by the loop over [filteredLinks]. *)
Definition degreeStep (degree : gmap string Value) (l : GraphLink) : gmap string Value :=
  increment (increment degree (source l)) (target l).

Definition degreeOf (fl : list GraphLink) : gmap string Value :=
  fold_left degreeStep fl ∅.

Definition rCountry (degree : gmap string Value) (id : string) : Num.number :=
  Num.clamp
    (Num.add (Num.ofZ 10) (Num.mul (toNumber (orZero (getProp degree id))) (Num.tenths 8)))
    (Num.ofZ 12) (Num.ofZ 24).

Definition rDiscipline (degree : gmap string Value) (id : string) : Num.number :=
  Num.clamp
    (Num.add (Num.ofZ 7) (Num.mul (toNumber (orZero (getProp degree id))) (Num.tenths 6)))
    (Num.ofZ 9) (Num.ofZ 18).

(** The [r] attribute of a node's circle. *)
Definition nodeRadius (degree : gmap string Value) (d : GraphNode) : Num.number :=
  match node_type d with
  | country_t => rCountry degree (node_id d)
  | discipline_t => rDiscipline degree (node_id d)
  end.

(** The radius accessor given to [d3.forceCollide]. *)
Definition collideRadius (degree : gmap string Value) (d : GraphNode) : Num.number :=
  Num.add (nodeRadius degree d) (Num.ofZ 4).

(** ** The force simulation driven by the component *)

Module D3.

(** [type SimNode = GraphNode & d3.SimulationNodeDatum].
    [d3.forceSimulation(simNodes)] gives every node numeric [x], [y], [vx]
    and [vy] when the simulation is created, before a handler can run, so
    these are numbers here; the pin [fx], [fy] is a number, or [null] or
    absent ([None]). *)
Record SimNode := {
  datum : GraphNode;
  x : Q;
  y : Q;
  vx : Q;
  vy : Q;
  fx : option Q;
  fy : option Q
}.

(** The part of a [d3.Simulation] that the component observes: its nodes,
    its energy [alpha], the value [alphaTarget] that the energy moves to,
    and whether its timer runs. *)
Record Simulation := {
  nodes : list SimNode;
  alpha : Q;
  alphaTarget : Q;
  running : bool
}.

(** [simulation.alphaTarget(target)]: d3 sets the value that the energy
    moves to and leaves the energy itself as it is. *)
Definition setAlphaTarget (target : Q) (s : Simulation) : Simulation :=
  {| nodes := nodes s; alpha := alpha s; alphaTarget := target;
     running := running s |}.

(** [simulation.restart()]: d3 restarts the timer of the simulation. *)
Definition restart (s : Simulation) : Simulation :=
  {| nodes := nodes s; alpha := alpha s; alphaTarget := alphaTarget s;
     running := true |}.

(** [simulation.stop()]: d3 stops the timer (the cleanup of the layout
    effect calls it). *)
Definition stop (s : Simulation) : Simulation :=
  {| nodes := nodes s; alpha := alpha s; alphaTarget := alphaTarget s;
     running := false |}.

(** The simulation as [d3.forceSimulation] creates it: energy 1, target 0,
    timer running. *)
Definition forceSimulation (ns : list SimNode) : Simulation :=
  {| nodes := ns; alpha := 1; alphaTarget := 0; running := true |}.

Section Tick.

(** The rates of the simulation (the component keeps d3's defaults) and
    the forces that the component registers (link, charge, collide,
    center), which read and write positions and velocities. *)
Variables alphaDecay velocityDecay alphaMin : Q.
Variable forces : Q -> list SimNode -> list SimNode.

(** Modelled from the spec: the position integration of one node in a
    tick of the layout solver, which is d3-force's and not under src/.
    A pinned coordinate is held exactly at the pin and its velocity is
    cleared; an unpinned one moves by its damped velocity. *)
Definition integrate (n : SimNode) : SimNode :=
  let vx' := match fx n with None => (vx n * velocityDecay)%Q | Some _ => 0%Q end in
  let vy' := match fy n with None => (vy n * velocityDecay)%Q | Some _ => 0%Q end in
  {| datum := datum n;
     x := match fx n with None => (x n + vx')%Q | Some px => px end;
     y := match fy n with None => (y n + vy')%Q | Some py => py end;
     vx := vx';
     vy := vy';
     fx := fx n;
     fy := fy n |}.

(** Modelled from the spec: one tick of the layout solver, which is
    d3-force's and not under src/.  The energy moves geometrically to
    [alphaTarget] (zero unless a drag is in progress), the forces act,
    then every node is integrated. *)
Definition tick (s : Simulation) : Simulation :=
  let a := (alpha s + (alphaTarget s - alpha s) * alphaDecay)%Q in
  {| nodes := map integrate (forces a (nodes s));
     alpha := a;
     alphaTarget := alphaTarget s;
     running := running s |}.

(** Modelled from the spec: the timer callback of the solver; it ticks
    while the timer runs and stops the timer once the energy is below
    the threshold. *)
Definition step (s : Simulation) : Simulation :=
  if running s then
    let s' := tick s in
    if JS.ltb (alpha s') alphaMin then stop s' else s'
  else s.

Definition ticks (n : nat) (s : Simulation) : Simulation :=
  Nat.iter n tick s.

End Tick.

End D3.

(** ** Drag handlers ([MedalGraph], lines 535 to 550) *)

(** The handlers receive the datum [d] of the dragged circle, an element
    of [simNodes]; it is addressed here by its index in the array. *)
Definition withNode (i : nat) (f : D3.SimNode -> D3.SimNode)
    (s : D3.Simulation) : D3.Simulation :=
  {| D3.nodes := alter f i (D3.nodes s);
     D3.alpha := D3.alpha s;
     D3.alphaTarget := D3.alphaTarget s;
     D3.running := D3.running s |}.

Definition setPin (px py : option Q) (d : D3.SimNode) : D3.SimNode :=
  {| D3.datum := D3.datum d; D3.x := D3.x d; D3.y := D3.y d;
     D3.vx := D3.vx d; D3.vy := D3.vy d; D3.fx := px; D3.fy := py |}.

(** [.on("start", (event, d) => { if (!event.active)
      simulation.alphaTarget(0.2).restart(); d.fx = d.x ?? 0; d.fy = d.y ?? 0; })];
    [active] is [event.active], the number of other gestures in progress.
    The position of a node of a simulation is a number (see
    [D3.SimNode]), so [d.x ?? 0] is [d.x]. *)
Definition dragStart (active : nat) (i : nat) (s : D3.Simulation) : D3.Simulation :=
  let s1 := if (active =? 0)%nat then D3.restart (D3.setAlphaTarget 0.2 s) else s in
  withNode i (fun d => setPin (Some (D3.x d)) (Some (D3.y d)) d) s1.

(** [.on("drag", (event, d) => { d.fx = event.x; d.fy = event.y; })] *)
Definition dragMove (event_x event_y : Q) (i : nat) (s : D3.Simulation) : D3.Simulation :=
  withNode i (setPin (Some event_x) (Some event_y)) s.

(** [.on("end", (event, d) => { if (!event.active) simulation.alphaTarget(0);
      d.fx = null; d.fy = null; })] *)
Definition dragEnd (active : nat) (i : nat) (s : D3.Simulation) : D3.Simulation :=
  let s1 := if (active =? 0)%nat then D3.setAlphaTarget 0 s else s in
  withNode i (setPin None None) s1.

(** ** Vocabulary of the statements *)

(** An edge sequence touches [id] when one of its edges ends there. *)
Definition touches (ls : list GraphLink) (id : string) : Prop :=
  exists l, In l ls /\ (source l = id \/ target l = id).

(** The degree of [id] in an edge sequence: the number of edge ends at
    [id] (an edge from [id] to [id] counts twice, as in the source). *)
Definition visibleDegree (ls : list GraphLink) (id : string) : nat :=
  length (List.filter (fun l => String.eqb (source l) id) ls)
  + length (List.filter (fun l => String.eqb (target l) id) ls).

(** The value that [degree] holds for an id of degree [k]. *)
Definition degreeEntry (k : nat) : Value :=
  if (k =? 0)%nat then VUndefined else VNumber (Z.of_nat k).

(** Two parameter values that agree except, possibly, on [minCount]. *)
Definition sameExceptMinCount (p1 p2 : FilterState) : Prop :=
  selectedCountry p1 = selectedCountry p2
  /\ selectedDiscipline p1 = selectedDiscipline p2
  /\ selectedMedal p1 = selectedMedal p2
  /\ showOnlyConnected p1 = showOnlyConnected p2.

(** The clamped affine radius of the specification for a node category
    and a degree, computed as the program computes with numbers. *)
Definition radiusBase (t : NodeType) : Num.number :=
  match t with country_t => Num.ofZ 10 | discipline_t => Num.ofZ 7 end.
Definition radiusSlope (t : NodeType) : Num.number :=
  match t with country_t => Num.tenths 8 | discipline_t => Num.tenths 6 end.
Definition radiusMin (t : NodeType) : Num.number :=
  match t with country_t => Num.ofZ 12 | discipline_t => Num.ofZ 9 end.
Definition radiusMax (t : NodeType) : Num.number :=
  match t with country_t => Num.ofZ 24 | discipline_t => Num.ofZ 18 end.

Definition clampedAffine (t : NodeType) (degree : nat) : Num.number :=
  Num.clamp (Num.add (radiusBase t) (Num.mul (Num.ofZ (Z.of_nat degree)) (radiusSlope t)))
            (radiusMin t) (radiusMax t).

(** A record whose country has the name of an inherited property. *)
Definition inheritedNameRecords : list Medal :=
  [ {| medal_type := "Gold Medal"; name := "n1"; discipline := "Judo";
       event := "e1"; country := "constructor" |} ].

(** The graph and the parameters of the example of the specification. *)
Definition exampleLink (s t m : string) (c : Q) : GraphLink :=
  {| source := s; target := t; medal := m; athlete := None;
     link_event := None; count := Some c |}.

Definition exampleGraph : Graph :=
  {| nodes := [ {| node_id := "A"; node_type := country_t |};
                {| node_id := "B"; node_type := country_t |};
                {| node_id := "X"; node_type := discipline_t |} ];
     links := [ exampleLink "A" "X" "win" 2; exampleLink "B" "X" "loss" 1 ] |}.

Definition exampleParams (min_count : Q) (hide : bool) : FilterState :=
  {| selectedCountry := "All"; selectedDiscipline := "All";
     selectedMedal := "All"; minCount := min_count;
     showOnlyConnected := hide |}.

(** A string without the separator of [linkKey]. *)
Fixpoint noPipe (s : string) : bool :=
  match s with
  | EmptyString => true
  | String c s' => negb (Ascii.eqb c pipe) && noPipe s'
  end.

(** The grouping key of the specification. *)
Definition triple (m : Medal) : string * string * string :=
  (country m, discipline m, medal_type m).

(** The records of a group, in input order. *)
Definition keyGroup (parsed : list Medal) (k : string) : list Medal :=
  List.filter (fun m => String.eqb (linkKey m) k) parsed.

Definition tripleGroup (parsed : list Medal) (t : string * string * string) : list Medal :=
  List.filter (fun m => bool_decide (triple m = t)) parsed.

(** The aggregate that [linkMap] holds for a group. *)
Definition aggOf (grp : list Medal) : LinkAgg :=
  {| agg_count := inject_Z (Z.of_nat (length grp));
     agg_athlete := map name grp;
     agg_event := map event grp;
     agg_medal := match grp with m :: _ => medal_type m | [] => EmptyString end |}.

(** The edge of the specification for a group: its triple, its size and
    the detail fields of its members. *)
Definition edgeOf (t : string * string * string) (grp : list Medal) : GraphLink :=
  {| source := fst (fst t);
     target := snd (fst t);
     medal := snd t;
     athlete := Some (JS.join ", " (map name grp));
     link_event := Some (JS.join ", " (map event grp));
     count := Some (inject_Z (Z.of_nat (length grp))) |}.

(** The key of a triple, as [linkKey] writes it. *)
Definition keyOfTriple (t : string * string * string) : string :=
  fst (fst t) +:+ "|" +:+ snd (fst t) +:+ "|" +:+ snd t.

(** Record sequences whose grouping fields hold no separator. *)
Definition pipeFree (parsed : list Medal) : Prop :=
  forall m, In m parsed ->
    noPipe (country m) = true /\ noPipe (discipline m) = true
    /\ noPipe (medal_type m) = true.

Definition endpointsPipeFree (parsed : list Medal) : Prop :=
  forall m, In m parsed ->
    noPipe (country m) = true /\ noPipe (discipline m) = true.

Definition countryNode (c : string) : GraphNode :=
  {| node_id := c; node_type := country_t |}.
Definition disciplineNode (d : string) : GraphNode :=
  {| node_id := d; node_type := discipline_t |}.

Definition ofType (t : NodeType) (n : GraphNode) : bool :=
  bool_decide (node_type n = t).

(** Two records whose keys collide although their triples differ, and a
    record whose country is also its discipline. *)
Definition collidingRecords : list Medal :=
  [ {| medal_type := "Gold Medal"; name := "n1"; discipline := "C";
       event := "e1"; country := "A|B" |};
    {| medal_type := "Gold Medal"; name := "n2"; discipline := "B|C";
       event := "e2"; country := "A" |} ].

Definition sameNameRecords : list Medal :=
  [ {| medal_type := "Gold Medal"; name := "n1"; discipline := "X";
       event := "e1"; country := "X" |} ].

(** The records of the example of the specification. *)
Definition exampleRecords : list Medal :=
  [ {| medal_type := "win"; name := "a1"; discipline := "X"; event := "e1"; country := "A" |};
    {| medal_type := "win"; name := "a2"; discipline := "X"; event := "e2"; country := "A" |};
    {| medal_type := "loss"; name := "b1"; discipline := "X"; event := "e3"; country := "B" |} ].

(** The forces of the component change positions and velocities; none of
    them writes a pin. *)
Definition pinOf (n : D3.SimNode) : option Q * option Q := (D3.fx n, D3.fy n).

Definition keepsPins (forces : Q -> list D3.SimNode -> list D3.SimNode) : Prop :=
  forall a ns, map pinOf (forces a ns) = map pinOf ns.

(** The rates that d3 uses when the component sets none: the energy
    threshold 0.001, the decay 1 - 0.001^(1/300) (here to four decimals)
    and the velocity factor 0.6. *)
Definition defaultAlphaMin : Q := 0.001.
Definition defaultAlphaDecay : Q := 0.0228.
Definition defaultVelocityDecay : Q := 0.6.

(** A force for the examples: it pushes every node to the right with the
    current energy. *)
Definition pushRight (a : Q) (ns : list D3.SimNode) : list D3.SimNode :=
  map (fun n => {| D3.datum := D3.datum n; D3.x := D3.x n; D3.y := D3.y n;
                   D3.vx := (D3.vx n + a)%Q; D3.vy := D3.vy n;
                   D3.fx := D3.fx n; D3.fy := D3.fy n |}) ns.

Definition restingNode (id : string) (t : NodeType) (px py : Q) : D3.SimNode :=
  {| D3.datum := {| node_id := id; node_type := t |};
     D3.x := px; D3.y := py; D3.vx := 0; D3.vy := 0;
     D3.fx := None; D3.fy := None |}.

Definition exampleNodes : list D3.SimNode :=
  [restingNode "A" country_t 3 4; restingNode "X" discipline_t 5 6].

(** A fresh simulation, and a simulation that has cooled down. *)
Definition freshSim : D3.Simulation := D3.forceSimulation exampleNodes.

Definition cooledSim : D3.Simulation :=
  {| D3.nodes := exampleNodes; D3.alpha := 0.05; D3.alphaTarget := 0;
     D3.running := true |}.

Definition exampleTick : D3.Simulation -> D3.Simulation :=
  D3.tick defaultAlphaDecay defaultVelocityDecay pushRight.

(** ** Further code of [MedalGraph] *)

(** [resetFilters] (lines 653 to 659): the state that the Reset button
    sets, whatever the state was. *)
Definition resetFilters (p : FilterState) : FilterState :=
  {| selectedCountry := "All";
     selectedDiscipline := "All";
     selectedMedal := "All";
     minCount := 1;
     showOnlyConnected := true |}.

(** Every edge of the graph ends at ids of nodes of the graph. *)
Definition endpointsKnown (g : Graph) : Prop :=
  forall l, In l (links g) ->
    In (source l) (map node_id (nodes g)) /\ In (target l) (map node_id (nodes g)).

(** No control selects anything. *)
Definition nothingSelected (p : FilterState) : Prop :=
  selectedCountry p = "All" /\ selectedDiscipline p = "All"
  /\ selectedMedal p = "All".

(** The sum of the counts of a link sequence. *)
Definition totalCount (ls : list GraphLink) : Q :=
  fold_right Qplus 0%Q (map countOr1 ls).

(** Source, target and label of an edge. *)
Definition edgeTriple (l : GraphLink) : string * string * string :=
  (source l, target l, medal l).

(** A drag gesture on the node at index [i]: pointer-down, the pointer
    moves of [moves] in order, pointer-up, with no other gesture in
    progress and no tick in between. *)
Definition dragGesture (i : nat) (moves : list (Q * Q)) (s : D3.Simulation) : D3.Simulation :=
  dragEnd 0 i
    (fold_left (fun s' xy => dragMove (fst xy) (snd xy) i s') moves (dragStart 0 i s)).

(** ** More JavaScript string functions

    In the functions of this module, and in the code below that uses
    them, a character of a [string] stands for one UTF-16 code unit
    below 256 (the Latin-1 range); code units from 256 on have no
    counterpart here. *)

Module Str.

(** The white space and line terminators that [trim] removes, as far as
    they lie below 256: tab, line feed, vertical tab, form feed, carriage
    return, space and no-break space. *)
Definition isWhiteSpace (c : ascii) : bool :=
  let n := nat_of_ascii c in
  (n =? 9)%nat || (n =? 10)%nat || (n =? 11)%nat || (n =? 12)%nat
  || (n =? 13)%nat || (n =? 32)%nat || (n =? 160)%nat.

Fixpoint trimStart (s : string) : string :=
  match s with
  | EmptyString => EmptyString
  | String c s' => if isWhiteSpace c then trimStart s' else s
  end.

Fixpoint trimEnd (s : string) : string :=
  match s with
  | EmptyString => EmptyString
  | String c s' =>
      match trimEnd s' with
      | EmptyString => if isWhiteSpace c then EmptyString else String c EmptyString
      | String c' t => String c (String c' t)
      end
  end.

(** [s.trim()] *)
Definition trim (s : string) : string := trimEnd (trimStart s).

(** [s.replace(/c/g, "")] for a character [c]. *)
Fixpoint removeAll (c : ascii) (s : string) : string :=
  match s with
  | EmptyString => EmptyString
  | String a s' => if Ascii.eqb a c then removeAll c s' else String a (removeAll c s')
  end.

(** [s.replace(/^c/, "")] for a character [c]. *)
Definition dropFirstIf (c : ascii) (s : string) : string :=
  match s with
  | String a s' => if Ascii.eqb a c then s' else s
  | EmptyString => EmptyString
  end.

(** [s.replace(/c$/, "")] for a character [c]. *)
Fixpoint dropLastIf (c : ascii) (s : string) : string :=
  match s with
  | EmptyString => EmptyString
  | String a EmptyString => if Ascii.eqb a c then EmptyString else s
  | String a s' => String a (dropLastIf c s')
  end.

End Str.

(** ** The athletes loader ([App.tsx], lines 53 to 69) *)

(** What the [disciplines] column of a parsed row can hold: an array, a
    string, or anything else (absent, for one). *)
Inductive RawDisciplines :=
| RawArray (items : list string)
| RawText (s : string)
| RawOther.

(** The expression that computes [disciplines] from [row.disciplines]:
    an array is kept; a non-empty string loses a leading ["["], a trailing
    ["]"] and every ["'"], is split at the commas, and its pieces are
    trimmed and kept when they are not empty. *)
Definition parseDisciplines (raw : RawDisciplines) : list string :=
  match raw with
  | RawArray items => items
  | RawText s =>
      if (0 <? String.length s)%nat then
        List.filter JS.truthy
          (map Str.trim
             (JS.split ","%char
                (Str.removeAll "'"%char
                   (Str.dropLastIf "]"%char (Str.dropFirstIf "["%char s)))))
      else []
  | RawOther => []
  end.

(** A string without the character [c]. *)
Fixpoint noChar (c : ascii) (s : string) : bool :=
  match s with
  | EmptyString => true
  | String a s' => negb (Ascii.eqb a c) && noChar c s'
  end.

(** The text that the data file holds for a list of names:
    [['n1', 'n2']]. *)
Definition quoted (n : string) : string := "'" +:+ n +:+ "'".

Definition listText (names : list string) : string :=
  "[" +:+ JS.join ", " (map quoted names) +:+ "]".

(** A name that such a text can carry: not empty, without comma and
    quote, and without white space at its ends. *)
Definition plainName (n : string) : Prop :=
  n <> EmptyString /\ noChar ","%char n = true /\ noChar "'"%char n = true
  /\ Str.trim n = n.

(** ** More JavaScript library functions: case, search, sorting, maps *)

Module Lib.

(** [s.toLowerCase()] on code units below 256: the letters A to Z and
    the capital letters of the Latin-1 range (192 to 222 without the
    multiplication sign 215) move up by 32, all else stays. *)
Definition lowerChar (c : ascii) : ascii :=
  let n := nat_of_ascii c in
  if ((65 <=? n) && (n <=? 90) || (192 <=? n) && (n <=? 214)
      || (216 <=? n) && (n <=? 222))%nat
  then ascii_of_nat (n + 32) else c.

Fixpoint toLowerCase (s : string) : string :=
  match s with
  | EmptyString => EmptyString
  | String c s' => String (lowerChar c) (toLowerCase s')
  end.

(** [s.startsWith(p)] *)
Fixpoint startsWith (p s : string) : bool :=
  match p with
  | EmptyString => true
  | String a p' =>
      match s with
      | EmptyString => false
      | String b s' => Ascii.eqb a b && startsWith p' s'
      end
  end.

(** [s.includes(sub)] *)
Fixpoint includes (s sub : string) : bool :=
  startsWith sub s
  || match s with
     | EmptyString => false
     | String _ s' => includes s' sub
     end.

(** [s.split(sep)] for a separator [sep] of one or more characters,
    called with [skip = 0]: the pieces between the occurrences of [sep],
    found from left to right; [skip] counts the characters of an
    occurrence that are still to be passed over. *)
Fixpoint splitOn (sep s : string) (skip : nat) : list string :=
  match s with
  | EmptyString => [EmptyString]
  | String c s' =>
      match skip with
      | S k => splitOn sep s' k
      | O =>
          if startsWith sep s then EmptyString :: splitOn sep s' (String.length sep - 1)
          else match splitOn sep s' 0 with
               | p :: ps => String c p :: ps
               | [] => [String c EmptyString]
               end
      end
  end.

(** [arr.sort(cmp)] for a comparator that orders consistently: the
    stable sort, which puts [x] before [y] when [cmp(x, y) < 0] and keeps
    the order of elements that compare equal.  [insert] puts an element
    that stood before all of [l] into the sorted [l]. *)
Fixpoint insert {A} (cmp : A -> A -> Q) (x : A) (l : list A) : list A :=
  match l with
  | [] => [x]
  | y :: l' => if Qle_bool (cmp x y) 0 then x :: y :: l' else y :: insert cmp x l'
  end.

Definition sort {A} (cmp : A -> A -> Q) (l : list A) : list A :=
  fold_right (insert cmp) [] l.

(** A [Map] from strings to numbers, in insertion order; [bump] is
    [m.set(k, (m.get(k) ?? 0) + 1)], which keeps the place of a key
    that the map holds already. *)
Fixpoint get (k : string) (m : list (string * Q)) : option Q :=
  match m with
  | [] => None
  | (k', v) :: rest => if String.eqb k k' then Some v else get k rest
  end.

Fixpoint set (k : string) (v : Q) (m : list (string * Q)) : list (string * Q) :=
  match m with
  | [] => [(k, v)]
  | (k', v') :: rest =>
      if String.eqb k k' then (k', v) :: rest else (k', v') :: set k v rest
  end.

Definition bump (m : list (string * Q)) (k : string) : list (string * Q) :=
  set k (default 0%Q (get k m) + 1)%Q m.

End Lib.

(** ** The Sankey chart ([ParallelSets.tsx], lines 21 to 229) *)

Module ParallelSets.

(** [interface AthleteRec] *)
Record AthleteRec := {
  athlete : option string;
  country : string;
  sport : string;
  medal : option string
}.

(** [type SankeyNode] and [type SankeyLink] *)
Record SankeyNode := { name : string }.

Record SankeyLink := {
  source : nat;
  target : nat;
  value : Q
}.

Record SankeyData := {
  nodes : list SankeyNode;
  links : list SankeyLink
}.

(** [norm(s)]: [String(s ?? "").trim()], for a string or an absent
    value. *)
Definition norm (s : option string) : string := Str.trim (default EmptyString s).

(** [lower(s)] *)
Definition lower (s : option string) : string := Lib.toLowerCase (norm s).

(** A parsed row: its fields in the order of [Object.keys], all strings. *)
Definition AnyRow := list (string * string).

(** [pickFieldFuzzy(row, candidates)] *)
Definition keyMatches (candidates : list string) (k : string) : bool :=
  let lk := lower (Some k) in
  existsb (fun c => String.eqb lk c || Lib.includes lk c) candidates.

Definition pickFieldFuzzy (row : AnyRow) (candidates : list string) : string :=
  match List.find (fun kv => keyMatches candidates (fst kv)) row with
  | Some (key, v) => if JS.truthy key then v else EmptyString
  | None => EmptyString
  end.

(** The candidate lists of [medalLookup]. *)
Definition athleteFields : list string :=
  ["athlete"; "name"; "competitor"; "athlete_name"; "person"; "full_name"].
Definition countryFields : list string :=
  ["country"; "noc"; "team"; "nation"; "country_name"; "country_long"].
Definition sportFields : list string :=
  ["sport"; "discipline"; "event"; "discipline_name"; "sport_name"; "disciplines"].

(** The body of the loop of [medalLookup]. *)
Definition addMedalRow (set : gset string) (r : AnyRow) : gset string :=
  let athlete := norm (Some (pickFieldFuzzy r athleteFields)) in
  let country := norm (Some (pickFieldFuzzy r countryFields)) in
  let sport := norm (Some (pickFieldFuzzy r sportFields)) in
  let set1 :=
    if JS.truthy athlete && JS.truthy country && JS.truthy sport
    then {[ lower (Some athlete) +:+ "|" +:+ lower (Some country) +:+ "|"
            +:+ lower (Some sport) ]} ∪ set
    else set in
  if JS.truthy athlete && JS.truthy country
  then {[ lower (Some athlete) +:+ "|" +:+ lower (Some country) ]} ∪ set1
  else set1.

(** [medalLookup]; [medalsRaw] is [null] until the medals are loaded. *)
Definition medalLookup (medalsRaw : option (list AnyRow)) : gset string :=
  match medalsRaw with
  | None => ∅
  | Some rows => fold_left addMedalRow rows ∅
  end.

(** [countries]: the countries of the athletes, most athletes first. *)
Definition byCountDesc (a b : string * Q) : Q := (snd b - snd a)%Q.

Definition tally (keys : list string) : list (string * Q) :=
  fold_left Lib.bump keys [].

Definition countries (athletes : list AthleteRec) : list string :=
  map fst (Lib.sort byCountDesc (tally (map country athletes))).

(** [filtered]; [topCountries] is the value of a slider over whole
    numbers, so [slice(0, topCountries)] takes that many. *)
Definition filtered (athletes : list AthleteRec) (selectedCountry : string)
    (topCountries : nat) : list AthleteRec :=
  if (length athletes =? 0)%nat then []
  else if negb (String.eqb selectedCountry "__ALL__")
  then List.filter (fun a => String.eqb (country a) selectedCountry) athletes
  else
    let topCountrySet : gset string :=
      list_to_set (take topCountries (countries athletes)) in
    List.filter (fun a => bool_decide (country a ∈ topCountrySet)) athletes.

(** [topSportSet] *)
Definition topSportSet (filtered : list AthleteRec) (topSports : nat) : gset string :=
  list_to_set
    (map fst (take topSports (Lib.sort byCountDesc (tally (map sport filtered))))).

(** The outcome of one athlete in the loop of the chart. *)
Definition truthyOpt (s : option string) : bool :=
  match s with
  | Some v => JS.truthy v
  | None => false
  end.

Definition outcomeOf (medalLookup : gset string) (a : AthleteRec) : string :=
  let athleteKeyFull :=
    lower (athlete a) +:+ "|" +:+ lower (Some (country a)) +:+ "|"
    +:+ lower (Some (sport a)) in
  let athleteKeyLoose := lower (athlete a) +:+ "|" +:+ lower (Some (country a)) in
  let hasMedalFromAthletes :=
    truthyOpt (medal a)
    && negb (String.eqb (lower (medal a)) "na")
    && negb (String.eqb (lower (medal a)) "none")
    && negb (String.eqb (lower (medal a)) "") in
  let hasMedalFromMedals :=
    bool_decide (athleteKeyFull ∈ medalLookup)
    || bool_decide (athleteKeyLoose ∈ medalLookup) in
  if hasMedalFromAthletes || hasMedalFromMedals then "Medalist" else "Participant".

(** The two counting maps [cs] and [so] after the loop over [filtered]. *)
Definition flowStep (topSports medalLookup : gset string)
    (acc : list (string * Q) * list (string * Q)) (a : AthleteRec)
    : list (string * Q) * list (string * Q) :=
  if negb (bool_decide (sport a ∈ topSports)) then acc
  else
    let outcome := outcomeOf medalLookup a in
    let k1 := country a +:+ "|||" +:+ sport a in
    let k2 := sport a +:+ "|||" +:+ outcome in
    (Lib.bump (fst acc) k1, Lib.bump (snd acc) k2).

Definition flows (filtered : list AthleteRec) (topSports medalLookup : gset string)
    : list (string * Q) * list (string * Q) :=
  fold_left (flowStep topSports medalLookup) filtered ([], []).

(** [nodeMap] and [nodesArr], and [getIndex(name)], which returns the
    index and leaves the two updated. *)
Record NodeTable := {
  nodeMap : gmap string nat;
  nodesArr : list SankeyNode
}.

Definition getIndex (nm : string) (t : NodeTable) : nat * NodeTable :=
  match nodeMap t !! nm with
  | Some existing => (existing, t)
  | None =>
      let idx := length (nodesArr t) in
      (idx, {| nodeMap := <[nm := idx]> (nodeMap t);
               nodesArr := nodesArr t ++ [{| name := nm |}] |})
  end.

(** The body of the two loops that push the links: the key is split at
    ["|||"], its first two pieces name the ends. *)
Definition pushLink (acc : NodeTable * list SankeyLink) (entry : string * Q)
    : NodeTable * list SankeyLink :=
  let parts := Lib.splitOn "|||" (fst entry) 0 in
  let '(src, t1) := getIndex (JS.destructure 0 parts) (fst acc) in
  let '(tgt, t2) := getIndex (JS.destructure 1 parts) t1 in
  (t2, snd acc ++ [{| source := src; target := tgt; value := snd entry |}]).

(** [{ nodes, links }] *)
Definition sankey (filtered : list AthleteRec) (topSports medalLookup : gset string)
    : SankeyData :=
  let '(cs, so) := flows filtered topSports medalLookup in
  let start := ({| nodeMap := ∅; nodesArr := [] |}, []) in
  let afterCs := fold_left pushLink cs start in
  let afterSo := fold_left pushLink so afterCs in
  {| nodes := nodesArr (fst afterSo); links := snd afterSo |}.

(** [hasData] *)
Definition hasData (d : SankeyData) : bool :=
  (0 <? length (nodes d))%nat && (0 <? length (links d))%nat.

End ParallelSets.

(** How often [k] occurs in [keys]. *)
Definition occurrences (k : string) (keys : list string) : nat :=
  length (List.filter (String.eqb k) keys).

(** The number of athletes of a country. *)
Definition athletesOf (athletes : list ParallelSets.AthleteRec) (c : string) : nat :=
  occurrences c (map ParallelSets.country athletes).

(** The entries of a counting map are ordered by falling count. *)
Definition countGe (a b : string * Q) : Prop := (snd b <= snd a)%Q.

Definition psAthlete (n c s : string) : ParallelSets.AthleteRec :=
  {| ParallelSets.athlete := Some n; ParallelSets.country := c;
     ParallelSets.sport := s; ParallelSets.medal := Some EmptyString |}.

(** Five athletes of three countries. *)
Definition exampleAthletes : list ParallelSets.AthleteRec :=
  [ psAthlete "a1" "FRA" "Judo"; psAthlete "a2" "USA" "Judo";
    psAthlete "a3" "USA" "Golf"; psAthlete "a4" "USA" "Judo";
    psAthlete "a5" "JPN" "Judo" ].

(** The sum of a list of numbers. *)
Definition sumQ (l : list Q) : Q := fold_right Qplus 0%Q l.

(** The athletes that the chart counts: those of [filtered] whose sport
    is one of the top sports. *)
Definition counted (filtered : list ParallelSets.AthleteRec) (topSports : gset string)
    : list ParallelSets.AthleteRec :=
  List.filter (fun a => bool_decide (ParallelSets.sport a ∈ topSports)) filtered.

(** The node table is consistent: the map sends a name to the index at
    which the array holds the node of that name, and holds nothing
    else. *)
Definition tableOk (t : ParallelSets.NodeTable) : Prop :=
  forall nm i,
    ParallelSets.nodeMap t !! nm = Some i
    <-> ParallelSets.nodesArr t !! i = Some {| ParallelSets.name := nm |}.

(** Every link ends at indices of the array, and every index of the
    array is an end of some link. *)
Definition linksOk (ns : list ParallelSets.SankeyNode) (ls : list ParallelSets.SankeyLink)
    : Prop :=
  (forall l, In l ls ->
     (ParallelSets.source l < length ns)%nat /\ (ParallelSets.target l < length ns)%nat)
  /\ (forall i, (i < length ns)%nat ->
        exists l, In l ls /\ (ParallelSets.source l = i \/ ParallelSets.target l = i)).

(** The keys under which the chart counts an athlete. *)
Definition countrySportKey (a : ParallelSets.AthleteRec) : string :=
  ParallelSets.country a +:+ "|||" +:+ ParallelSets.sport a.

Definition sportOutcomeKey (medalLookup : gset string) (a : ParallelSets.AthleteRec)
    : string :=
  ParallelSets.sport a +:+ "|||" +:+ ParallelSets.outcomeOf medalLookup a.

(** The lowered key of a column contains one of the candidates. *)
Definition mentions (candidates : list string) (k : string) : bool :=
  existsb (fun c => Lib.includes (ParallelSets.lower (Some k)) c) candidates.

(** The athlete and the country that [medalLookup] reads from a row of
    the medals file. *)
Definition rowAthlete (r : ParallelSets.AnyRow) : string :=
  ParallelSets.pickFieldFuzzy r ParallelSets.athleteFields.

Definition rowCountry (r : ParallelSets.AnyRow) : string :=
  ParallelSets.pickFieldFuzzy r ParallelSets.countryFields.

Definition medalRowPipeFree (r : ParallelSets.AnyRow) : bool :=
  noPipe (rowAthlete r) && noPipe (rowCountry r).

(** The row names the athlete: it has an athlete and a country, and both
    agree with the athlete's up to case and surrounding white space. *)
Definition namesAthlete (r : ParallelSets.AnyRow) (a : ParallelSets.AthleteRec) : bool :=
  JS.truthy (ParallelSets.norm (Some (rowAthlete r)))
  && JS.truthy (ParallelSets.norm (Some (rowCountry r)))
  && String.eqb (ParallelSets.lower (Some (rowAthlete r)))
       (ParallelSets.lower (ParallelSets.athlete a))
  && String.eqb (ParallelSets.lower (Some (rowCountry r)))
       (ParallelSets.lower (Some (ParallelSets.country a))).

(** [hasMedalFromAthletes] of the loop of the chart. *)
Definition hasMedalFromAthletes (a : ParallelSets.AthleteRec) : bool :=
  ParallelSets.truthyOpt (ParallelSets.medal a)
  && negb (String.eqb (ParallelSets.lower (ParallelSets.medal a)) "na")
  && negb (String.eqb (ParallelSets.lower (ParallelSets.medal a)) "none")
  && negb (String.eqb (ParallelSets.lower (ParallelSets.medal a)) "").

(** The same athlete in another sport. *)
Definition withSport (a : ParallelSets.AthleteRec) (s : string) : ParallelSets.AthleteRec :=
  {| ParallelSets.athlete := ParallelSets.athlete a;
     ParallelSets.country := ParallelSets.country a;
     ParallelSets.sport := s;
     ParallelSets.medal := ParallelSets.medal a |}.

(** Two rows of a medals file with other names of the columns. *)
Definition exampleMedalRows : list ParallelSets.AnyRow :=
  [ [("medal_type", "Gold Medal"); ("Name", " Ana LIMA "); ("country_code", "BRA");
     ("discipline", "Judo")];
    [("medal_type", "Bronze Medal"); ("Name", "Bo Chen"); ("country_code", "CHN");
     ("discipline", "Golf")] ].

Definition rowSport (r : ParallelSets.AnyRow) : string :=
  ParallelSets.pickFieldFuzzy r ParallelSets.sportFields.

(** The number of athletes of a sport. *)
Definition athletesIn (athletes : list ParallelSets.AthleteRec) (s : string) : nat :=
  occurrences s (map ParallelSets.sport athletes).

(** * Properties *)

(** ** Lists and numbers *)

Lemma filter_twice {A} (f : A -> bool) (l : list A) :
  List.filter f (List.filter f l) = List.filter f l.
Proof.
  induction l as [|a l IH]; simpl; [reflexivity|].
  destruct (f a) eqn:Hfa; simpl; rewrite ?Hfa, IH; reflexivity.
Qed.

Lemma filter_ext_on {A} (f g : A -> bool) (l : list A) :
  (forall a, In a l -> f a = g a) -> List.filter f l = List.filter g l.
Proof.
  induction l as [|a l IH]; simpl; intros H; [reflexivity|].
  rewrite (H a) by (left; reflexivity).
  rewrite IH by (intros b Hb; apply H; right; exact Hb).
  reflexivity.
Qed.

Lemma filter_length_le {A} (f : A -> bool) (l : list A) :
  (length (List.filter f l) <= length l)%nat.
Proof.
  induction l as [|a l IH]; simpl; [lia|].
  destruct (f a); simpl; lia.
Qed.

Lemma ltb_false_iff (a b : Q) : JS.ltb a b = false <-> (b <= a)%Q.
Proof.
  unfold JS.ltb. rewrite negb_false_iff. apply Qle_bool_iff.
Qed.

Lemma ltb_true_iff (a b : Q) : JS.ltb a b = true <-> (a < b)%Q.
Proof.
  unfold JS.ltb. rewrite negb_true_iff. split.
  - intros H. apply Qnot_le_lt. intros Hle.
    apply Qle_bool_iff in Hle. congruence.
  - intros H. destruct (Qle_bool b a) eqn:E; [|reflexivity].
    apply Qle_bool_iff in E. exfalso. exact (Qlt_not_le _ _ H E).
Qed.

Lemma clamp_bounds (n lo hi : Q) :
  (lo <= hi)%Q -> (lo <= clamp n lo hi)%Q /\ (clamp n lo hi <= hi)%Q.
Proof.
  intros Hlh. unfold clamp. split.
  - apply Q.le_max_l.
  - apply Q.max_lub; [exact Hlh | apply Q.le_min_l].
Qed.

Lemma max_of_lower (lo : Q) (xs : list Q) : (lo <= JS.max_of lo xs)%Q.
Proof.
  unfold JS.max_of. revert lo.
  induction xs as [|a xs IH]; intros lo; simpl; [apply Qle_refl|].
  eapply Qle_trans; [apply Q.le_max_l | apply IH].
Qed.

Lemma max_of_upper (lo : Q) (xs : list Q) (a : Q) :
  In a xs -> (a <= JS.max_of lo xs)%Q.
Proof.
  unfold JS.max_of. revert lo.
  induction xs as [|b xs IH]; intros lo; simpl; [intros []|].
  intros [->|Hin].
  - eapply Qle_trans; [apply Q.le_max_r | apply (max_of_lower _ xs)].
  - apply IH, Hin.
Qed.

Lemma max_of_attained (lo : Q) (xs : list Q) :
  JS.max_of lo xs == lo \/ exists a, In a xs /\ JS.max_of lo xs == a.
Proof.
  unfold JS.max_of. revert lo.
  induction xs as [|b xs IH]; intros lo; simpl; [left; reflexivity|].
  destruct (IH (Qmax lo b)) as [He | (a & Ha & He)].
  - destruct (Q.max_spec lo b) as [[_ Hm] | [_ Hm]].
    + right. exists b. split; [left; reflexivity|].
      rewrite He. exact Hm.
    + left. rewrite He. exact Hm.
  - right. exists a. split; [right; exact Ha | exact He].
Qed.

(** ** The filter pipeline *)

Lemma filteredNodeIds_fold (fl : list GraphLink) (s0 : gset string) (id : string) :
  id ∈ fold_left (fun s l => {[target l]} ∪ ({[source l]} ∪ s)) fl s0
  <-> id ∈ s0 \/ touches fl id.
Proof.
  revert s0. induction fl as [|l fl IH]; intros s0; simpl.
  - split; [intros H; left; exact H|].
    intros [H | (l & [] & _)]; exact H.
  - rewrite IH. unfold touches. split.
    + intros [H | (l' & Hin & Hl')].
      * apply elem_of_union in H as [H | H].
        { apply elem_of_singleton in H. right. exists l.
          split; [left; reflexivity | right; symmetry; exact H]. }
        apply elem_of_union in H as [H | H].
        { apply elem_of_singleton in H. right. exists l.
          split; [left; reflexivity | left; symmetry; exact H]. }
        left; exact H.
      * right. exists l'. split; [right; exact Hin | exact Hl'].
    + intros [H | (l' & [<- | Hin] & Hl')].
      * left. apply elem_of_union. right. apply elem_of_union. right. exact H.
      * left. apply elem_of_union.
        destruct Hl' as [<- | <-];
          [right; apply elem_of_union; left | left]; apply elem_of_singleton; reflexivity.
      * right. exists l'. split; assumption.
Qed.

Lemma filteredNodeIds_spec (fl : list GraphLink) (id : string) :
  id ∈ filteredNodeIds fl <-> touches fl id.
Proof.
  unfold filteredNodeIds. rewrite filteredNodeIds_fold.
  split; [intros [H | H]; [set_solver | exact H] | intros H; right; exact H].
Qed.

Lemma visibleDegree_pos (ls : list GraphLink) (id : string) :
  touches ls id <-> (1 <= visibleDegree ls id)%nat.
Proof.
  unfold touches, visibleDegree. split.
  - intros (l & Hin & Hl).
    destruct Hl as [Hs | Ht].
    + assert (Hf : In l (List.filter (fun l => String.eqb (source l) id) ls)).
      { apply filter_In. split; [exact Hin | apply String.eqb_eq, Hs]. }
      destruct (List.filter (fun l => String.eqb (source l) id) ls);
        [destruct Hf | simpl; lia].
    + assert (Hf : In l (List.filter (fun l => String.eqb (target l) id) ls)).
      { apply filter_In. split; [exact Hin | apply String.eqb_eq, Ht]. }
      destruct (List.filter (fun l => String.eqb (target l) id) ls) as [|? ?] eqn:E;
        [destruct Hf | simpl; lia].
  - intros H.
    destruct (List.filter (fun l => String.eqb (source l) id) ls) as [|l ?] eqn:Es.
    + destruct (List.filter (fun l => String.eqb (target l) id) ls) as [|l ?] eqn:Et;
        [simpl in H; lia|].
      assert (Hf : In l (List.filter (fun l => String.eqb (target l) id) ls))
        by (rewrite Et; left; reflexivity).
      apply filter_In in Hf as [Hin Hl]. exists l.
      split; [exact Hin | right; apply String.eqb_eq, Hl].
    + assert (Hf : In l (List.filter (fun l => String.eqb (source l) id) ls))
        by (rewrite Es; left; reflexivity).
      apply filter_In in Hf as [Hin Hl]. exists l.
      split; [exact Hin | left; apply String.eqb_eq, Hl].
Qed.

(** ** The degree object *)

Lemma degree_succ (k : nat) :
  (inject_Z (Z.of_nat k) + 1)%Q = inject_Z (Z.of_nat (S k)).
Proof.
  rewrite Nat2Z.inj_succ, <- Z.add_1_r, inject_Z_plus. reflexivity.
Qed.

Lemma getProp_increment (degree : gmap string Value) (k id : string) :
  inherited id = false ->
  getProp (increment degree k) id
  = if String.eqb k id then plusOne (orZero (getProp degree k)) else getProp degree id.
Proof.
  intros Hid. unfold increment. cbv zeta.
  destruct (String.eqb_spec k "__proto__") as [-> | Hk].
  - destruct (String.eqb_spec "__proto__" id) as [<- | _]; [|reflexivity].
    vm_compute in Hid. discriminate Hid.
  - unfold getProp at 1. destruct (String.eqb_spec k id) as [-> | Hne].
    + rewrite lookup_insert_eq. reflexivity.
    + rewrite lookup_insert_ne by exact Hne. reflexivity.
Qed.

Lemma plusOne_orZero_entry (k : nat) :
  plusOne (orZero (degreeEntry k)) = degreeEntry (S k).
Proof.
  destruct k as [|k]; [reflexivity|].
  unfold degreeEntry. cbn [Nat.eqb orZero].
  destruct (Z.eqb_spec (Z.of_nat (S k)) 0) as [E | _]; [lia|].
  cbn [plusOne]. f_equal. lia.
Qed.

Lemma visibleDegree_snoc (fl : list GraphLink) (l : GraphLink) (id : string) :
  visibleDegree (fl ++ [l]) id
  = (visibleDegree fl id
     + (if String.eqb (source l) id then 1 else 0)
     + (if String.eqb (target l) id then 1 else 0))%nat.
Proof.
  unfold visibleDegree. rewrite !List.filter_app, !length_app. simpl.
  destruct (String.eqb (source l) id), (String.eqb (target l) id); simpl; lia.
Qed.

(** For an id that is not the name of an inherited property, the object
    [degree] holds the number of edge ends at that id, and no entry when
    no edge touches it. *)
Lemma degreeOf_lookup (fl : list GraphLink) (id : string) :
  inherited id = false ->
  getProp (degreeOf fl) id = degreeEntry (visibleDegree fl id).
Proof.
  intros Hid. induction fl as [|l fl IH] using rev_ind.
  - unfold degreeOf, getProp. cbn [fold_left]. rewrite lookup_empty, Hid. reflexivity.
  - unfold degreeOf in *. rewrite fold_left_app. cbn [fold_left].
    rewrite visibleDegree_snoc.
    set (degree := fold_left degreeStep fl ∅) in *. unfold degreeStep.
    rewrite (getProp_increment _ (target l) id Hid).
    destruct (String.eqb_spec (target l) id) as [Ht | Ht].
    + rewrite Ht. rewrite (getProp_increment _ (source l) id Hid).
      destruct (String.eqb_spec (source l) id) as [Hs | Hs].
      * rewrite Hs, IH, !plusOne_orZero_entry. f_equal. lia.
      * rewrite IH, plusOne_orZero_entry. f_equal. lia.
    + rewrite (getProp_increment _ (source l) id Hid).
      destruct (String.eqb_spec (source l) id) as [Hs | Hs].
      * rewrite Hs, IH, plusOne_orZero_entry. f_equal. lia.
      * rewrite IH. f_equal. lia.
Qed.

Lemma degreeOf_orZero (fl : list GraphLink) (id : string) :
  inherited id = false ->
  orZero (getProp (degreeOf fl) id) = VNumber (Z.of_nat (visibleDegree fl id)).
Proof.
  intros Hid. rewrite (degreeOf_lookup fl id Hid). unfold degreeEntry.
  destruct (visibleDegree fl id) as [|k]; [reflexivity|].
  cbn [Nat.eqb orZero].
  destruct (Z.eqb_spec (Z.of_nat (S k)) 0) as [E | _]; [lia | reflexivity].
Qed.

(** For the name of an inherited property, [degree] never holds a
    number: it gives the inherited function or object, or the text made
    from it. *)
Lemma increment_inherited (degree : gmap string Value) (k : string) :
  (forall id, inherited id = true ->
     getProp degree id = VText \/ getProp degree id = VObject) ->
  forall id, inherited id = true ->
    getProp (increment degree k) id = VText \/ getProp (increment degree k) id = VObject.
Proof.
  intros Hinv id Hid. unfold increment. cbv zeta.
  destruct (String.eqb k "__proto__"); [exact (Hinv id Hid)|].
  destruct (String.eqb_spec k id) as [-> | Hne].
  - left. unfold getProp at 1. rewrite lookup_insert_eq.
    destruct (Hinv id Hid) as [-> | ->]; reflexivity.
  - unfold getProp at 1 3. rewrite lookup_insert_ne by exact Hne.
    exact (Hinv id Hid).
Qed.

Lemma degreeOf_inherited (fl : list GraphLink) (id : string) :
  inherited id = true ->
  getProp (degreeOf fl) id = VText \/ getProp (degreeOf fl) id = VObject.
Proof.
  revert id. induction fl as [|l fl IH] using rev_ind; intros id Hid.
  - right. unfold degreeOf, getProp. cbn [fold_left]. rewrite lookup_empty, Hid.
    reflexivity.
  - unfold degreeOf in *. rewrite fold_left_app. cbn [fold_left].
    set (degree := fold_left degreeStep fl ∅) in *. unfold degreeStep.
    apply increment_inherited; [|exact Hid].
    apply increment_inherited. exact IH.
Qed.

(** ** Claims about the filter pipeline *)

Lemma filteredLinks_idem (ls : list GraphLink) (p : FilterState) :
  filteredLinks (filteredLinks ls p) p = filteredLinks ls p.
Proof. apply filter_twice. Qed.

(** C5: the filter is idempotent: filtering the visible subgraph again
    with the same parameters gives the same edge sequence and the same
    node sequence. *)
Theorem filterGraph_idempotent (g : Graph) (p : FilterState) :
  filterGraph (filterGraph g p) p = filterGraph g p.
Proof.
  unfold filterGraph. cbn [links nodes].
  rewrite filteredLinks_idem. f_equal.
  unfold filteredNodes. destruct (showOnlyConnected p); cbn [negb].
  - apply filter_twice.
  - reflexivity.
Qed.

Lemma keepLink_minCount_antitone (p1 p2 : FilterState) (l : GraphLink) :
  sameExceptMinCount p1 p2 ->
  (minCount p1 <= minCount p2)%Q ->
  keepLink p2 l = true -> keepLink p1 l = true.
Proof.
  intros (Hc & Hd & Hm & _) Hle. unfold keepLink.
  rewrite Hc, Hd, Hm.
  destruct (match wanted (selectedMedal p2) with
            | Some w => JS.truthy w && negb (String.eqb (medal l) w)
            | None => false end); [discriminate|].
  destruct (JS.ltb (countOr1 l) (minCount p2)) eqn:E2; [discriminate|].
  apply ltb_false_iff in E2.
  assert (E1 : JS.ltb (countOr1 l) (minCount p1) = false).
  { apply ltb_false_iff. eapply Qle_trans; eassumption. }
  rewrite E1. tauto.
Qed.

(** C6: the visible edges are antitone in [minCount]: when two parameter
    values agree except on [minCount] and the first threshold is at most
    the second, every edge visible under the second is visible under the
    first (the second edge sequence is the first one filtered again), so
    the visible edge count does not increase. *)
Theorem minCount_antitone (g : Graph) (p1 p2 : FilterState) :
  sameExceptMinCount p1 p2 ->
  (minCount p1 <= minCount p2)%Q ->
  (forall l, In l (links (filterGraph g p2)) -> In l (links (filterGraph g p1)))
  /\ links (filterGraph g p2) = List.filter (keepLink p2) (links (filterGraph g p1))
  /\ (length (links (filterGraph g p2)) <= length (links (filterGraph g p1)))%nat.
Proof.
  intros Hsame Hle. cbn [filterGraph links]. unfold filteredLinks.
  assert (Heq : List.filter (keepLink p2) (links g)
                = List.filter (keepLink p2) (List.filter (keepLink p1) (links g))).
  { induction (links g) as [|l ls IH]; simpl; [reflexivity|].
    destruct (keepLink p2 l) eqn:E2.
    - rewrite (keepLink_minCount_antitone p1 p2 l Hsame Hle E2). simpl.
      rewrite E2, IH. reflexivity.
    - destruct (keepLink p1 l); simpl; rewrite ?E2; exact IH. }
  split; [|split].
  - intros l Hin. apply filter_In in Hin as [Hin Hk].
    apply filter_In. split; [exact Hin|].
    exact (keepLink_minCount_antitone p1 p2 l Hsame Hle Hk).
  - exact Heq.
  - rewrite Heq. apply filter_length_le.
Qed.

Lemma minCount_antitone_witness :
  (forall l, In l (links (filterGraph exampleGraph (exampleParams 2 true))) ->
             In l (links (filterGraph exampleGraph (exampleParams 1 true))))
  /\ links (filterGraph exampleGraph (exampleParams 2 true))
     = List.filter (keepLink (exampleParams 2 true))
         (links (filterGraph exampleGraph (exampleParams 1 true)))
  /\ (length (links (filterGraph exampleGraph (exampleParams 2 true)))
      <= length (links (filterGraph exampleGraph (exampleParams 1 true))))%nat.
Proof.
  apply (minCount_antitone exampleGraph (exampleParams 1 true) (exampleParams 2 true)).
  - repeat split.
  - unfold Qle. simpl. lia.
Defined.

(** C4: with [showOnlyConnected] set, the visible nodes are exactly the
    nodes of the graph that a visible edge touches, so each has degree at
    least one among the visible edges; with it cleared, the visible nodes
    are all the nodes of the graph. *)
Theorem hideDisconnected_node_set (g : Graph) (p : FilterState) :
  (showOnlyConnected p = true ->
     (forall n, In n (nodes (filterGraph g p)) <->
                In n (nodes g) /\ touches (links (filterGraph g p)) (node_id n))
     /\ (forall n, In n (nodes (filterGraph g p)) ->
           (1 <= visibleDegree (links (filterGraph g p)) (node_id n))%nat))
  /\ (showOnlyConnected p = false -> nodes (filterGraph g p) = nodes g).
Proof.
  cbn [filterGraph nodes links]. unfold filteredNodes. split; intros Hshow; rewrite Hshow; cbn [negb].
  - assert (Hmem : forall n,
      In n (List.filter (fun n => bool_decide (node_id n ∈ filteredNodeIds (filteredLinks (links g) p))) (nodes g))
      <-> In n (nodes g) /\ touches (filteredLinks (links g) p) (node_id n)).
    { intros n. rewrite filter_In, bool_decide_eq_true, filteredNodeIds_spec. reflexivity. }
    split; [exact Hmem|].
    intros n Hn. apply Hmem in Hn as [_ Ht].
    apply visibleDegree_pos in Ht. exact Ht.
  - reflexivity.
Qed.

Lemma hideDisconnected_node_set_witness :
  map node_id (nodes (filterGraph exampleGraph (exampleParams 2 true))) = ["A"; "X"]
  /\ (forall n, In n (nodes (filterGraph exampleGraph (exampleParams 2 true))) ->
        (1 <= visibleDegree (links (filterGraph exampleGraph (exampleParams 2 true))) (node_id n))%nat)
  /\ nodes (filterGraph exampleGraph (exampleParams 2 false)) = nodes exampleGraph.
Proof.
  split; [reflexivity | split].
  - intros n Hn.
    apply (proj1 (hideDisconnected_node_set exampleGraph (exampleParams 2 true)) eq_refl).
    exact Hn.
  - apply (proj2 (hideDisconnected_node_set exampleGraph (exampleParams 2 false)) eq_refl).
Defined.

(** ** Numbers: rounding gives no NaN, and [clamp] keeps its bounds *)

Lemma shr_1_nonneg (mrs : shr_record) :
  (0 <= shr_m mrs)%Z -> (0 <= shr_m (shr_1 mrs))%Z.
Proof.
  destruct mrs as [m r s0]. destruct m as [|[q|q|]|[q|q|]]; simpl; intros H; lia.
Qed.

Lemma iter_shr_1_nonneg (n : positive) (mrs : shr_record) :
  (0 <= shr_m mrs)%Z -> (0 <= shr_m (SpecFloat.iter_pos shr_1 n mrs))%Z.
Proof.
  revert mrs. induction n as [n IH | n IH |]; intros mrs H; simpl.
  - apply IH, IH, shr_1_nonneg, H.
  - apply IH, IH, H.
  - apply shr_1_nonneg, H.
Qed.

Lemma shr_fexp_nonneg (m e : Z) (l : location) :
  (0 <= m)%Z -> (0 <= shr_m (fst (shr_fexp Num.prec Num.emax m e l)))%Z.
Proof.
  intros H. unfold shr_fexp, shr.
  assert (Hm : shr_m (shr_record_of_loc m l) = m) by (destruct l as [|[]]; reflexivity).
  destruct (fexp Num.prec Num.emax (Zdigits2 m + e) - e)%Z; cbn [fst];
    [rewrite Hm; exact H | | rewrite Hm; exact H].
  apply iter_shr_1_nonneg. rewrite Hm. exact H.
Qed.

Lemma round_nearest_even_nonneg (m : Z) (l : location) :
  (0 <= m)%Z -> (0 <= round_nearest_even m l)%Z.
Proof.
  intros H. destruct l as [|[]]; simpl; try exact H; [|lia].
  destruct (Z.even m); lia.
Qed.

Lemma binary_round_aux_number (s : bool) (m e : Z) (l : location) :
  (0 <= m)%Z -> Num.isNaN (binary_round_aux Num.prec Num.emax s m e l) = false.
Proof.
  intros H. unfold binary_round_aux.
  pose proof (shr_fexp_nonneg m e l H) as H1.
  destruct (shr_fexp Num.prec Num.emax m e l) as [mrs1 e1]. cbn [fst] in H1.
  pose proof (shr_fexp_nonneg _ e1 loc_Exact
                (round_nearest_even_nonneg _ (loc_of_shr_record mrs1) H1)) as H2.
  destruct (shr_fexp Num.prec Num.emax
              (round_nearest_even (shr_m mrs1) (loc_of_shr_record mrs1)) e1 loc_Exact)
    as [mrs2 e2].
  cbn [fst] in H2. destruct (shr_m mrs2) as [|q|q]; [reflexivity | | lia].
  destruct (e2 <=? Num.emax - Num.prec)%Z; reflexivity.
Qed.

Lemma binary_normalize_number (m e : Z) (szero : bool) :
  Num.isNaN (binary_normalize Num.prec Num.emax m e szero) = false.
Proof.
  destruct m as [|q|q]; [reflexivity | |];
    unfold binary_normalize, binary_round;
    destruct (shl_align q e (fexp Num.prec Num.emax (Z.pos (digits2_pos q) + e)));
    apply binary_round_aux_number; lia.
Qed.

Lemma ofZ_number (z : Z) : Num.isNaN (Num.ofZ z) = false.
Proof. apply binary_normalize_number. Qed.

Lemma mul_number (x : Num.number) (s : bool) (m : positive) (e : Z) :
  Num.isNaN x = false -> Num.isNaN (Num.mul x (S754_finite s m e)) = false.
Proof.
  intros Hx. destruct x as [sx | sx | | sx mx ex]; try reflexivity; [discriminate Hx|].
  unfold Num.mul, SFmul. apply binary_round_aux_number. lia.
Qed.

Lemma add_number (s : bool) (m : positive) (e : Z) (y : Num.number) :
  Num.isNaN y = false -> Num.isNaN (Num.add (S754_finite s m e) y) = false.
Proof.
  intros Hy. destruct y as [sy | sy | | sy my ey]; try reflexivity; [discriminate Hy|].
  unfold Num.add, SFadd. apply binary_normalize_number.
Qed.

Lemma SFcompare_antisym (x y : Num.number) :
  SFcompare y x = option_map CompOpp (SFcompare x y).
Proof.
  destruct x as [sx | sx | | sx mx ex], y as [sy | sy | | sy my ey];
    try reflexivity; try (destruct sx; reflexivity); try (destruct sy; reflexivity);
    try (destruct sx, sy; reflexivity).
  pose proof (Pos.compare_cont_antisym mx my Eq) as Hm. cbn [CompOpp] in Hm.
  destruct sx, sy; try reflexivity; cbn [SFcompare option_map];
    rewrite (Z.compare_antisym ex ey); destruct (ex ?= ey)%Z; cbn [CompOpp];
    try reflexivity; rewrite <- Hm;
    destruct (Pos.compare_cont Eq mx my); reflexivity.
Qed.

Lemma SFcompare_refl (x : Num.number) :
  Num.isNaN x = false -> SFcompare x x = Some Eq.
Proof.
  intros Hx. destruct x as [sx | sx | | sx mx ex]; try reflexivity;
    [destruct sx; reflexivity | discriminate Hx |].
  destruct sx; cbn [SFcompare]; rewrite Z.compare_refl, Pos.compare_cont_refl; reflexivity.
Qed.

Lemma SFcompare_numbers (x y : Num.number) :
  Num.isNaN x = false -> Num.isNaN y = false -> exists c, SFcompare x y = Some c.
Proof.
  intros Hx Hy.
  destruct x as [sx | sx | | sx mx ex], y as [sy | sy | | sy my ey];
    try discriminate Hx; try discriminate Hy; eexists; reflexivity.
Qed.

Lemma leb_refl (x : Num.number) : Num.isNaN x = false -> Num.leb x x = true.
Proof. intros Hx. unfold Num.leb, SFleb. rewrite (SFcompare_refl x Hx). reflexivity. Qed.

(** Of two numbers, [Math.min] returns one that is at most the other,
    and [Math.max] one that is at least the other. *)
Lemma min_spec (a b : Num.number) :
  Num.isNaN a = false -> Num.isNaN b = false ->
  (Num.min a b = a /\ Num.leb a b = true) \/ (Num.min a b = b /\ Num.leb b a = true).
Proof.
  intros Ha Hb. unfold Num.min, Num.leb, SFltb, SFleb. rewrite Ha, Hb. cbn [orb].
  rewrite (SFcompare_antisym a b).
  destruct (SFcompare_numbers a b Ha Hb) as [c ->]. cbn [option_map].
  destruct c; cbn [CompOpp].
  - destruct (Num.isNegZero a); [left | right]; split; reflexivity.
  - left. split; reflexivity.
  - right. split; reflexivity.
Qed.

Lemma max_spec (a b : Num.number) :
  Num.isNaN a = false -> Num.isNaN b = false ->
  (Num.max a b = a /\ Num.leb b a = true) \/ (Num.max a b = b /\ Num.leb a b = true).
Proof.
  intros Ha Hb. unfold Num.max, Num.leb, SFltb, SFleb. rewrite Ha, Hb. cbn [orb].
  rewrite (SFcompare_antisym a b).
  destruct (SFcompare_numbers a b Ha Hb) as [c ->]. cbn [option_map].
  destruct c; cbn [CompOpp].
  - destruct (Num.isNegZero a); [right | left]; split; reflexivity.
  - right. split; reflexivity.
  - left. split; reflexivity.
Qed.

(** [clamp] of a number between two ordered numbers is a number between
    them; [clamp] of NaN is NaN. *)
Lemma clamp_number (n lo hi : Num.number) :
  Num.isNaN n = false -> Num.isNaN lo = false -> Num.isNaN hi = false ->
  Num.leb lo hi = true ->
  Num.isNaN (Num.clamp n lo hi) = false
  /\ Num.leb lo (Num.clamp n lo hi) = true
  /\ Num.leb (Num.clamp n lo hi) hi = true.
Proof.
  intros Hn Hlo Hhi Hle. unfold Num.clamp.
  assert (Hmin : Num.isNaN (Num.min hi n) = false /\ Num.leb (Num.min hi n) hi = true).
  { destruct (min_spec hi n Hhi Hn) as [[-> _] | [-> H]].
    - split; [exact Hhi | apply leb_refl, Hhi].
    - split; [exact Hn | exact H]. }
  destruct Hmin as [Hm Hmle].
  destruct (max_spec lo (Num.min hi n) Hlo Hm) as [[-> _] | [-> H]].
  - split; [exact Hlo|]. split; [apply leb_refl, Hlo | exact Hle].
  - split; [exact Hm|]. split; [exact H | exact Hmle].
Qed.

Lemma clamp_NaN (lo hi : Num.number) : Num.clamp Num.NaN lo hi = Num.NaN.
Proof.
  unfold Num.clamp, Num.max, Num.min. cbn [Num.isNaN Num.NaN].
  rewrite !orb_true_r. reflexivity.
Qed.

(** ** Claims about the radii and the count threshold *)

Lemma radius_constants (t : NodeType) :
  (exists m e, radiusBase t = S754_finite false m e)
  /\ (exists m e, radiusSlope t = S754_finite false m e)
  /\ Num.isNaN (radiusMin t) = false /\ Num.isNaN (radiusMax t) = false
  /\ Num.leb (radiusMin t) (radiusMax t) = true.
Proof.
  destruct t; (split; [eexists; eexists; vm_compute; reflexivity|]);
    (split; [eexists; eexists; vm_compute; reflexivity|]); repeat split.
Qed.

(** The clamped affine radius of the specification is a number between
    the bounds of the category, for every degree. *)
Lemma clampedAffine_number (t : NodeType) (k : nat) :
  Num.isNaN (clampedAffine t k) = false
  /\ Num.leb (radiusMin t) (clampedAffine t k) = true
  /\ Num.leb (clampedAffine t k) (radiusMax t) = true.
Proof.
  destruct (radius_constants t) as ((mb & eb & Hb) & (ms & es & Hs) & Hlo & Hhi & Hle).
  unfold clampedAffine. apply clamp_number; [|exact Hlo | exact Hhi | exact Hle].
  rewrite Hb, Hs. apply add_number, mul_number, ofZ_number.
Qed.

Lemma nodeRadius_clampedAffine (fl : list GraphLink) (d : GraphNode) :
  inherited (node_id d) = false ->
  nodeRadius (degreeOf fl) d
  = clampedAffine (node_type d) (visibleDegree fl (node_id d)).
Proof.
  intros Hid. unfold nodeRadius, clampedAffine, rCountry, rDiscipline.
  rewrite (degreeOf_orZero fl _ Hid). destruct (node_type d); reflexivity.
Qed.

Lemma nodeRadius_NaN (fl : list GraphLink) (d : GraphNode) :
  inherited (node_id d) = true ->
  nodeRadius (degreeOf fl) d = Num.NaN.
Proof.
  intros Hid. unfold nodeRadius, rCountry, rDiscipline.
  assert (Hv : toNumber (orZero (getProp (degreeOf fl) (node_id d))) = Num.NaN)
    by (destruct (degreeOf_inherited fl _ Hid) as [-> | ->]; reflexivity).
  rewrite Hv. destruct (node_type d); apply clamp_NaN.
Qed.

(** C7: the radius of a node whose id is the name of a property that
    every object inherits ([constructor], [toString], ...) is NaN, and
    so is its collision radius, whatever the edges are: [degree[id]]
    finds the inherited function instead of a count.  The clamped affine
    function of the degree is a number between the bounds of the
    category, so the radius differs from it. *)
Theorem radius_NaN_for_inherited_id (g : Graph) (p : FilterState) (d : GraphNode) :
  inherited (node_id d) = true ->
  let fl := links (filterGraph g p) in
  nodeRadius (degreeOf fl) d = Num.NaN
  /\ collideRadius (degreeOf fl) d = Num.NaN
  /\ nodeRadius (degreeOf fl) d
     <> clampedAffine (node_type d) (visibleDegree fl (node_id d)).
Proof.
  intros Hid fl. pose proof (nodeRadius_NaN fl d Hid) as Hr.
  split; [exact Hr|]. split.
  - unfold collideRadius. rewrite Hr. reflexivity.
  - rewrite Hr. intros He.
    destruct (clampedAffine_number (node_type d) (visibleDegree fl (node_id d)))
      as (Hn & _).
    rewrite <- He in Hn. discriminate Hn.
Qed.

Lemma radius_NaN_for_inherited_id_witness :
  let g := build inheritedNameRecords in
  let p := exampleParams 1 true in
  let d := countryNode "constructor" in
  In d (nodes (filterGraph g p))
  /\ visibleDegree (links (filterGraph g p)) (node_id d) = 1%nat
  /\ nodeRadius (degreeOf (links (filterGraph g p))) d = Num.NaN
  /\ collideRadius (degreeOf (links (filterGraph g p))) d = Num.NaN.
Proof.
  cbv zeta. split; [left; reflexivity|]. split; [reflexivity|].
  destruct (radius_NaN_for_inherited_id (build inheritedNameRecords) (exampleParams 1 true)
              (countryNode "constructor") eq_refl) as (Hr & Hc & _).
  split; [exact Hr | exact Hc].
Defined.

Lemma clamp_low (n lo hi : Q) :
  (lo <= hi)%Q -> (n <= lo)%Q -> clamp n lo hi == lo.
Proof.
  intros Hlh Hn. unfold clamp. apply Q.max_l.
  eapply Qle_trans; [apply Q.le_min_r | exact Hn].
Qed.

Lemma clamp_high (n lo hi : Q) :
  (lo <= hi)%Q -> (hi <= n)%Q -> clamp n lo hi == hi.
Proof.
  intros Hlh Hn. unfold clamp. rewrite (Q.min_l hi n Hn). apply Q.max_r, Hlh.
Qed.

Lemma clamp_mid (n lo hi : Q) :
  (lo <= n)%Q -> (n <= hi)%Q -> clamp n lo hi == n.
Proof.
  intros Hl Hh. unfold clamp. rewrite (Q.min_r hi n Hh). apply Q.max_r, Hl.
Qed.

(** C10: the effect on [links] clamps [minCount] into the range from 1
    to the largest count of the links and changes nothing else.  After
    it, [minCount] lies between 1 and the largest count, whatever it was
    before: a value within the range is kept, a value below 1 becomes 1
    and a value above the largest count becomes the largest count.  The
    largest count is at least 1, bounds every link's count, and is 1 or
    the count of some link. *)
Theorem minCount_reclamped (ls : list GraphLink) (p : FilterState) :
  (1 <= maxCount ls)%Q
  /\ (1 <= minCount (onLinksChange ls p))%Q
  /\ (minCount (onLinksChange ls p) <= maxCount ls)%Q
  /\ (forall l, In l ls -> (countOr1 l <= maxCount ls)%Q)
  /\ (maxCount ls == 1 \/ exists l, In l ls /\ maxCount ls == countOr1 l)
  /\ ((1 <= minCount p)%Q -> (minCount p <= maxCount ls)%Q ->
      minCount (onLinksChange ls p) == minCount p)
  /\ ((minCount p <= 1)%Q -> minCount (onLinksChange ls p) == 1)
  /\ ((maxCount ls <= minCount p)%Q -> minCount (onLinksChange ls p) == maxCount ls)
  /\ selectedCountry (onLinksChange ls p) = selectedCountry p
  /\ selectedDiscipline (onLinksChange ls p) = selectedDiscipline p
  /\ selectedMedal (onLinksChange ls p) = selectedMedal p
  /\ showOnlyConnected (onLinksChange ls p) = showOnlyConnected p.
Proof.
  assert (H1 : (1 <= maxCount ls)%Q) by apply max_of_lower.
  split; [exact H1|].
  split; [apply clamp_bounds, H1|].
  split; [apply clamp_bounds, H1|].
  split; [intros l Hl; apply max_of_upper, in_map, Hl|].
  split.
  { destruct (max_of_attained 1 (map countOr1 ls)) as [He | (a & Ha & He)].
    - left. exact He.
    - right. apply in_map_iff in Ha as (l & <- & Hl).
      exists l. split; [exact Hl | exact He]. }
  cbn [onLinksChange minCount selectedCountry selectedDiscipline selectedMedal
       showOnlyConnected].
  split; [intros Hlo Hhi; apply clamp_mid; assumption|].
  split; [intros Hlo; apply clamp_low; assumption|].
  split; [intros Hhi; apply clamp_high; assumption|].
  repeat split.
Qed.

(** ** Sets in insertion order *)

Section SetFrom.
Context {A : Type} `{EqDecision A}.

Lemma set_add_elem (seen : list A) (a x : A) :
  x ∈ JS.set_add seen a <-> x ∈ seen \/ x = a.
Proof.
  unfold JS.set_add. case_bool_decide as Ha.
  - split; [intros Hx; left; exact Hx|].
    intros [Hx | ->]; assumption.
  - rewrite elem_of_app, list_elem_of_singleton. reflexivity.
Qed.

Lemma set_add_NoDup (seen : list A) (a : A) :
  NoDup seen -> NoDup (JS.set_add seen a).
Proof.
  intros Hnd. unfold JS.set_add. case_bool_decide as Ha; [exact Hnd|].
  apply NoDup_app. split; [exact Hnd|]. split.
  - intros x Hx Hx'. apply list_elem_of_singleton in Hx'. subst x. exact (Ha Hx).
  - apply NoDup_singleton.
Qed.

Lemma set_fold_elem (l seen : list A) (x : A) :
  x ∈ fold_left JS.set_add l seen <-> x ∈ seen \/ x ∈ l.
Proof.
  revert seen. induction l as [|a l IH]; intros seen; simpl.
  - split; [intros Hx; left; exact Hx|].
    intros [Hx | Hx]; [exact Hx | inversion Hx].
  - rewrite IH, set_add_elem, elem_of_cons. tauto.
Qed.

Lemma set_fold_NoDup (l seen : list A) :
  NoDup seen -> NoDup (fold_left JS.set_add l seen).
Proof.
  revert seen. induction l as [|a l IH]; intros seen Hnd; simpl; [exact Hnd|].
  apply IH, set_add_NoDup, Hnd.
Qed.

Lemma set_from_elem (l : list A) (x : A) : x ∈ JS.set_from l <-> x ∈ l.
Proof.
  unfold JS.set_from. rewrite set_fold_elem. split; [|intros Hx; right; exact Hx].
  intros [Hx | Hx]; [inversion Hx | exact Hx].
Qed.

Lemma set_from_NoDup (l : list A) : NoDup (JS.set_from l).
Proof. apply set_fold_NoDup, NoDup_nil_2. Qed.

Lemma set_from_nil_iff (l : list A) : JS.set_from l = [] <-> l = [].
Proof.
  split; [|intros ->; reflexivity].
  intros Hs. destruct l as [|a l]; [reflexivity|].
  assert (Ha : a ∈ JS.set_from (a :: l)) by (apply set_from_elem; left).
  rewrite Hs in Ha. inversion Ha.
Qed.

Lemma set_from_snoc (l : list A) (a : A) :
  JS.set_from (l ++ [a]) = JS.set_add (JS.set_from l) a.
Proof. unfold JS.set_from. rewrite fold_left_app. reflexivity. Qed.

End SetFrom.

(** A function that is injective on the values met commutes with the
    construction of the set. *)
Lemma set_from_map {A B} `{EqDecision A} `{EqDecision B} (f : A -> B) (l : list A) :
  (forall a b, a ∈ l -> b ∈ l -> f a = f b -> a = b) ->
  JS.set_from (map f l) = map f (JS.set_from l).
Proof.
  induction l as [|a l IH] using rev_ind; intros Hinj; [reflexivity|].
  rewrite map_app. simpl. rewrite !set_from_snoc, IH.
  2:{ intros x z Hx Hz. apply Hinj; apply elem_of_app; left; assumption. }
  unfold JS.set_add. case_bool_decide as Hfa; case_bool_decide as Ha.
  - reflexivity.
  - exfalso. apply Ha.
    apply list_elem_of_fmap in Hfa as (b & Hfb & Hb).
    rewrite set_from_elem in Hb.
    assert (a = b) as ->.
    { apply Hinj; [apply elem_of_app; right; left | apply elem_of_app; left; exact Hb | exact Hfb]. }
    apply set_from_elem, Hb.
  - exfalso. apply Hfa. apply list_elem_of_fmap. exists a. split; [reflexivity | exact Ha].
  - rewrite map_app. reflexivity.
Qed.

(** ** Splitting a key *)

Lemma split_length_pos (sep : ascii) (s : string) :
  (1 <= length (JS.split sep s))%nat.
Proof.
  induction s as [|c s IH]; simpl; [lia|].
  destruct (Ascii.eqb c sep); simpl; [lia|].
  destruct (JS.split sep s); simpl in *; lia.
Qed.

Lemma split_length_sep (sep : ascii) (a b : string) :
  length (JS.split sep (a +:+ String sep b))
  = (length (JS.split sep a) + length (JS.split sep b))%nat.
Proof.
  induction a as [|c a IH]; simpl.
  - rewrite Ascii.eqb_refl. reflexivity.
  - destruct (Ascii.eqb c sep); simpl; [rewrite IH; reflexivity|].
    pose proof (split_length_pos sep a) as Ha.
    pose proof (split_length_pos sep (a +:+ String sep b)) as Hab.
    destruct (JS.split sep a), (JS.split sep (a +:+ String sep b));
      simpl in *; lia.
Qed.

(** The array that [toLink] destructures has at least three elements,
    whatever the fields of the record hold. *)
Lemma split_linkKey_length (m : Medal) :
  (3 <= length (JS.split pipe (linkKey m)))%nat.
Proof.
  unfold linkKey.
  change ("|" +:+ discipline m +:+ "|" +:+ medal_type m)
    with (String pipe (discipline m +:+ String pipe (medal_type m))).
  rewrite !split_length_sep.
  pose proof (split_length_pos pipe (country m)).
  pose proof (split_length_pos pipe (discipline m)).
  pose proof (split_length_pos pipe (medal_type m)).
  lia.
Qed.

Lemma split_noPipe_sep (c rest : string) :
  noPipe c = true ->
  JS.split pipe (c +:+ String pipe rest) = c :: JS.split pipe rest.
Proof.
  induction c as [|a c IH]; simpl; intros Hc.
  - reflexivity.
  - apply andb_true_iff in Hc as [Ha Hc]. apply negb_true_iff in Ha.
    rewrite Ha, (IH Hc). reflexivity.
Qed.

Lemma split_noPipe (s : string) : noPipe s = true -> JS.split pipe s = [s].
Proof.
  induction s as [|a s IH]; simpl; intros Hs; [reflexivity|].
  apply andb_true_iff in Hs as [Ha Hs]. apply negb_true_iff in Ha.
  rewrite Ha, (IH Hs). reflexivity.
Qed.

Lemma split_linkKey (m : Medal) :
  noPipe (country m) = true -> noPipe (discipline m) = true ->
  JS.split pipe (linkKey m)
  = country m :: discipline m :: JS.split pipe (medal_type m).
Proof.
  intros Hc Hd. unfold linkKey.
  change ("|" +:+ discipline m +:+ "|" +:+ medal_type m)
    with (String pipe (discipline m +:+ String pipe (medal_type m))).
  rewrite (split_noPipe_sep _ _ Hc), (split_noPipe_sep _ _ Hd). reflexivity.
Qed.

(** On records without the separator in their fields the key determines
    the triple. *)
Lemma linkKey_inj (m1 m2 : Medal) :
  noPipe (country m1) = true -> noPipe (discipline m1) = true ->
  noPipe (medal_type m1) = true ->
  noPipe (country m2) = true -> noPipe (discipline m2) = true ->
  noPipe (medal_type m2) = true ->
  linkKey m1 = linkKey m2 -> triple m1 = triple m2.
Proof.
  intros Hc1 Hd1 Ht1 Hc2 Hd2 Ht2 Hk.
  apply (f_equal (JS.split pipe)) in Hk.
  rewrite (split_linkKey m1 Hc1 Hd1), (split_linkKey m2 Hc2 Hd2) in Hk.
  rewrite (split_noPipe _ Ht1), (split_noPipe _ Ht2) in Hk.
  unfold triple. congruence.
Qed.

Lemma triple_linkKey (m1 m2 : Medal) : triple m1 = triple m2 -> linkKey m1 = linkKey m2.
Proof. unfold triple, linkKey. intros H. injection H as -> -> ->. reflexivity. Qed.

(** ** The content of [linkMap] *)

Lemma lm_get_map (g : string -> LinkAgg) (keys : list string) (k : string) :
  lm_get k (map (fun k' => (k', g k')) keys)
  = if bool_decide (k ∈ keys) then Some (g k) else None.
Proof.
  induction keys as [|k' keys IH]; simpl; [reflexivity|].
  destruct (String.eqb_spec k k') as [-> | Hne].
  - rewrite bool_decide_eq_true_2 by left. reflexivity.
  - rewrite IH. do 2 case_bool_decide; try reflexivity.
    + exfalso. apply H0. right. exact H.
    + exfalso. apply elem_of_cons in H0 as [? | ?]; [exact (Hne H0) | exact (H H0)].
Qed.

Lemma lm_update_map (g : string -> LinkAgg) (f : LinkAgg -> LinkAgg)
    (keys : list string) (k : string) :
  NoDup keys ->
  lm_update k f (map (fun k' => (k', g k')) keys)
  = map (fun k' => (k', if String.eqb k k' then f (g k') else g k')) keys.
Proof.
  induction keys as [|k' keys IH]; simpl; intros Hnd; [reflexivity|].
  apply NoDup_cons in Hnd as [Hk' Hnd].
  destruct (String.eqb_spec k k') as [-> | Hne].
  - f_equal. apply map_ext_in. intros k Hk.
    destruct (String.eqb_spec k' k) as [-> | _]; [|reflexivity].
    exfalso. apply Hk', list_elem_of_In, Hk.
  - rewrite (IH Hnd). reflexivity.
Qed.

Lemma keyGroup_snoc (ms : list Medal) (m : Medal) (k : string) :
  keyGroup (ms ++ [m]) k
  = keyGroup ms k ++ (if String.eqb (linkKey m) k then [m] else []).
Proof. unfold keyGroup. rewrite List.filter_app. reflexivity. Qed.

Lemma keyGroup_nonempty (ms : list Medal) (k : string) :
  k ∈ map linkKey ms -> keyGroup ms k <> [].
Proof.
  intros Hk. apply list_elem_of_fmap in Hk as (m & -> & Hm).
  assert (Hin : In m (keyGroup ms (linkKey m))).
  { apply filter_In. split; [apply list_elem_of_In, Hm | apply String.eqb_refl]. }
  intros He. rewrite He in Hin. destruct Hin.
Qed.

Lemma keyGroup_empty (ms : list Medal) (k : string) :
  k ∉ map linkKey ms -> keyGroup ms k = [].
Proof.
  intros Hk. unfold keyGroup.
  induction ms as [|m ms IH]; simpl; [reflexivity|].
  destruct (String.eqb_spec (linkKey m) k) as [He | _].
  - exfalso. apply Hk. simpl. rewrite He. left.
  - apply IH. intros H. apply Hk. simpl. right. exact H.
Qed.

Lemma aggOf_snoc (grp : list Medal) (m : Medal) :
  grp <> [] ->
  aggOf (grp ++ [m])
  = {| agg_count := (agg_count (aggOf grp) + 1)%Q;
       agg_athlete := agg_athlete (aggOf grp) ++ [name m];
       agg_event := agg_event (aggOf grp) ++ [event m];
       agg_medal := agg_medal (aggOf grp) |}.
Proof.
  intros Hne. unfold aggOf. cbn [agg_count agg_athlete agg_event agg_medal].
  rewrite length_app, !map_app. simpl.
  rewrite degree_succ, Nat.add_1_r.
  destruct grp as [|m0 grp]; [contradiction|]. reflexivity.
Qed.

(** [linkMap] holds one entry per key, in the order in which the keys
    first occur, and the entry of a key aggregates the records with that
    key in input order. *)
Lemma linkMapOf_groups (ms : list Medal) :
  linkMapOf ms
  = map (fun k => (k, aggOf (keyGroup ms k))) (JS.set_from (map linkKey ms)).
Proof.
  induction ms as [|m ms IH] using rev_ind; [reflexivity|].
  unfold linkMapOf in *. rewrite fold_left_app. simpl.
  rewrite map_app. simpl. rewrite set_from_snoc, IH.
  unfold accumulate. rewrite lm_get_map. unfold JS.set_add.
  case_bool_decide as Hk.
  - rewrite lm_update_map by apply set_from_NoDup.
    apply map_ext_in. intros k Hin. f_equal.
    rewrite keyGroup_snoc.
    destruct (String.eqb_spec (linkKey m) k) as [_ | Hne].
    + rewrite aggOf_snoc; [reflexivity|].
      apply keyGroup_nonempty. apply list_elem_of_In in Hin.
      rewrite set_from_elem in Hin. exact Hin.
    + rewrite app_nil_r. reflexivity.
  - rewrite map_app. simpl. f_equal.
    + apply map_ext_in. intros k Hin. f_equal.
      rewrite keyGroup_snoc.
      destruct (String.eqb_spec (linkKey m) k) as [<- | Hne].
      * exfalso. apply Hk, list_elem_of_In, Hin.
      * rewrite app_nil_r. reflexivity.
    + rewrite keyGroup_snoc, String.eqb_refl.
      rewrite keyGroup_empty; [reflexivity|].
      rewrite set_from_elem in Hk. exact Hk.
Qed.

(** ** The graph model builder *)

Lemma build_spec_example :
  build exampleRecords
  = {| nodes := [countryNode "A"; countryNode "B"; disciplineNode "X"];
       links := [ {| source := "A"; target := "X"; medal := "win";
                     athlete := Some "a1, a2"; link_event := Some "e1, e2";
                     count := Some (inject_Z 2) |};
                  {| source := "B"; target := "X"; medal := "loss";
                     athlete := Some "b1"; link_event := Some "e3";
                     count := Some (inject_Z 1) |} ] |}.
Proof. reflexivity. Qed.

(** The edges of [build] are the groups of records with the same key, in
    the order in which the keys first occur. *)
Lemma build_groups_by_key (ms : list Medal) :
  links (build ms)
  = map (fun k => toLink (k, aggOf (keyGroup ms k))) (JS.set_from (map linkKey ms)).
Proof.
  cbn [build links]. rewrite linkMapOf_groups, map_map. reflexivity.
Qed.

Lemma keyOfTriple_triple (m : Medal) : keyOfTriple (triple m) = linkKey m.
Proof. reflexivity. Qed.

Lemma keyGroup_tripleGroup (ms : list Medal) (m : Medal) :
  pipeFree ms -> In m ms ->
  keyGroup ms (linkKey m) = tripleGroup ms (triple m).
Proof.
  intros Hfree Hm. apply filter_ext_on. intros m' Hm'.
  destruct (Hfree m Hm) as (Hc & Hd & Ht).
  destruct (Hfree m' Hm') as (Hc' & Hd' & Ht').
  destruct (String.eqb_spec (linkKey m') (linkKey m)) as [He | Hne].
  - symmetry. apply bool_decide_eq_true. apply linkKey_inj; assumption.
  - symmetry. apply bool_decide_eq_false. intros He.
    apply Hne, triple_linkKey, He.
Qed.

Lemma toLink_edgeOf (m : Medal) (grp : list Medal) :
  noPipe (country m) = true -> noPipe (discipline m) = true ->
  noPipe (medal_type m) = true ->
  toLink (linkKey m, aggOf grp) = edgeOf (triple m) grp.
Proof.
  intros Hc Hd Ht. unfold toLink, edgeOf. cbn [fst snd].
  rewrite (split_linkKey m Hc Hd), (split_noPipe _ Ht). reflexivity.
Qed.

(** On records without the separator in their grouping fields, [build]
    groups by the triple: one edge per triple, in the order in which the
    triples first occur, with the size of the group as weight and the
    names and events of its members, in input order, joined by a comma. *)
Lemma build_groups_by_triple (ms : list Medal) :
  pipeFree ms ->
  links (build ms)
  = map (fun t => edgeOf t (tripleGroup ms t)) (JS.set_from (map triple ms)).
Proof.
  intros Hfree. rewrite build_groups_by_key.
  assert (Hkeys : map linkKey ms = map keyOfTriple (map triple ms)).
  { rewrite map_map. reflexivity. }
  rewrite Hkeys, set_from_map.
  - rewrite map_map. apply map_ext_in. intros t Ht.
    apply list_elem_of_In in Ht. rewrite set_from_elem in Ht.
    apply list_elem_of_fmap in Ht as (m & -> & Hm).
    apply list_elem_of_In in Hm.
    destruct (Hfree m Hm) as (Hc & Hd & Hmt).
    rewrite keyOfTriple_triple, (keyGroup_tripleGroup ms m Hfree Hm).
    apply toLink_edgeOf; assumption.
  - intros t1 t2 Ht1 Ht2 Hk.
    apply list_elem_of_fmap in Ht1 as (m1 & -> & Hm1).
    apply list_elem_of_fmap in Ht2 as (m2 & -> & Hm2).
    apply list_elem_of_In in Hm1, Hm2.
    destruct (Hfree m1 Hm1) as (? & ? & ?).
    destruct (Hfree m2 Hm2) as (? & ? & ?).
    apply linkKey_inj; assumption.
Qed.

(** C1 at two records whose triples differ and whose keys collide: the
    claim asks for two edges of weight 1 that carry the two triples; the
    builder emits one edge of weight 2 whose source, target and label are
    the first three pieces of the shared key. *)
Lemma build_merges_colliding_keys :
  map triple collidingRecords
    = [("A|B", "C", "Gold Medal"); ("A", "B|C", "Gold Medal")]
  /\ map linkKey collidingRecords = ["A|B|C|Gold Medal"; "A|B|C|Gold Medal"]
  /\ links (build collidingRecords)
     = [ {| source := "A"; target := "B"; medal := "C";
            athlete := Some "n1, n2"; link_event := Some "e1, e2";
            count := Some (inject_Z 2) |} ]
  /\ map node_id (nodes (build collidingRecords)) = ["A|B"; "A"; "C"; "B|C"].
Proof.
  split; [reflexivity|]. split; [reflexivity|]. split; reflexivity.
Qed.

(** ** Nodes of the built graph *)

Lemma filter_ofType_same (t : NodeType) (ids : list string) :
  List.filter (ofType t) (map (fun c => {| node_id := c; node_type := t |}) ids)
  = map (fun c => {| node_id := c; node_type := t |}) ids.
Proof.
  induction ids as [|c ids IH]; simpl; [reflexivity|].
  unfold ofType at 1. cbn [node_type].
  rewrite bool_decide_eq_true_2 by reflexivity. rewrite IH. reflexivity.
Qed.

Lemma filter_ofType_other (t t' : NodeType) (ids : list string) :
  t' <> t ->
  List.filter (ofType t) (map (fun c => {| node_id := c; node_type := t' |}) ids) = [].
Proof.
  intros Hne. induction ids as [|c ids IH]; simpl; [reflexivity|].
  unfold ofType at 1. cbn [node_type].
  rewrite bool_decide_eq_false_2 by exact Hne. exact IH.
Qed.

Lemma build_country_nodes (ms : list Medal) :
  map node_id (List.filter (ofType country_t) (nodes (build ms))) = countries ms.
Proof.
  cbn [build nodes]. rewrite List.filter_app, filter_ofType_same.
  rewrite (filter_ofType_other country_t discipline_t) by discriminate.
  rewrite app_nil_r, map_map. cbn [node_id]. apply map_id.
Qed.

Lemma build_discipline_nodes (ms : list Medal) :
  map node_id (List.filter (ofType discipline_t) (nodes (build ms))) = disciplines ms.
Proof.
  cbn [build nodes]. rewrite List.filter_app, filter_ofType_same.
  rewrite (filter_ofType_other discipline_t country_t) by discriminate.
  cbn [app]. rewrite map_map. cbn [node_id]. apply map_id.
Qed.

Lemma build_nodes_nil_iff (ms : list Medal) : nodes (build ms) = [] <-> ms = [].
Proof.
  split; [|intros ->; reflexivity].
  cbn [build nodes]. intros H. apply app_eq_nil in H as [H _].
  apply map_eq_nil in H. unfold countries in H.
  apply (proj1 (set_from_nil_iff _)) in H.
  apply map_eq_nil in H. exact H.
Qed.

Lemma build_link_key (ms : list Medal) (l : GraphLink) :
  In l (links (build ms)) ->
  exists m, In m ms /\ l = toLink (linkKey m, aggOf (keyGroup ms (linkKey m))).
Proof.
  rewrite build_groups_by_key. intros Hl.
  apply in_map_iff in Hl as (k & <- & Hk).
  apply list_elem_of_In in Hk. rewrite set_from_elem in Hk.
  apply list_elem_of_fmap in Hk as (m & -> & Hm).
  exists m. split; [apply list_elem_of_In, Hm | reflexivity].
Qed.

(** C2, as stated, fails on the empty record sequence: the builder
    returns the graph without nodes and edges, and throws nothing. *)
Lemma build_empty_returns :
  complete [] = Returns {| nodes := []; links := [] |}
  /\ (forall e, complete [] <> Throws e).
Proof.
  split; [reflexivity|]. intros e H. discriminate H.
Qed.

(** C2, as the code has it: the builder never fails; the graph it
    returns has no node exactly when the record sequence is empty, and in
    exactly that case the caller shows its placeholder in place of the
    graph, for every other input the graph itself. *)
Theorem build_empty_is_placeholder (ms : list Medal) :
  complete ms = Returns (build ms)
  /\ (nodes (build ms) = [] <-> ms = [])
  /\ (medalPanel (build ms) = LoadingMedalGraph <-> ms = [])
  /\ (ms <> [] ->
      medalPanel (build ms) = MedalGraphView (nodes (build ms)) (links (build ms))).
Proof.
  pose proof (build_nodes_nil_iff ms) as Hnil.
  split; [reflexivity|]. split; [exact Hnil|].
  unfold medalPanel.
  destruct (nodes (build ms)) as [|n ns] eqn:En; simpl.
  - split.
    + split; [intros _; apply Hnil; reflexivity | reflexivity].
    + intros Hne. exfalso. apply Hne, Hnil. reflexivity.
  - split.
    + split; [discriminate|]. intros Hms. apply Hnil in Hms. discriminate Hms.
    + reflexivity.
Qed.

Lemma build_empty_is_placeholder_witness :
  medalPanel (build exampleRecords)
  = MedalGraphView (nodes (build exampleRecords)) (links (build exampleRecords))
  /\ medalPanel (build []) = LoadingMedalGraph.
Proof.
  split.
  - apply (build_empty_is_placeholder exampleRecords). discriminate.
  - apply (build_empty_is_placeholder []). reflexivity.
Defined.

(** C3, as stated, fails: a record whose country and discipline have the
    same name yields two nodes with the same id, one in each partition. *)
Lemma build_duplicate_id_across_partitions :
  nodes (build sameNameRecords) = [countryNode "X"; disciplineNode "X"]
  /\ map node_id (nodes (build sameNameRecords)) = ["X"; "X"]
  /\ ~ NoDup (map node_id (nodes (build sameNameRecords))).
Proof.
  split; [reflexivity|]. split; [reflexivity|].
  intros Hnd. change (NoDup ["X"; "X"]) in Hnd.
  apply NoDup_cons in Hnd as [Hx _]. apply Hx. left.
Qed.

(** C3, as the code has it: the nodes of a built graph are pairwise
    distinct and no id occurs twice within the country partition or
    within the discipline partition; ids are unique in the whole graph
    when no country name is also a discipline name; and when no country
    or discipline name holds the separator of the grouping key, the
    source of every edge is the id of a country node and its target the
    id of a discipline node. *)
Theorem build_node_invariants (ms : list Medal) :
  NoDup (nodes (build ms))
  /\ NoDup (map node_id (List.filter (ofType country_t) (nodes (build ms))))
  /\ NoDup (map node_id (List.filter (ofType discipline_t) (nodes (build ms))))
  /\ ((forall m1 m2, In m1 ms -> In m2 ms -> country m1 <> discipline m2) ->
      NoDup (map node_id (nodes (build ms))))
  /\ (endpointsPipeFree ms ->
      forall l, In l (links (build ms)) ->
        In (countryNode (source l)) (nodes (build ms))
        /\ In (disciplineNode (target l)) (nodes (build ms))).
Proof.
  split; [|split; [|split; [|split]]].
  - cbn [build nodes]. apply NoDup_app. split; [|split].
    + apply NoDup_fmap_2; [|apply set_from_NoDup].
      intros c1 c2 H. injection H as H. exact H.
    + intros n Hc Hd.
      apply list_elem_of_fmap in Hc as (c & -> & _).
      apply list_elem_of_fmap in Hd as (d & Hd & _). discriminate Hd.
    + apply NoDup_fmap_2; [|apply set_from_NoDup].
      intros d1 d2 H. injection H as H. exact H.
  - rewrite build_country_nodes. apply set_from_NoDup.
  - rewrite build_discipline_nodes. apply set_from_NoDup.
  - intros Hdisj. cbn [build nodes]. rewrite map_app, !map_map. cbn [node_id].
    rewrite !map_id. apply NoDup_app. split; [|split].
    + apply set_from_NoDup.
    + intros x Hc Hd. unfold countries in Hc. unfold disciplines in Hd.
      rewrite set_from_elem in Hc. rewrite set_from_elem in Hd.
      apply list_elem_of_fmap in Hc as (m1 & -> & Hm1).
      apply list_elem_of_fmap in Hd as (m2 & He & Hm2).
      apply list_elem_of_In in Hm1, Hm2.
      exact (Hdisj m1 m2 Hm1 Hm2 He).
    + apply set_from_NoDup.
  - intros Hfree l Hl.
    apply build_link_key in Hl as (m & Hm & ->).
    destruct (Hfree m Hm) as [Hc Hd].
    unfold toLink. cbn [fst snd source target].
    rewrite (split_linkKey m Hc Hd). cbn [JS.destructure nth].
    cbn [build nodes]. split; apply in_or_app; [left | right].
    + apply in_map, list_elem_of_In. unfold countries.
      rewrite set_from_elem. apply list_elem_of_fmap.
      exists m. split; [reflexivity | apply list_elem_of_In, Hm].
    + apply in_map, list_elem_of_In. unfold disciplines.
      rewrite set_from_elem. apply list_elem_of_fmap.
      exists m. split; [reflexivity | apply list_elem_of_In, Hm].
Qed.

Lemma build_node_invariants_witness :
  NoDup (map node_id (nodes (build exampleRecords)))
  /\ (forall l, In l (links (build exampleRecords)) ->
        In (countryNode (source l)) (nodes (build exampleRecords))
        /\ In (disciplineNode (target l)) (nodes (build exampleRecords))).
Proof.
  destruct (build_node_invariants exampleRecords) as (_ & _ & _ & Hids & Hends).
  split.
  - apply Hids. intros m1 m2 H1 H2.
    simpl in H1, H2.
    destruct H1 as [<- | [<- | [<- | []]]], H2 as [<- | [<- | [<- | []]]];
      discriminate.
  - apply Hends. intros m Hm. simpl in Hm.
    destruct Hm as [<- | [<- | [<- | []]]]; split; reflexivity.
Defined.

(** ** Pins and ticks *)

Section Pins.

Variables alphaDecay velocityDecay : Q.
Variable forces : Q -> list D3.SimNode -> list D3.SimNode.
Hypothesis forces_keep_pins : keepsPins forces.

Local Abbreviation tick := (D3.tick alphaDecay velocityDecay forces).
Local Abbreviation ticks := (D3.ticks alphaDecay velocityDecay forces).

Lemma lookup_map_node {B} (f : D3.SimNode -> B) (ns : list D3.SimNode) (i : nat) :
  map f ns !! i = f <$> (ns !! i).
Proof.
  revert i. induction ns as [|n ns IH]; intros [|i]; simpl; try reflexivity.
  apply IH.
Qed.

Lemma forces_lookup (a : Q) (ns : list D3.SimNode) (i : nat) (d : D3.SimNode) :
  ns !! i = Some d ->
  exists f, forces a ns !! i = Some f /\ D3.fx f = D3.fx d /\ D3.fy f = D3.fy d.
Proof.
  intros Hd. pose proof (forces_keep_pins a ns) as Hp.
  apply (f_equal (fun l => l !! i)) in Hp.
  rewrite !lookup_map_node, Hd in Hp. simpl in Hp.
  destruct (forces a ns !! i) as [f|]; [|discriminate Hp].
  simpl in Hp. injection Hp as Hx Hy. exists f. repeat split; assumption.
Qed.

Lemma tick_lookup (s : D3.Simulation) (i : nat) (d : D3.SimNode) :
  D3.nodes s !! i = Some d ->
  exists f,
    forces (D3.alpha s + (D3.alphaTarget s - D3.alpha s) * alphaDecay)%Q (D3.nodes s) !! i
      = Some f
    /\ D3.fx f = D3.fx d /\ D3.fy f = D3.fy d
    /\ D3.nodes (tick s) !! i = Some (D3.integrate velocityDecay f).
Proof.
  intros Hd.
  destruct (forces_lookup (D3.alpha s + (D3.alphaTarget s - D3.alpha s) * alphaDecay)%Q
              _ _ _ Hd) as (f & Hf & Hx & Hy).
  exists f. repeat split; try assumption.
  unfold D3.tick. cbn [D3.nodes]. rewrite lookup_map_node, Hf. reflexivity.
Qed.

(** One tick puts a pinned node at its pin and keeps the pin. *)
Lemma tick_pinned (s : D3.Simulation) (i : nat) (d : D3.SimNode) (px py : Q) :
  D3.nodes s !! i = Some d ->
  D3.fx d = Some px -> D3.fy d = Some py ->
  exists d', D3.nodes (tick s) !! i = Some d'
    /\ D3.x d' = px /\ D3.y d' = py
    /\ D3.fx d' = Some px /\ D3.fy d' = Some py.
Proof.
  intros Hd Hfx Hfy.
  destruct (tick_lookup s i d Hd) as (f & _ & Hx & Hy & Ht).
  exists (D3.integrate velocityDecay f). split; [exact Ht|].
  unfold D3.integrate. cbn [D3.x D3.y D3.fx D3.fy].
  rewrite Hx, Hy, Hfx, Hfy. repeat split.
Qed.

Lemma ticks_succ (n : nat) (s : D3.Simulation) : ticks (S n) s = tick (ticks n s).
Proof. reflexivity. Qed.

Lemma ticks_pinned (n : nat) (s : D3.Simulation) (i : nat) (d : D3.SimNode) (px py : Q) :
  D3.nodes s !! i = Some d ->
  D3.fx d = Some px -> D3.fy d = Some py ->
  (n = 0%nat -> D3.x d = px /\ D3.y d = py) ->
  exists d', D3.nodes (ticks n s) !! i = Some d'
    /\ D3.x d' = px /\ D3.y d' = py
    /\ D3.fx d' = Some px /\ D3.fy d' = Some py.
Proof.
  intros Hd Hfx Hfy Hxy. induction n as [|n IH].
  - exists d. destruct (Hxy eq_refl) as [Hx Hy]. repeat split; assumption.
  - assert (Hprev : exists d0, D3.nodes (ticks n s) !! i = Some d0
                      /\ D3.fx d0 = Some px /\ D3.fy d0 = Some py).
    { destruct n as [|n].
      - exists d. repeat split; assumption.
      - destruct IH as (d0 & H0 & _ & _ & Hfx0 & Hfy0); [discriminate|].
        exists d0. repeat split; assumption. }
    destruct Hprev as (d0 & H0 & Hfx0 & Hfy0).
    rewrite ticks_succ. exact (tick_pinned _ i d0 px py H0 Hfx0 Hfy0).
Qed.

Lemma withNode_lookup (f : D3.SimNode -> D3.SimNode) (s : D3.Simulation)
    (i : nat) (d : D3.SimNode) :
  D3.nodes s !! i = Some d -> D3.nodes (withNode i f s) !! i = Some (f d).
Proof.
  intros Hd. unfold withNode. cbn [D3.nodes].
  rewrite list_lookup_alter_eq, Hd. reflexivity.
Qed.

Lemma dragStart_lookup (active i : nat) (s : D3.Simulation) (d : D3.SimNode) :
  D3.nodes s !! i = Some d ->
  D3.nodes (dragStart active i s) !! i
  = Some (setPin (Some (D3.x d)) (Some (D3.y d)) d).
Proof.
  intros Hd. unfold dragStart.
  apply (withNode_lookup (fun d => setPin (Some (D3.x d)) (Some (D3.y d)) d)).
  destruct (active =? 0)%nat; exact Hd.
Qed.

Lemma dragEnd_lookup (active i : nat) (s : D3.Simulation) (d : D3.SimNode) :
  D3.nodes s !! i = Some d ->
  D3.nodes (dragEnd active i s) !! i = Some (setPin None None d).
Proof.
  intros Hd. unfold dragEnd. apply withNode_lookup.
  destruct (active =? 0)%nat; exact Hd.
Qed.

(** C8: a node pinned by pointer-down keeps its position through any
    number of ticks, and its pin; a node whose pin a pointer-move has
    set is at the pin after every tick; pointer-up clears the pin and
    moves nothing, and the next tick moves the node by its damped
    velocity from where the forces have left it. *)
Theorem pinned_node_stays (s : D3.Simulation) (i : nat) (d : D3.SimNode) :
  D3.nodes s !! i = Some d ->
  (forall active n, exists d',
      D3.nodes (ticks n (dragStart active i s)) !! i = Some d'
      /\ D3.x d' = D3.x d /\ D3.y d' = D3.y d
      /\ D3.fx d' = Some (D3.x d) /\ D3.fy d' = Some (D3.y d))
  /\ (forall event_x event_y n, exists d',
      D3.nodes (ticks (S n) (dragMove event_x event_y i s)) !! i = Some d'
      /\ D3.x d' = event_x /\ D3.y d' = event_y
      /\ D3.fx d' = Some event_x /\ D3.fy d' = Some event_y)
  /\ (forall active, exists d',
      D3.nodes (dragEnd active i s) !! i = Some d'
      /\ D3.fx d' = None /\ D3.fy d' = None
      /\ D3.x d' = D3.x d /\ D3.y d' = D3.y d)
  /\ (forall active, exists f d',
      forces (D3.alpha (dragEnd active i s)
              + (D3.alphaTarget (dragEnd active i s) - D3.alpha (dragEnd active i s))
                * alphaDecay)%Q
             (D3.nodes (dragEnd active i s)) !! i = Some f
      /\ D3.nodes (tick (dragEnd active i s)) !! i = Some d'
      /\ D3.x d' = (D3.x f + D3.vx f * velocityDecay)%Q
      /\ D3.y d' = (D3.y f + D3.vy f * velocityDecay)%Q
      /\ D3.fx d' = None /\ D3.fy d' = None).
Proof.
  intros Hd. split; [|split; [|split]].
  - intros active n.
    apply (ticks_pinned n _ i (setPin (Some (D3.x d)) (Some (D3.y d)) d)).
    + apply dragStart_lookup, Hd.
    + reflexivity.
    + reflexivity.
    + intros _. split; reflexivity.
  - intros event_x event_y n.
    apply (ticks_pinned (S n) _ i (setPin (Some event_x) (Some event_y) d)).
    + unfold dragMove. apply withNode_lookup, Hd.
    + reflexivity.
    + reflexivity.
    + discriminate.
  - intros active. exists (setPin None None d).
    split; [apply dragEnd_lookup, Hd|]. repeat split.
  - intros active.
    pose proof (dragEnd_lookup active i s d Hd) as He.
    destruct (tick_lookup _ i _ He) as (f & Hf & Hx & Hy & Ht).
    exists f, (D3.integrate velocityDecay f).
    split; [exact Hf|]. split; [exact Ht|].
    unfold D3.integrate. cbn [D3.x D3.y D3.fx D3.fy].
    rewrite Hx, Hy. cbn [setPin D3.fx D3.fy]. repeat split.
Qed.

End Pins.

Lemma pushRight_keepsPins : keepsPins pushRight.
Proof.
  intros a ns. unfold pushRight. rewrite map_map. reflexivity.
Qed.

Lemma pinned_node_stays_witness :
  (exists d', D3.nodes (D3.ticks defaultAlphaDecay defaultVelocityDecay pushRight 5
                          (dragStart 0 0 freshSim)) !! 0%nat = Some d'
              /\ D3.x d' = 3%Q /\ D3.y d' = 4%Q)
  /\ (exists d', D3.nodes (exampleTick (dragEnd 0 0 (dragStart 0 0 freshSim))) !! 0%nat = Some d'
                 /\ ~ D3.x d' == 3).
Proof.
  split.
  - destruct (pinned_node_stays defaultAlphaDecay defaultVelocityDecay pushRight
                pushRight_keepsPins freshSim 0 (restingNode "A" country_t 3 4) eq_refl)
      as (Hstart & _).
    destruct (Hstart 0%nat 5%nat) as (d' & Hd' & Hx & Hy & _).
    exists d'. repeat split; assumption.
  - eexists. split; [reflexivity|].
    intros H. vm_compute in H. discriminate H.
Defined.

(** ** Energy *)

Section Energy.

Variables alphaDecay velocityDecay : Q.
Variable forces : Q -> list D3.SimNode -> list D3.SimNode.
Hypothesis decay_pos : (0 < alphaDecay)%Q.
Hypothesis decay_lt_1 : (alphaDecay < 1)%Q.

Local Abbreviation tick := (D3.tick alphaDecay velocityDecay forces).
Local Abbreviation ticks := (D3.ticks alphaDecay velocityDecay forces).

Lemma ticks_alphaTarget (n : nat) (s : D3.Simulation) :
  D3.alphaTarget (ticks n s) = D3.alphaTarget s.
Proof.
  induction n as [|n IH]; [reflexivity|].
  change (ticks (S n) s) with (tick (ticks n s)).
  unfold D3.tick at 1. cbn [D3.alphaTarget]. exact IH.
Qed.

Lemma tick_toward_target (s : D3.Simulation) :
  (D3.alpha (tick s) - D3.alphaTarget s
   == (D3.alpha s - D3.alphaTarget s) * (1 - alphaDecay))%Q.
Proof. unfold D3.tick. cbn [D3.alpha]. ring. Qed.

Lemma ticks_geometric (n : nat) (s : D3.Simulation) :
  (D3.alpha (ticks n s) - D3.alphaTarget s
   == (D3.alpha s - D3.alphaTarget s) * (1 - alphaDecay) ^ Z.of_nat n)%Q.
Proof.
  induction n as [|n IH].
  - change (ticks 0 s) with s. simpl. ring.
  - change (ticks (S n) s) with (tick (ticks n s)).
    rewrite <- (ticks_alphaTarget n s) at 1.
    rewrite tick_toward_target, ticks_alphaTarget, IH.
    rewrite Nat2Z.inj_succ, <- Z.add_1_r, Qpower_plus.
    + rewrite Qpower_1_r. ring.
    + intros H. lra.
Qed.

Lemma tick_decays (s : D3.Simulation) :
  (D3.alphaTarget s == 0)%Q -> (0 <= D3.alpha s)%Q ->
  (0 <= D3.alpha (tick s))%Q /\ (D3.alpha (tick s) <= D3.alpha s)%Q
  /\ ((0 < D3.alpha s)%Q -> (D3.alpha (tick s) < D3.alpha s)%Q).
Proof.
  intros Ht Ha.
  assert (He : (D3.alpha (tick s) == D3.alpha s * (1 - alphaDecay))%Q).
  { unfold D3.tick. cbn [D3.alpha]. rewrite Ht. ring. }
  rewrite He. split; [|split].
  - apply Qmult_le_0_compat; lra.
  - nra.
  - intros Hpos. nra.
Qed.

Lemma ticks_nonneg (n : nat) (s : D3.Simulation) :
  (D3.alphaTarget s == 0)%Q -> (0 <= D3.alpha s)%Q -> (0 <= D3.alpha (ticks n s))%Q.
Proof.
  intros Ht Ha. induction n as [|n IH]; [exact Ha|].
  change (ticks (S n) s) with (tick (ticks n s)).
  apply tick_decays; [rewrite ticks_alphaTarget; exact Ht | exact IH].
Qed.

Lemma ticks_pos (n : nat) (s : D3.Simulation) :
  (D3.alphaTarget s == 0)%Q -> (0 < D3.alpha s)%Q -> (0 < D3.alpha (ticks n s))%Q.
Proof.
  intros Ht Ha. pose proof (ticks_geometric n s) as Hg.
  assert (He : (D3.alpha (ticks n s) == D3.alpha s * (1 - alphaDecay) ^ Z.of_nat n)%Q).
  { set (q := ((1 - alphaDecay) ^ Z.of_nat n)%Q) in *. nra. }
  rewrite He. apply Qmult_lt_0_compat; [exact Ha|].
  apply Qpower_0_lt. lra.
Qed.

(** The powers of the decay factor fall below every positive bound. *)
Lemma decay_factor_bound (n : nat) :
  ((1 + inject_Z (Z.of_nat n) * alphaDecay) * (1 - alphaDecay) ^ Z.of_nat n <= 1)%Q.
Proof.
  induction n as [|n IH].
  - change (Z.of_nat 0) with 0%Z. rewrite Qpower_0_r.
    change (inject_Z 0) with 0%Q. lra.
  - rewrite Nat2Z.inj_succ, <- Z.add_1_r, Qpower_plus by (intros H; lra).
    rewrite Qpower_1_r, inject_Z_plus.
    assert (Hq : (0 < (1 - alphaDecay) ^ Z.of_nat n)%Q) by (apply Qpower_0_lt; lra).
    assert (Hn : (0 <= inject_Z (Z.of_nat n))%Q).
    { change 0%Q with (inject_Z 0). rewrite <- Zle_Qle. lia. }
    set (q := ((1 - alphaDecay) ^ Z.of_nat n)%Q) in *.
    set (k := inject_Z (Z.of_nat n)) in *.
    change (inject_Z 1) with 1%Q.
    assert (H2 : ((1 + (k + 1) * alphaDecay) * (q * (1 - alphaDecay))
                  == (1 + k * alphaDecay) * q - ((k + 1) * alphaDecay * alphaDecay) * q)%Q)
      by ring.
    rewrite H2.
    assert (0 <= ((k + 1) * alphaDecay * alphaDecay) * q)%Q.
    { apply Qmult_le_0_compat; [|lra].
      apply Qmult_le_0_compat; [|lra]. apply Qmult_le_0_compat; lra. }
    lra.
Qed.

Lemma geometric_small (a0 eps : Q) :
  (0 <= a0)%Q -> (0 < eps)%Q ->
  exists N : nat, forall n, (N <= n)%nat ->
    (a0 * (1 - alphaDecay) ^ Z.of_nat n < eps)%Q.
Proof.
  intros Ha He.
  exists (Z.to_nat (Qfloor (a0 / (eps * alphaDecay)) + 1)).
  intros n Hn.
  assert (Hq : (0 < (1 - alphaDecay) ^ Z.of_nat n)%Q) by (apply Qpower_0_lt; lra).
  pose proof (decay_factor_bound n) as Hb.
  assert (Hed : (0 < eps * alphaDecay)%Q) by (apply Qmult_lt_0_compat; assumption).
  assert (Hk : (a0 / (eps * alphaDecay) < inject_Z (Z.of_nat n))%Q).
  { eapply Qlt_le_trans; [apply Qlt_floor|].
    rewrite <- Zle_Qle.
    assert (0 <= Qfloor (a0 / (eps * alphaDecay)))%Z.
    { rewrite <- (Qfloor_Z 0). apply Qfloor_resp_le.
      apply Qle_shift_div_l; [exact Hed|]. rewrite Qmult_0_l. exact Ha. }
    lia. }
  apply (Qmult_lt_compat_r _ _ (eps * alphaDecay) Hed) in Hk.
  assert (Hdiv : (a0 / (eps * alphaDecay) * (eps * alphaDecay) == a0)%Q).
  { field. split; intros H; lra. }
  rewrite Hdiv in Hk.
  set (q := ((1 - alphaDecay) ^ Z.of_nat n)%Q) in *.
  set (k := inject_Z (Z.of_nat n)) in *.
  assert (Hm : (k * alphaDecay * q <= 1)%Q) by lra.
  assert (H1 : (a0 * q < eps * (k * alphaDecay * q))%Q).
  { assert ((eps * (k * alphaDecay * q) == (k * (eps * alphaDecay)) * q)%Q) as -> by ring.
    apply Qmult_lt_compat_r; assumption. }
  assert (H2 : (eps * (k * alphaDecay * q) <= eps * 1)%Q).
  { apply Qmult_le_l; assumption. }
  lra.
Qed.

(** C9, as the code has it: while no drag is in progress the energy
    target is zero and the energy decays geometrically, by the factor
    1 - alphaDecay in every tick, so it never increases, stays
    non-negative, strictly decreases while it is positive and falls
    below every positive bound.  Starting a
    drag leaves the energy as it is: it raises the target to 0.2 and
    restarts the timer, and from then on every tick moves the energy
    geometrically to 0.2, upwards when it is below and downwards when it
    is above.  Ending a drag leaves the energy as it is and sets the
    target back to zero.  A handler that runs while another gesture is
    active changes neither energy nor target. *)
Theorem energy_schedule (s : D3.Simulation) (i : nat) :
  (forall n, (D3.alphaTarget s == 0)%Q -> (0 <= D3.alpha s)%Q ->
     (D3.alpha (ticks n s) == D3.alpha s * (1 - alphaDecay) ^ Z.of_nat n)%Q
     /\ (0 <= D3.alpha (ticks (S n) s))%Q
     /\ (D3.alpha (ticks (S n) s) <= D3.alpha (ticks n s))%Q
     /\ ((0 < D3.alpha s)%Q -> (D3.alpha (ticks (S n) s) < D3.alpha (ticks n s))%Q))
  /\ (D3.alpha (dragStart 0 i s) = D3.alpha s
      /\ D3.alphaTarget (dragStart 0 i s) = 0.2%Q
      /\ D3.running (dragStart 0 i s) = true)
  /\ (forall n,
     (D3.alpha (ticks n (dragStart 0 i s)) - 0.2
      == (D3.alpha s - 0.2) * (1 - alphaDecay) ^ Z.of_nat n)%Q
     /\ ((D3.alpha s < 0.2)%Q ->
         (D3.alpha (ticks n (dragStart 0 i s)) < D3.alpha (ticks (S n) (dragStart 0 i s)))%Q
         /\ (D3.alpha (ticks (S n) (dragStart 0 i s)) < 0.2)%Q)
     /\ ((0.2 < D3.alpha s)%Q ->
         (D3.alpha (ticks (S n) (dragStart 0 i s)) < D3.alpha (ticks n (dragStart 0 i s)))%Q
         /\ (0.2 < D3.alpha (ticks (S n) (dragStart 0 i s)))%Q))
  /\ (D3.alpha (dragEnd 0 i s) = D3.alpha s
      /\ D3.alphaTarget (dragEnd 0 i s) = 0%Q)
  /\ (forall active,
      D3.alpha (dragStart (S active) i s) = D3.alpha s
      /\ D3.alphaTarget (dragStart (S active) i s) = D3.alphaTarget s
      /\ D3.alpha (dragEnd (S active) i s) = D3.alpha s
      /\ D3.alphaTarget (dragEnd (S active) i s) = D3.alphaTarget s)
  /\ ((D3.alphaTarget s == 0)%Q -> (0 <= D3.alpha s)%Q ->
      forall eps, (0 < eps)%Q ->
        exists N, forall n, (N <= n)%nat -> (D3.alpha (ticks n s) < eps)%Q).
Proof.
  split; [|split; [|split; [|split; [|split]]]].
  - intros n Ht Ha.
    pose proof (ticks_geometric n s) as Hg.
    split; [set (q := ((1 - alphaDecay) ^ Z.of_nat n)%Q) in *; nra|].
    change (ticks (S n) s) with (tick (ticks n s)).
    destruct (tick_decays (ticks n s)) as (H0 & Hle & Hlt).
    + rewrite ticks_alphaTarget. exact Ht.
    + apply ticks_nonneg; assumption.
    + split; [exact H0|]. split; [exact Hle|].
      intros Hpos. apply Hlt, ticks_pos; assumption.
  - repeat split.
  - intros n.
    pose proof (ticks_geometric n (dragStart 0 i s)) as Hg.
    change (D3.alphaTarget (dragStart 0 i s)) with 0.2%Q in Hg.
    change (D3.alpha (dragStart 0 i s)) with (D3.alpha s) in Hg.
    split; [exact Hg|].
    pose proof (tick_toward_target (ticks n (dragStart 0 i s))) as Hs.
    rewrite ticks_alphaTarget in Hs.
    change (D3.alphaTarget (dragStart 0 i s)) with 0.2%Q in Hs.
    change (ticks (S n) (dragStart 0 i s)) with (tick (ticks n (dragStart 0 i s))).
    assert (Hpow : (0 < (1 - alphaDecay) ^ Z.of_nat n)%Q) by (apply Qpower_0_lt; lra).
    set (a := D3.alpha (ticks n (dragStart 0 i s))) in *.
    set (a' := D3.alpha (tick (ticks n (dragStart 0 i s)))) in *.
    set (q := ((1 - alphaDecay) ^ Z.of_nat n)%Q) in *.
    split.
    + intros Hlow.
      assert (Ha : (a < 0.2)%Q) by nra.
      split; nra.
    + intros Hhigh.
      assert (Ha : (0.2 < a)%Q) by nra.
      split; nra.
  - repeat split.
  - intros active. repeat split.
  - intros Ht Ha eps Heps.
    destruct (geometric_small (D3.alpha s) eps Ha Heps) as (N & HN).
    exists N. intros n Hn. specialize (HN n Hn).
    pose proof (ticks_geometric n s) as Hg.
    set (q := ((1 - alphaDecay) ^ Z.of_nat n)%Q) in *. nra.
Qed.

End Energy.

Lemma energy_schedule_witness :
  (D3.alpha (D3.ticks defaultAlphaDecay defaultVelocityDecay pushRight 3 freshSim)
   == 1 * (1 - defaultAlphaDecay) ^ 3)%Q
  /\ D3.alpha (dragStart 0 0 cooledSim) = 0.05%Q
  /\ D3.alpha (dragEnd 0 0 (dragStart 0 0 cooledSim)) = 0.05%Q.
Proof.
  assert (Hpos : (0 < defaultAlphaDecay)%Q) by reflexivity.
  assert (Hlt : (defaultAlphaDecay < 1)%Q) by reflexivity.
  split; [|split].
  - destruct (energy_schedule defaultAlphaDecay defaultVelocityDecay pushRight
                Hpos Hlt freshSim 0) as (Hdecay & _).
    destruct (Hdecay 3%nat) as (Hgeo & _).
    + reflexivity.
    + discriminate.
    + exact Hgeo.
  - destruct (energy_schedule defaultAlphaDecay defaultVelocityDecay pushRight
                Hpos Hlt cooledSim 0) as (_ & (Ha & _) & _).
    exact Ha.
  - destruct (energy_schedule defaultAlphaDecay defaultVelocityDecay pushRight
                Hpos Hlt (dragStart 0 0 cooledSim) 0) as (_ & _ & _ & (Ha & _) & _).
    exact Ha.
Defined.

(** C9, as stated, fails: starting a drag on a fresh simulation leaves
    its energy at 1, which is no increase, and the ticks that follow
    lower it; on a simulation that has cooled to 0.05 it leaves the
    energy at 0.05, so the energy is not reset to one fixed value, and
    the ticks that follow, with no further reheat among them, raise it. *)
Lemma dragStart_leaves_energy :
  D3.alpha freshSim = 1%Q
  /\ D3.alpha (dragStart 0 0 freshSim) = 1%Q
  /\ ~ (D3.alpha freshSim < D3.alpha (dragStart 0 0 freshSim))%Q
  /\ (D3.alpha (exampleTick (dragStart 0 0 freshSim)) < D3.alpha (dragStart 0 0 freshSim))%Q
  /\ D3.alpha (dragStart 0 0 cooledSim) = 0.05%Q
  /\ ~ (D3.alpha cooledSim < D3.alpha (dragStart 0 0 cooledSim))%Q
  /\ (D3.alpha (exampleTick (dragStart 0 0 cooledSim))
      < D3.alpha (exampleTick (exampleTick (dragStart 0 0 cooledSim))))%Q.
Proof.
  split; [reflexivity|]. split; [reflexivity|].
  split; [intros H; discriminate H|].
  split; [reflexivity|]. split; [reflexivity|].
  split; [intros H; discriminate H | reflexivity].
Qed.

(** The timer callback ticks a running simulation, stops it once the
    energy is below the threshold, and leaves a stopped one alone until a
    drag restarts it. *)
Lemma step_cases (alphaDecay velocityDecay alphaMin : Q)
    (forces : Q -> list D3.SimNode -> list D3.SimNode) (s : D3.Simulation) :
  (D3.running s = false -> D3.step alphaDecay velocityDecay alphaMin forces s = s)
  /\ (D3.running s = true ->
      (alphaMin <= D3.alpha (D3.tick alphaDecay velocityDecay forces s))%Q ->
      D3.step alphaDecay velocityDecay alphaMin forces s
      = D3.tick alphaDecay velocityDecay forces s)
  /\ (D3.running s = true ->
      (D3.alpha (D3.tick alphaDecay velocityDecay forces s) < alphaMin)%Q ->
      D3.running (D3.step alphaDecay velocityDecay alphaMin forces s) = false)
  /\ (forall i, D3.running (dragStart 0 i (D3.stop s)) = true).
Proof.
  unfold D3.step. split; [|split; [|split]].
  - intros ->. reflexivity.
  - intros -> Hge. apply ltb_false_iff in Hge. rewrite Hge. reflexivity.
  - intros -> Hlt. apply ltb_true_iff in Hlt. rewrite Hlt. reflexivity.
  - intros i. reflexivity.
Qed.

(** * Further properties *)

(** ** The filter pipeline as a graph transformation *)

Lemma filter_sublist {A} (f : A -> bool) (l : list A) :
  sublist (List.filter f l) l.
Proof.
  induction l as [|a l IH]; simpl; [apply sublist_nil|].
  destruct (f a); [apply sublist_skip | apply sublist_cons]; exact IH.
Qed.

Lemma filteredNodes_In (ns : list GraphNode) (fl : list GraphLink) (show_only : bool)
    (n : GraphNode) :
  In n (filteredNodes ns (filteredNodeIds fl) show_only)
  <-> In n ns /\ (show_only = true -> touches fl (node_id n)).
Proof.
  unfold filteredNodes. destruct show_only; cbn [negb].
  - rewrite filter_In, bool_decide_eq_true, filteredNodeIds_spec.
    split; [intros [H1 H2]; split; [exact H1 | intros _; exact H2]|].
    intros [H1 H2]. split; [exact H1 | apply H2; reflexivity].
  - split; [intros H; split; [exact H | discriminate] | intros [H _]; exact H].
Qed.

(** X1: the filter keeps the invariant of the data model: when every
    edge of a graph ends at ids of its nodes, every visible edge ends at
    ids of visible nodes, with unconnected nodes hidden or shown. *)
Theorem filterGraph_keeps_endpoints (g : Graph) (p : FilterState) :
  endpointsKnown g -> endpointsKnown (filterGraph g p).
Proof.
  intros Hg l Hl. cbn [filterGraph links nodes] in *.
  assert (Hlg : In l (links g)).
  { unfold filteredLinks in Hl. apply filter_In in Hl as [Hl _]. exact Hl. }
  destruct (Hg l Hlg) as [Hs Ht].
  apply in_map_iff in Hs as (ns & Hns & Hs).
  apply in_map_iff in Ht as (nt & Hnt & Ht).
  split.
  - apply in_map_iff. exists ns. split; [exact Hns|].
    apply filteredNodes_In. split; [exact Hs|]. intros _.
    exists l. split; [exact Hl | left; symmetry; exact Hns].
  - apply in_map_iff. exists nt. split; [exact Hnt|].
    apply filteredNodes_In. split; [exact Ht|]. intros _.
    exists l. split; [exact Hl | right; symmetry; exact Hnt].
Qed.

Lemma exampleGraph_endpointsKnown : endpointsKnown exampleGraph.
Proof.
  intros l Hl. simpl in Hl.
  destruct Hl as [<- | [<- | []]]; simpl; tauto.
Qed.

Lemma filterGraph_keeps_endpoints_witness :
  endpointsKnown (filterGraph exampleGraph (exampleParams 2 true)).
Proof.
  apply (filterGraph_keeps_endpoints exampleGraph (exampleParams 2 true)).
  exact exampleGraph_endpointsKnown.
Defined.

(** X2: the filter only removes: the visible edges are a subsequence of
    the edges of the graph and the visible nodes a subsequence of its
    nodes, so nothing is added, repeated or reordered. *)
Theorem filterGraph_subgraph (g : Graph) (p : FilterState) :
  sublist (links (filterGraph g p)) (links g)
  /\ sublist (nodes (filterGraph g p)) (nodes g).
Proof.
  cbn [filterGraph links nodes]. split.
  - apply filter_sublist.
  - unfold filteredNodes. destruct (negb (showOnlyConnected p)).
    + reflexivity.
    + apply filter_sublist.
Qed.

Lemma filter_comm {A} (f g : A -> bool) (l : list A) :
  List.filter f (List.filter g l) = List.filter g (List.filter f l).
Proof.
  induction l as [|a l IH]; simpl; [reflexivity|].
  destruct (f a) eqn:Hf, (g a) eqn:Hg; simpl; rewrite ?Hf, ?Hg, IH; reflexivity.
Qed.

Lemma filter_andb {A} (f g : A -> bool) (l : list A) :
  List.filter g (List.filter f l) = List.filter (fun a => f a && g a) l.
Proof.
  induction l as [|a l IH]; simpl; [reflexivity|].
  destruct (f a); simpl; [|exact IH].
  destruct (g a); rewrite IH; reflexivity.
Qed.

Lemma touches_filter (f : GraphLink -> bool) (ls : list GraphLink) (id : string) :
  touches (List.filter f ls) id -> touches ls id.
Proof.
  intros (l & Hl & He). apply filter_In in Hl as [Hl _].
  exists l. split; assumption.
Qed.

Lemma filteredNodes_twice (ns : list GraphNode) (fl1 fl2 : list GraphLink) :
  (forall id, touches fl2 id -> touches fl1 id) ->
  filteredNodes (filteredNodes ns (filteredNodeIds fl1) true) (filteredNodeIds fl2) true
  = filteredNodes ns (filteredNodeIds fl2) true.
Proof.
  intros Hsub. unfold filteredNodes. cbn [negb].
  induction ns as [|n ns IH]; simpl; [reflexivity|].
  destruct (bool_decide (node_id n ∈ filteredNodeIds fl2)) eqn:E2.
  - assert (E1 : bool_decide (node_id n ∈ filteredNodeIds fl1) = true).
    { apply bool_decide_eq_true. apply filteredNodeIds_spec, Hsub, filteredNodeIds_spec.
      apply bool_decide_eq_true in E2. exact E2. }
    rewrite E1. simpl. rewrite E2, IH. reflexivity.
  - destruct (bool_decide (node_id n ∈ filteredNodeIds fl1)); simpl; rewrite ?E2; exact IH.
Qed.

(** X3: two filter settings applied one after the other give the same
    visible edges in either order, namely the edges that pass both; when
    the two settings agree on hiding unconnected nodes, the whole visible
    subgraph is the same in either order. *)
Theorem filterGraph_commutes (g : Graph) (p1 p2 : FilterState) :
  links (filterGraph (filterGraph g p1) p2) = links (filterGraph (filterGraph g p2) p1)
  /\ links (filterGraph (filterGraph g p1) p2)
     = List.filter (fun l => keepLink p1 l && keepLink p2 l) (links g)
  /\ (showOnlyConnected p1 = showOnlyConnected p2 ->
      filterGraph (filterGraph g p1) p2 = filterGraph (filterGraph g p2) p1).
Proof.
  assert (Hl : filteredLinks (filteredLinks (links g) p1) p2
               = filteredLinks (filteredLinks (links g) p2) p1)
    by apply filter_comm.
  split; [exact Hl|]. split.
  - cbn [filterGraph links]. apply filter_andb.
  - intros Hshow. unfold filterGraph. cbn [links nodes].
    rewrite Hl. f_equal. rewrite <- Hshow.
    destruct (showOnlyConnected p1).
    + rewrite (filteredNodes_twice (nodes g) (filteredLinks (links g) p1)
                 (filteredLinks (filteredLinks (links g) p2) p1)).
      * rewrite (filteredNodes_twice (nodes g) (filteredLinks (links g) p2)
                   (filteredLinks (filteredLinks (links g) p2) p1));
          [reflexivity | apply touches_filter].
      * rewrite <- Hl. apply touches_filter.
    + reflexivity.
Qed.

Lemma filterGraph_commutes_witness :
  filterGraph (filterGraph exampleGraph (exampleParams 2 true)) (exampleParams 1 true)
  = filterGraph (filterGraph exampleGraph (exampleParams 1 true)) (exampleParams 2 true).
Proof.
  apply (filterGraph_commutes exampleGraph (exampleParams 2 true) (exampleParams 1 true)).
  reflexivity.
Defined.

Lemma filter_all_false {A} (f : A -> bool) (l : list A) :
  (forall a, In a l -> f a = false) -> List.filter f l = [].
Proof.
  induction l as [|a l IH]; simpl; intros H; [reflexivity|].
  rewrite (H a) by (left; reflexivity). apply IH.
  intros b Hb. apply H. right. exact Hb.
Qed.

Lemma filter_all_true {A} (f : A -> bool) (l : list A) :
  (forall a, In a l -> f a = true) -> List.filter f l = l.
Proof.
  induction l as [|a l IH]; simpl; intros H; [reflexivity|].
  rewrite (H a) by (left; reflexivity). f_equal. apply IH.
  intros b Hb. apply H. right. exact Hb.
Qed.

Lemma wanted_focus (focus : string) :
  focus <> "All" -> wanted focus = Some focus.
Proof.
  intros Hne. unfold wanted.
  destruct (String.eqb_spec focus "All") as [He | _]; [contradiction | reflexivity].
Qed.

Lemma truthy_nonempty (s : string) : s <> "" -> JS.truthy s = true.
Proof.
  intros Hne. unfold JS.truthy.
  destruct (String.eqb_spec s "") as [He | _]; [contradiction | reflexivity].
Qed.

Lemma keepLink_focus_false (p : FilterState) (l : GraphLink) (focus : string) :
  focus <> "All" -> focus <> "" ->
  (selectedCountry p = focus \/ selectedDiscipline p = focus) ->
  source l <> focus -> target l <> focus ->
  keepLink p l = false.
Proof.
  intros Hall Hemp Hsel Hs Ht. unfold keepLink.
  destruct (match wanted (selectedMedal p) with
            | Some w => JS.truthy w && negb (String.eqb (medal l) w)
            | None => false end); [reflexivity|].
  destruct (JS.ltb (countOr1 l) (minCount p)); [reflexivity|].
  assert (Hmiss : JS.truthy focus
                  && negb (String.eqb (source l) focus || String.eqb (target l) focus)
                  = true).
  { rewrite (truthy_nonempty _ Hemp).
    destruct (String.eqb_spec (source l) focus); [contradiction|].
    destruct (String.eqb_spec (target l) focus); [contradiction|]. reflexivity. }
  destruct Hsel as [Hsel | Hsel]; rewrite Hsel, (wanted_focus _ Hall), Hmiss.
  - reflexivity.
  - destruct (match wanted (selectedCountry p) with
              | Some w => JS.truthy w && negb (String.eqb (source l) w || String.eqb (target l) w)
              | None => false end); reflexivity.
Qed.

Lemma filteredNodes_no_links (ns : list GraphNode) :
  filteredNodes ns (filteredNodeIds []) true = [].
Proof.
  unfold filteredNodes. cbn [negb]. apply filter_all_false.
  intros n _. apply bool_decide_eq_false. intros H.
  apply filteredNodeIds_spec in H as (l & [] & _).
Qed.

(** X4: a focus that no edge touches gives an empty result and no
    error: when the selected country or discipline is neither the
    sentinel [All] nor the empty string (the two selections that the
    filter skips) and is the end of no edge of the graph, no edge is
    visible, and with unconnected nodes hidden no node is visible
    either. *)
Theorem unknown_focus_shows_nothing (g : Graph) (p : FilterState) (focus : string) :
  focus <> "All" -> focus <> "" ->
  (selectedCountry p = focus \/ selectedDiscipline p = focus) ->
  ~ touches (links g) focus ->
  links (filterGraph g p) = []
  /\ (showOnlyConnected p = true -> nodes (filterGraph g p) = []).
Proof.
  intros Hall Hemp Hsel Hno.
  assert (Hl : filteredLinks (links g) p = []).
  { apply filter_all_false. intros l Hl.
    apply (keepLink_focus_false p l focus Hall Hemp Hsel).
    - intros Hs. apply Hno. exists l. split; [exact Hl | left; exact Hs].
    - intros Ht. apply Hno. exists l. split; [exact Hl | right; exact Ht]. }
  cbn [filterGraph links nodes]. rewrite Hl. split; [reflexivity|].
  intros ->. apply filteredNodes_no_links.
Qed.

Lemma unknown_focus_shows_nothing_witness :
  links (filterGraph exampleGraph
           {| selectedCountry := "Z"; selectedDiscipline := "All";
              selectedMedal := "All"; minCount := 1; showOnlyConnected := true |}) = []
  /\ nodes (filterGraph exampleGraph
              {| selectedCountry := "Z"; selectedDiscipline := "All";
                 selectedMedal := "All"; minCount := 1; showOnlyConnected := true |}) = [].
Proof.
  destruct (unknown_focus_shows_nothing exampleGraph
              {| selectedCountry := "Z"; selectedDiscipline := "All";
                 selectedMedal := "All"; minCount := 1; showOnlyConnected := true |} "Z")
    as [Hl Hn].
  - discriminate.
  - discriminate.
  - left. reflexivity.
  - intros (l & Hl & He). simpl in Hl.
    destruct Hl as [<- | [<- | []]]; destruct He as [He | He]; discriminate He.
  - split; [exact Hl | apply Hn; reflexivity].
Defined.

Lemma keepLink_nothingSelected (p : FilterState) (l : GraphLink) :
  nothingSelected p ->
  keepLink p l = negb (JS.ltb (countOr1 l) (minCount p)).
Proof.
  intros (Hc & Hd & Hm). unfold keepLink. rewrite Hc, Hd, Hm. cbn [wanted String.eqb].
  simpl. destruct (JS.ltb (countOr1 l) (minCount p)); reflexivity.
Qed.

(** X6: the count threshold that the effect on [links] leaves behind
    never hides every link by itself: when the links are not empty, each
    has a count of at least 1 (or none) and no control selects anything,
    some link is visible after the effect, whatever the threshold was. *)
Theorem reclamped_threshold_keeps_a_link (ls : list GraphLink) (p : FilterState) :
  ls <> [] ->
  (forall l, In l ls -> (1 <= countOr1 l)%Q) ->
  nothingSelected p ->
  filteredLinks ls (onLinksChange ls p) <> [].
Proof.
  intros Hne Hpos Hsel.
  assert (Hsel' : nothingSelected (onLinksChange ls p)) by exact Hsel.
  assert (Hmin : (minCount (onLinksChange ls p) <= maxCount ls)%Q).
  { apply clamp_bounds, max_of_lower. }
  assert (Hex : exists l, In l ls /\ (maxCount ls <= countOr1 l)%Q).
  { destruct (max_of_attained 1 (map countOr1 ls)) as [He | (a & Ha & He)].
    - destruct ls as [|l ls']; [contradiction|].
      exists l. split; [left; reflexivity|].
      unfold maxCount. rewrite He. apply Hpos. left. reflexivity.
    - apply in_map_iff in Ha as (l & <- & Hl).
      exists l. split; [exact Hl|]. unfold maxCount. rewrite He. apply Qle_refl. }
  destruct Hex as (l & Hl & Hmax).
  assert (Hin : In l (filteredLinks ls (onLinksChange ls p))).
  { apply filter_In. split; [exact Hl|].
    rewrite (keepLink_nothingSelected _ l Hsel').
    apply negb_true_iff, ltb_false_iff.
    eapply Qle_trans; eassumption. }
  intros He. rewrite He in Hin. destruct Hin.
Qed.

Lemma reclamped_threshold_keeps_a_link_witness :
  filteredLinks (links exampleGraph)
    (onLinksChange (links exampleGraph) (exampleParams 7 true)) <> [].
Proof.
  apply (reclamped_threshold_keeps_a_link (links exampleGraph) (exampleParams 7 true)).
  - discriminate.
  - intros l Hl. simpl in Hl.
    destruct Hl as [<- | [<- | []]]; unfold Qle; simpl; lia.
  - repeat split.
Defined.

(** ** More on the graph model builder *)

Lemma build_link_of_record (ms : list Medal) (m : Medal) :
  In m ms ->
  In (toLink (linkKey m, aggOf (keyGroup ms (linkKey m)))) (links (build ms)).
Proof.
  intros Hm. rewrite build_groups_by_key.
  apply (in_map (fun k => toLink (k, aggOf (keyGroup ms k)))).
  apply list_elem_of_In, set_from_elem, list_elem_of_fmap.
  exists m. split; [reflexivity | apply list_elem_of_In, Hm].
Qed.

Lemma keyGroup_self (ms : list Medal) (m : Medal) :
  In m ms -> (1 <= length (keyGroup ms (linkKey m)))%nat.
Proof.
  intros Hm.
  assert (Hin : In m (keyGroup ms (linkKey m))).
  { apply filter_In. split; [exact Hm | apply String.eqb_refl]. }
  destruct (keyGroup ms (linkKey m)); [destruct Hin | simpl; lia].
Qed.

Lemma build_count_pos (ms : list Medal) (l : GraphLink) :
  In l (links (build ms)) ->
  exists n, (1 <= n)%nat /\ count l = Some (inject_Z (Z.of_nat n)).
Proof.
  intros Hl. apply build_link_key in Hl as (m & Hm & ->).
  exists (length (keyGroup ms (linkKey m))).
  split; [apply keyGroup_self, Hm | reflexivity].
Qed.

Lemma inject_nat_ge_1 (n : nat) : (1 <= n)%nat -> (1 <= inject_Z (Z.of_nat n))%Q.
Proof.
  intros Hn. change 1%Q with (inject_Z 1). rewrite <- Zle_Qle. lia.
Qed.

Lemma build_nodes_touched (ms : list Medal) (n : GraphNode) :
  endpointsPipeFree ms ->
  In n (nodes (build ms)) -> touches (links (build ms)) (node_id n).
Proof.
  intros Hfree Hn. cbn [build nodes] in Hn.
  apply in_app_or in Hn as [Hn | Hn]; apply in_map_iff in Hn as (c & <- & Hc);
    apply list_elem_of_In in Hc; [unfold countries in Hc | unfold disciplines in Hc];
    rewrite set_from_elem in Hc; apply list_elem_of_fmap in Hc as (m & -> & Hm);
    apply list_elem_of_In in Hm; destruct (Hfree m Hm) as [Hcm Hdm];
    exists (toLink (linkKey m, aggOf (keyGroup ms (linkKey m))));
    (split; [apply build_link_of_record, Hm|]);
    unfold toLink; cbn [fst snd source target node_id];
    rewrite (split_linkKey m Hcm Hdm); [left | right]; reflexivity.
Qed.

(** X5: the Reset button shows the graph as it was built: with the
    state that [resetFilters] sets, every edge of a built graph is
    visible, and when no country or discipline name holds the separator
    of the grouping key, the visible subgraph is the whole built graph. *)
Theorem reset_shows_built_graph (ms : list Medal) (p : FilterState) :
  links (filterGraph (build ms) (resetFilters p)) = links (build ms)
  /\ (endpointsPipeFree ms -> filterGraph (build ms) (resetFilters p) = build ms).
Proof.
  assert (Hl : filteredLinks (links (build ms)) (resetFilters p) = links (build ms)).
  { apply filter_all_true. intros l Hl.
    rewrite (keepLink_nothingSelected (resetFilters p) l) by (repeat split).
    apply negb_true_iff, ltb_false_iff. cbn [resetFilters minCount].
    destruct (build_count_pos ms l Hl) as (n & Hn & Hc).
    unfold countOr1. rewrite Hc. cbn [default]. apply inject_nat_ge_1, Hn. }
  split; [exact Hl|].
  intros Hfree. unfold filterGraph. rewrite Hl. cbn [resetFilters showOnlyConnected].
  destruct (build ms) as [ns ls] eqn:Hb. cbn [nodes links]. f_equal.
  unfold filteredNodes. cbn [negb]. apply filter_all_true.
  intros n Hn. apply bool_decide_eq_true, filteredNodeIds_spec.
  change ls with (links {| nodes := ns; links := ls |}). rewrite <- Hb.
  apply build_nodes_touched; [exact Hfree|]. rewrite Hb. exact Hn.
Qed.

Lemma exampleRecords_endpointsPipeFree : endpointsPipeFree exampleRecords.
Proof.
  intros m Hm. simpl in Hm.
  destruct Hm as [<- | [<- | [<- | []]]]; split; reflexivity.
Qed.

Lemma reset_shows_built_graph_witness :
  filterGraph (build exampleRecords) (resetFilters (exampleParams 2 false))
  = build exampleRecords.
Proof.
  apply (reset_shows_built_graph exampleRecords (exampleParams 2 false)).
  exact exampleRecords_endpointsPipeFree.
Defined.

(** X12: a built graph has no isolated node: when no country or
    discipline name holds the separator of the grouping key, every node
    is an end of some edge, so its degree is at least one. *)
Theorem build_no_isolated_node (ms : list Medal) (n : GraphNode) :
  endpointsPipeFree ms ->
  In n (nodes (build ms)) ->
  touches (links (build ms)) (node_id n)
  /\ (1 <= visibleDegree (links (build ms)) (node_id n))%nat.
Proof.
  intros Hfree Hn.
  pose proof (build_nodes_touched ms n Hfree Hn) as Ht.
  split; [exact Ht | apply visibleDegree_pos, Ht].
Qed.

Lemma build_no_isolated_node_witness :
  (1 <= visibleDegree (links (build exampleRecords)) "B")%nat.
Proof.
  apply (build_no_isolated_node exampleRecords (countryNode "B")
           exampleRecords_endpointsPipeFree).
  right. left. reflexivity.
Defined.

Lemma one_key_among (keys : list string) (k0 : string) :
  NoDup keys -> k0 ∈ keys ->
  list_sum (map (fun k => if String.eqb k0 k then 1%nat else 0%nat) keys) = 1%nat.
Proof.
  induction keys as [|k keys IH]; intros Hnd Hk; [inversion Hk|].
  apply NoDup_cons in Hnd as [Hk' Hnd]. simpl.
  destruct (String.eqb_spec k0 k) as [-> | Hne].
  - f_equal. clear IH Hk Hnd.
    induction keys as [|k1 keys IH]; [reflexivity|]. simpl.
    destruct (String.eqb_spec k k1) as [-> | _].
    + exfalso. apply Hk'. left.
    + apply IH. intros H. apply Hk'. right. exact H.
  - apply IH; [exact Hnd|].
    apply elem_of_cons in Hk as [Hk | Hk]; [contradiction | exact Hk].
Qed.

Lemma list_sum_add {A} (f g : A -> nat) (l : list A) :
  list_sum (map (fun a => (f a + g a)%nat) l)
  = (list_sum (map f l) + list_sum (map g l))%nat.
Proof.
  induction l as [|a l IH]; simpl; [reflexivity|]. rewrite IH. lia.
Qed.

Lemma length_le_list_sum {A} (f : A -> nat) (l : list A) :
  (forall a, In a l -> (1 <= f a)%nat) ->
  (length l <= list_sum (map f l))%nat.
Proof.
  induction l as [|a l IH]; intros H; simpl; [lia|].
  pose proof (H a (or_introl eq_refl)) as Ha.
  assert (length l <= list_sum (map f l))%nat
    by (apply IH; intros b Hb; apply H; right; exact Hb).
  lia.
Qed.

Lemma keyGroup_sizes (ms : list Medal) (keys : list string) :
  NoDup keys -> (forall m, In m ms -> linkKey m ∈ keys) ->
  list_sum (map (fun k => length (keyGroup ms k)) keys) = length ms.
Proof.
  intros Hnd. induction ms as [|m ms IH]; intros Hkeys.
  - clear Hnd Hkeys. induction keys as [|k keys IHk]; [reflexivity | exact IHk].
  - assert (Hstep : forall k, length (keyGroup (m :: ms) k)
                      = ((if String.eqb (linkKey m) k then 1 else 0)
                         + length (keyGroup ms k))%nat).
    { intros k. unfold keyGroup. simpl.
      destruct (String.eqb (linkKey m) k); reflexivity. }
    rewrite (map_ext _ _ Hstep), list_sum_add.
    rewrite one_key_among; [|exact Hnd | apply Hkeys; left; reflexivity].
    rewrite IH; [reflexivity|]. intros m' Hm'. apply Hkeys. right. exact Hm'.
Qed.

Lemma totalCount_groups (ms : list Medal) (keys : list string) :
  totalCount (map (fun k => toLink (k, aggOf (keyGroup ms k))) keys)
  = inject_Z (Z.of_nat (list_sum (map (fun k => length (keyGroup ms k)) keys))).
Proof.
  unfold totalCount. induction keys as [|k keys IH]; [reflexivity|].
  cbn [map fold_right list_sum]. rewrite IH.
  rewrite Nat2Z.inj_add, inject_Z_plus. reflexivity.
Qed.

(** X11: no record is lost or counted twice by the builder, whatever
    the fields hold: the counts of the edges of a built graph add up to
    the number of records, every count is a whole number of at least 1,
    and there are at most as many edges as records. *)
Theorem build_counts_add_up (ms : list Medal) :
  totalCount (links (build ms)) = inject_Z (Z.of_nat (length ms))
  /\ (forall l, In l (links (build ms)) ->
        exists n, (1 <= n)%nat /\ count l = Some (inject_Z (Z.of_nat n)))
  /\ (length (links (build ms)) <= length ms)%nat.
Proof.
  assert (Hsum : list_sum (map (fun k => length (keyGroup ms k))
                             (JS.set_from (map linkKey ms))) = length ms).
  { apply keyGroup_sizes; [apply set_from_NoDup|].
    intros m Hm. apply set_from_elem, list_elem_of_fmap.
    exists m. split; [reflexivity | apply list_elem_of_In, Hm]. }
  split; [|split].
  - rewrite build_groups_by_key, totalCount_groups, Hsum. reflexivity.
  - intros l Hl. exact (build_count_pos ms l Hl).
  - rewrite build_groups_by_key, length_map. rewrite <- Hsum.
    apply length_le_list_sum. intros k Hk.
    apply list_elem_of_In in Hk. rewrite set_from_elem in Hk.
    apply list_elem_of_fmap in Hk as (m & -> & Hm).
    apply keyGroup_self, list_elem_of_In, Hm.
Qed.

Lemma edgeTriple_edgeOf (t : string * string * string) (grp : list Medal) :
  edgeTriple (edgeOf t grp) = t.
Proof. destruct t as [[c d] m]. reflexivity. Qed.

(** X10: on records whose country, discipline and medal type hold no
    separator of the grouping key, the builder emits one edge per triple:
    the edges are, in the order in which the triples first occur, the
    edges of the groups, each with its triple, the size of its group as
    count and the names and events of its members in input order; no two
    edges carry the same triple, and every record is counted in the edge
    of its triple. *)
Theorem build_one_edge_per_triple (ms : list Medal) :
  pipeFree ms ->
  links (build ms)
  = map (fun t => edgeOf t (tripleGroup ms t)) (JS.set_from (map triple ms))
  /\ map edgeTriple (links (build ms)) = JS.set_from (map triple ms)
  /\ NoDup (map edgeTriple (links (build ms)))
  /\ (forall m, In m ms ->
        In m (tripleGroup ms (triple m))
        /\ In (edgeOf (triple m) (tripleGroup ms (triple m))) (links (build ms))).
Proof.
  intros Hfree. pose proof (build_groups_by_triple ms Hfree) as Hl.
  assert (Ht : map edgeTriple (links (build ms)) = JS.set_from (map triple ms)).
  { rewrite Hl, map_map. rewrite (map_ext _ id); [apply map_id|].
    intros t. apply edgeTriple_edgeOf. }
  split; [exact Hl|]. split; [exact Ht|]. split.
  - rewrite Ht. apply set_from_NoDup.
  - intros m Hm. split.
    + apply filter_In. split; [exact Hm | apply bool_decide_eq_true; reflexivity].
    + rewrite Hl. apply (in_map (fun t => edgeOf t (tripleGroup ms t))).
      apply list_elem_of_In, set_from_elem, list_elem_of_fmap.
      exists m. split; [reflexivity | apply list_elem_of_In, Hm].
Qed.

Lemma exampleRecords_pipeFree : pipeFree exampleRecords.
Proof.
  intros m Hm. simpl in Hm.
  destruct Hm as [<- | [<- | [<- | []]]]; repeat split.
Qed.

Lemma build_one_edge_per_triple_witness :
  map edgeTriple (links (build exampleRecords)) = [("A", "X", "win"); ("B", "X", "loss")].
Proof.
  destruct (build_one_edge_per_triple exampleRecords exampleRecords_pipeFree)
    as (_ & Ht & _).
  exact Ht.
Defined.

(** ** Degrees and radii of nodes *)

Lemma visibleDegree_filter_le (f : GraphLink -> bool) (ls : list GraphLink) (id : string) :
  (visibleDegree (List.filter f ls) id <= visibleDegree ls id)%nat.
Proof.
  unfold visibleDegree.
  rewrite (filter_comm (fun l => String.eqb (source l) id) f).
  rewrite (filter_comm (fun l => String.eqb (target l) id) f).
  pose proof (filter_length_le f (List.filter (fun l => String.eqb (source l) id) ls)).
  pose proof (filter_length_le f (List.filter (fun l => String.eqb (target l) id) ls)).
  lia.
Qed.

Lemma filteredLinks_minCount (ls : list GraphLink) (p1 p2 : FilterState) :
  sameExceptMinCount p1 p2 -> (minCount p1 <= minCount p2)%Q ->
  filteredLinks ls p2 = List.filter (keepLink p2) (filteredLinks ls p1).
Proof.
  intros Hsame Hle. unfold filteredLinks.
  induction ls as [|l ls IH]; simpl; [reflexivity|].
  destruct (keepLink p2 l) eqn:E2.
  - rewrite (keepLink_minCount_antitone p1 p2 l Hsame Hle E2). simpl.
    rewrite E2, IH. reflexivity.
  - destruct (keepLink p1 l); simpl; rewrite ?E2; exact IH.
Qed.

(** X7: raising the count threshold never raises the degree that the
    layout records for a node: for an id that is not the name of an
    inherited property, [degree[id] || 0] is the number of visible edge
    ends at the id, and when two settings agree except on [minCount] and
    the first threshold is at most the second, that number under the
    second setting is at most the number under the first. *)
Theorem minCount_shrinks_degrees (g : Graph) (p1 p2 : FilterState) (id : string) :
  sameExceptMinCount p1 p2 ->
  (minCount p1 <= minCount p2)%Q ->
  inherited id = false ->
  orZero (getProp (degreeOf (links (filterGraph g p1))) id)
  = VNumber (Z.of_nat (visibleDegree (links (filterGraph g p1)) id))
  /\ orZero (getProp (degreeOf (links (filterGraph g p2))) id)
     = VNumber (Z.of_nat (visibleDegree (links (filterGraph g p2)) id))
  /\ (visibleDegree (links (filterGraph g p2)) id
      <= visibleDegree (links (filterGraph g p1)) id)%nat.
Proof.
  intros Hsame Hle Hid. cbn [filterGraph links].
  split; [apply degreeOf_orZero, Hid|]. split; [apply degreeOf_orZero, Hid|].
  rewrite (filteredLinks_minCount (links g) p1 p2 Hsame Hle).
  apply visibleDegree_filter_le.
Qed.

Lemma minCount_shrinks_degrees_witness :
  orZero (getProp (degreeOf (links (filterGraph exampleGraph (exampleParams 1 true)))) "X")
  = VNumber 2
  /\ orZero (getProp (degreeOf (links (filterGraph exampleGraph (exampleParams 2 true)))) "X")
     = VNumber 1.
Proof.
  destruct (minCount_shrinks_degrees exampleGraph (exampleParams 1 true)
              (exampleParams 2 true) "X") as (H1 & H2 & _).
  - repeat split.
  - unfold Qle. simpl. lia.
  - reflexivity.
  - split; [exact H1 | exact H2].
Defined.

Lemma add_number_r (x : Num.number) (s : bool) (m : positive) (e : Z) :
  Num.isNaN x = false -> Num.isNaN (Num.add x (S754_finite s m e)) = false.
Proof.
  intros Hx. destruct x as [sx | sx | | sx mx ex]; try reflexivity; [discriminate Hx|].
  unfold Num.add, SFadd. apply binary_normalize_number.
Qed.

(** The radii are rounded as the program rounds them: a country of
    degree 7 has radius 15.600000000000001, the number next above
    15.6. *)
Lemma clampedAffine_rounds :
  clampedAffine country_t 7 = S754_finite false 8782019273372468 (-49).
Proof. vm_compute. reflexivity. Qed.

(** X8: the radius of a node whose id is not the name of an inherited
    property is the clamped affine function of its degree among the
    visible edges, computed with the program's numbers: base 10, slope
    0.8 and bounds 12 and 24 for a country, base 7, slope 0.6 and bounds 9
    and 18 for a discipline.  It is a number between the bounds of the
    category, whatever the degree, and the collision radius is that
    number plus 4. *)
Theorem radius_of_ordinary_id (fl : list GraphLink) (d : GraphNode) :
  inherited (node_id d) = false ->
  let k := visibleDegree fl (node_id d) in
  let r := nodeRadius (degreeOf fl) d in
  r = clampedAffine (node_type d) k
  /\ Num.isNaN r = false
  /\ Num.leb (radiusMin (node_type d)) r = true
  /\ Num.leb r (radiusMax (node_type d)) = true
  /\ collideRadius (degreeOf fl) d = Num.add (clampedAffine (node_type d) k) (Num.ofZ 4)
  /\ Num.isNaN (collideRadius (degreeOf fl) d) = false.
Proof.
  intros Hid k r. subst k r. unfold collideRadius.
  rewrite (nodeRadius_clampedAffine fl d Hid).
  destruct (clampedAffine_number (node_type d) (visibleDegree fl (node_id d)))
    as (Hn & Hlo & Hhi).
  split; [reflexivity|]. split; [exact Hn|]. split; [exact Hlo|]. split; [exact Hhi|].
  split; [reflexivity|].
  change (Num.ofZ 4) with (S754_finite false 4503599627370496 (-50)).
  apply add_number_r, Hn.
Qed.

Lemma radius_of_ordinary_id_witness :
  nodeRadius (degreeOf (links (filterGraph exampleGraph (exampleParams 1 true))))
    (disciplineNode "X")
  = clampedAffine discipline_t 2
  /\ clampedAffine discipline_t 2 = Num.ofZ 9.
Proof.
  split; [|vm_compute; reflexivity].
  apply (radius_of_ordinary_id (links (filterGraph exampleGraph (exampleParams 1 true)))
           (disciplineNode "X")).
  reflexivity.
Defined.

(** ** Frame of the drag handlers *)

Lemma dragStart_nodes (active i : nat) (s : D3.Simulation) :
  D3.nodes (dragStart active i s)
  = alter (fun d => setPin (Some (D3.x d)) (Some (D3.y d)) d) i (D3.nodes s).
Proof. unfold dragStart. destruct (active =? 0)%nat; reflexivity. Qed.

Lemma dragEnd_nodes (active i : nat) (s : D3.Simulation) :
  D3.nodes (dragEnd active i s) = alter (setPin None None) i (D3.nodes s).
Proof. unfold dragEnd. destruct (active =? 0)%nat; reflexivity. Qed.

Lemma alter_twice {A} (f g : A -> A) (i : nat) (l : list A) :
  alter f i (alter g i l) = alter (fun a => f (g a)) i l.
Proof.
  revert i. induction l as [|a l IH]; intros [|i]; simpl; try reflexivity.
  f_equal. apply IH.
Qed.

Lemma alter_pointwise {A} (f g : A -> A) (i : nat) (l : list A) :
  (forall a, f a = g a) -> alter f i l = alter g i l.
Proof.
  intros H. revert i. induction l as [|a l IH]; intros [|i]; simpl; try reflexivity.
  - rewrite H. reflexivity.
  - f_equal. apply IH.
Qed.

Lemma alter_fixed {A} (f : A -> A) (i : nat) (l : list A) :
  (forall a, l !! i = Some a -> f a = a) -> alter f i l = l.
Proof.
  revert i. induction l as [|a l IH]; intros [|i] H; simpl; try reflexivity.
  - f_equal. apply H. reflexivity.
  - f_equal. apply IH. exact H.
Qed.

Lemma dragMoves_nodes (i : nat) (moves : list (Q * Q)) (s : D3.Simulation) :
  D3.alpha (fold_left (fun s' xy => dragMove (fst xy) (snd xy) i s') moves s) = D3.alpha s
  /\ D3.alphaTarget (fold_left (fun s' xy => dragMove (fst xy) (snd xy) i s') moves s)
     = D3.alphaTarget s
  /\ D3.running (fold_left (fun s' xy => dragMove (fst xy) (snd xy) i s') moves s)
     = D3.running s
  /\ alter (setPin None None) i
       (D3.nodes (fold_left (fun s' xy => dragMove (fst xy) (snd xy) i s') moves s))
     = alter (setPin None None) i (D3.nodes s).
Proof.
  revert s. induction moves as [|[ex ey] moves IH]; intros s; simpl.
  - repeat split.
  - destruct (IH (dragMove ex ey i s)) as (Ha & Ht & Hr & Hn).
    rewrite Ha, Ht, Hr, Hn. repeat split.
    unfold dragMove, withNode. cbn [D3.nodes]. rewrite alter_twice.
    apply alter_pointwise. intros d. reflexivity.
Qed.

(** X14: a whole drag gesture without a tick in between leaves the
    nodes as they were: when the dragged node had no pin before
    pointer-down, then after pointer-up every node, the dragged one
    included, is as before the gesture, whatever the pointer moves
    were; the energy is unchanged, its target is zero and the timer
    runs. *)
Theorem dragGesture_restores_nodes (s : D3.Simulation) (i : nat) (moves : list (Q * Q)) :
  (forall d, D3.nodes s !! i = Some d -> D3.fx d = None /\ D3.fy d = None) ->
  D3.nodes (dragGesture i moves s) = D3.nodes s
  /\ D3.alpha (dragGesture i moves s) = D3.alpha s
  /\ D3.alphaTarget (dragGesture i moves s) = 0%Q
  /\ D3.running (dragGesture i moves s) = true.
Proof.
  intros Hfree. unfold dragGesture.
  destruct (dragMoves_nodes i moves (dragStart 0 i s)) as (Ha & Ht & Hr & Hn).
  split; [|split; [|split]].
  - rewrite dragEnd_nodes, Hn, dragStart_nodes, alter_twice.
    apply alter_fixed. intros d Hd. destruct (Hfree d Hd) as [Hx Hy].
    destruct d as [dat px py pvx pvy pfx pfy]. cbn in *. subst pfx pfy. reflexivity.
  - unfold dragEnd. cbn [Nat.eqb withNode D3.setAlphaTarget D3.alpha]. exact Ha.
  - reflexivity.
  - unfold dragEnd. cbn [Nat.eqb withNode D3.setAlphaTarget D3.running]. rewrite Hr.
    reflexivity.
Qed.

Lemma dragGesture_restores_nodes_witness :
  D3.nodes (dragGesture 0 [(7, 7); (8, 9)]%Q freshSim) = D3.nodes freshSim.
Proof.
  apply (dragGesture_restores_nodes freshSim 0 [(7, 7); (8, 9)]%Q).
  intros d Hd. injection Hd as <-. split; reflexivity.
Defined.

(** ** The athletes loader *)

Lemma split_noChar_sep (sep : ascii) (a b : string) :
  noChar sep a = true ->
  JS.split sep (a +:+ String sep b) = a :: JS.split sep b.
Proof.
  induction a as [|c a IH]; simpl; intros Ha.
  - rewrite Ascii.eqb_refl. reflexivity.
  - apply andb_true_iff in Ha as [Hc Ha]. apply negb_true_iff in Hc.
    rewrite Hc, (IH Ha). reflexivity.
Qed.

Lemma split_noChar (sep : ascii) (a : string) :
  noChar sep a = true -> JS.split sep a = [a].
Proof.
  induction a as [|c a IH]; simpl; intros Ha; [reflexivity|].
  apply andb_true_iff in Ha as [Hc Ha]. apply negb_true_iff in Hc.
  rewrite Hc, (IH Ha). reflexivity.
Qed.

Lemma noChar_app (c : ascii) (a b : string) :
  noChar c (a +:+ b) = noChar c a && noChar c b.
Proof.
  induction a as [|x a IH]; simpl; [reflexivity|].
  rewrite IH. apply andb_assoc.
Qed.

Lemma split_pieces_noChar (sep c : ascii) (s p : string) :
  In p (JS.split sep s) ->
  noChar sep p = true /\ (noChar c s = true -> noChar c p = true).
Proof.
  revert p. induction s as [|a s IH]; simpl; intros p Hp.
  - destruct Hp as [<- | []]. split; reflexivity.
  - destruct (Ascii.eqb a sep) eqn:Ea.
    + destruct Hp as [<- | Hp]; [split; reflexivity|].
      destruct (IH p Hp) as [H1 H2]. split; [exact H1|].
      intros Hc. apply andb_true_iff in Hc as [_ Hc]. exact (H2 Hc).
    + destruct (JS.split sep s) as [|q qs] eqn:Es.
      * destruct Hp as [<- | []]. simpl. rewrite Ea. split; [reflexivity|].
        intros Hc. apply andb_true_iff in Hc as [Hc _]. rewrite Hc. reflexivity.
      * destruct Hp as [<- | Hp].
        -- destruct (IH q (or_introl eq_refl)) as [H1 H2]. simpl. rewrite Ea, H1.
           split; [reflexivity|]. intros Hc.
           apply andb_true_iff in Hc as [Hc Hs]. rewrite Hc, (H2 Hs). reflexivity.
        -- destruct (IH p (or_intror Hp)) as [H1 H2]. split; [exact H1|].
           intros Hc. apply andb_true_iff in Hc as [_ Hc]. exact (H2 Hc).
Qed.

Lemma removeAll_noChar (c : ascii) (s : string) : noChar c (Str.removeAll c s) = true.
Proof.
  induction s as [|a s IH]; simpl; [reflexivity|].
  destruct (Ascii.eqb a c) eqn:Ea; [exact IH|]. simpl. rewrite Ea, IH. reflexivity.
Qed.

Lemma removeAll_app (c : ascii) (a b : string) :
  Str.removeAll c (a +:+ b) = Str.removeAll c a +:+ Str.removeAll c b.
Proof.
  induction a as [|x a IH]; simpl; [reflexivity|].
  destruct (Ascii.eqb x c); rewrite IH; reflexivity.
Qed.

Lemma removeAll_id (c : ascii) (s : string) :
  noChar c s = true -> Str.removeAll c s = s.
Proof.
  induction s as [|a s IH]; simpl; intros Hs; [reflexivity|].
  apply andb_true_iff in Hs as [Ha Hs]. apply negb_true_iff in Ha.
  rewrite Ha, (IH Hs). reflexivity.
Qed.

Lemma dropLastIf_app (c : ascii) (s : string) :
  Str.dropLastIf c (s +:+ String c EmptyString) = s.
Proof.
  induction s as [|a s IH]; simpl; [rewrite Ascii.eqb_refl; reflexivity|].
  destruct (s +:+ String c EmptyString) as [|b t] eqn:E.
  - destruct s; discriminate E.
  - rewrite IH. reflexivity.
Qed.

Lemma trimStart_noChar (c : ascii) (s : string) :
  noChar c s = true -> noChar c (Str.trimStart s) = true.
Proof.
  induction s as [|a s IH]; simpl; intros Hs; [reflexivity|].
  destruct (Str.isWhiteSpace a); [|exact Hs].
  apply andb_true_iff in Hs as [_ Hs]. exact (IH Hs).
Qed.

Lemma trimEnd_noChar (c : ascii) (s : string) :
  noChar c s = true -> noChar c (Str.trimEnd s) = true.
Proof.
  induction s as [|a s IH]; simpl; intros Hs; [reflexivity|].
  apply andb_true_iff in Hs as [Ha Hs]. specialize (IH Hs).
  destruct (Str.trimEnd s) as [|b t].
  - destruct (Str.isWhiteSpace a); [reflexivity|]. simpl. rewrite Ha. reflexivity.
  - simpl in *. rewrite Ha, IH. reflexivity.
Qed.

Lemma trimEnd_idem (s : string) : Str.trimEnd (Str.trimEnd s) = Str.trimEnd s.
Proof.
  induction s as [|a s IH]; simpl; [reflexivity|].
  destruct (Str.trimEnd s) as [|b t] eqn:E.
  - destruct (Str.isWhiteSpace a) eqn:Ea; [reflexivity|]. simpl. rewrite Ea. reflexivity.
  - change (Str.trimEnd (String a (String b t)))
      with (match Str.trimEnd (String b t) with
            | EmptyString => if Str.isWhiteSpace a then EmptyString else String a EmptyString
            | String c' t' => String a (String c' t')
            end).
    rewrite IH. reflexivity.
Qed.

(** A string that is empty or starts with a character that is no white
    space is left alone by [trimStart], also after [trimEnd]. *)
Lemma trimStart_head (s : string) :
  match Str.trimStart s with
  | EmptyString => True
  | String c _ => Str.isWhiteSpace c = false
  end.
Proof.
  induction s as [|a s IH]; simpl; [exact I|].
  destruct (Str.isWhiteSpace a) eqn:Ea; [exact IH | exact Ea].
Qed.

Lemma trimStart_trimEnd (s : string) :
  match s with
  | EmptyString => True
  | String c _ => Str.isWhiteSpace c = false
  end ->
  Str.trimStart (Str.trimEnd s) = Str.trimEnd s.
Proof.
  destruct s as [|a s]; [reflexivity|]. intros Ha.
  assert (H : exists t, Str.trimEnd (String a s) = String a t).
  { simpl. destruct (Str.trimEnd s); [rewrite Ha|]; eexists; reflexivity. }
  destruct H as (t & ->). simpl. rewrite Ha. reflexivity.
Qed.

Lemma trim_idem (s : string) : Str.trim (Str.trim s) = Str.trim s.
Proof.
  unfold Str.trim.
  rewrite (trimStart_trimEnd (Str.trimStart s) (trimStart_head s)).
  apply trimEnd_idem.
Qed.

Lemma trim_noChar (c : ascii) (s : string) :
  noChar c s = true -> noChar c (Str.trim s) = true.
Proof. intros H. apply trimEnd_noChar, trimStart_noChar, H. Qed.

(** X16: the disciplines that the loader computes from a text are
    clean: each is non-empty, holds neither comma nor quote and has no
    white space at its ends; an empty text and a value that is neither
    text nor array give no discipline, and an array is passed on as it
    is. *)
Theorem parseDisciplines_clean (s : string) :
  (forall d, In d (parseDisciplines (RawText s)) ->
     d <> EmptyString /\ noChar ","%char d = true /\ noChar "'"%char d = true
     /\ Str.trim d = d)
  /\ parseDisciplines (RawText EmptyString) = []
  /\ parseDisciplines RawOther = []
  /\ (forall items, parseDisciplines (RawArray items) = items).
Proof.
  split; [|repeat split].
  intros d Hd. unfold parseDisciplines in Hd.
  destruct (0 <? String.length s)%nat; [|destruct Hd].
  apply filter_In in Hd as [Hd Hne].
  apply in_map_iff in Hd as (piece & <- & Hp).
  pose proof (split_pieces_noChar ","%char "'"%char _ _ Hp) as [Hcomma Hquote].
  specialize (Hquote (removeAll_noChar _ _)).
  split; [|split; [|split]].
  - intros He. rewrite He in Hne. discriminate Hne.
  - apply trim_noChar, Hcomma.
  - apply trim_noChar, Hquote.
  - apply trim_idem.
Qed.

Lemma removeAll_quoted (n : string) :
  noChar "'"%char n = true -> Str.removeAll "'"%char (quoted n) = n.
Proof.
  intros Hn. unfold quoted. rewrite !removeAll_app, (removeAll_id _ _ Hn).
  cbn [Str.removeAll Ascii.eqb Bool.eqb String.append].
  clear Hn. change ("" +:+ n +:+ "") with (n +:+ "").
  induction n as [|a n IH]; [reflexivity|].
  change (String a n +:+ "") with (String a (n +:+ "")). f_equal. exact IH.
Qed.

Lemma removeAll_join_quoted (names : list string) :
  (forall n, In n names -> noChar "'"%char n = true) ->
  Str.removeAll "'"%char (JS.join ", " (map quoted names)) = JS.join ", " names.
Proof.
  induction names as [|n names IH]; intros H; [reflexivity|].
  destruct names as [|n' names].
  - simpl. apply removeAll_quoted, H. left. reflexivity.
  - change (JS.join ", " (map quoted (n :: n' :: names)))
      with (quoted n +:+ ", " +:+ JS.join ", " (map quoted (n' :: names))).
    rewrite !removeAll_app, removeAll_quoted by (apply H; left; reflexivity).
    rewrite IH by (intros m Hm; apply H; right; exact Hm).
    reflexivity.
Qed.

Lemma append_assoc3 (a b c : string) : (a +:+ b) +:+ c = a +:+ b +:+ c.
Proof.
  induction a as [|x a IH]; [reflexivity|].
  change ((String x a +:+ b) +:+ c) with (String x ((a +:+ b) +:+ c)).
  change (String x a +:+ b +:+ c) with (String x (a +:+ b +:+ c)).
  f_equal. exact IH.
Qed.

Lemma split_join (pre : string) (n : string) (names : list string) :
  noChar ","%char pre = true ->
  (forall m, In m (n :: names) -> noChar ","%char m = true) ->
  JS.split ","%char (pre +:+ JS.join ", " (n :: names))
  = (pre +:+ n) :: map (fun m => " " +:+ m) names.
Proof.
  revert pre n. induction names as [|n' names IH]; intros pre n Hpre H.
  - simpl. apply split_noChar. rewrite noChar_app, Hpre.
    apply H. left. reflexivity.
  - change (JS.join ", " (n :: n' :: names))
      with (n +:+ String ","%char (" " +:+ JS.join ", " (n' :: names))).
    assert (Happ : pre +:+ n +:+ String ","%char (" " +:+ JS.join ", " (n' :: names))
                   = (pre +:+ n) +:+ String ","%char (" " +:+ JS.join ", " (n' :: names))).
    { symmetry. apply append_assoc3. }
    rewrite Happ, split_noChar_sep.
    + f_equal. rewrite (IH " " n'); [reflexivity | reflexivity |].
      intros m Hm. apply H. right. exact Hm.
    + rewrite noChar_app, Hpre. apply H. left. reflexivity.
Qed.

Lemma trim_space (n : string) : Str.trim (" " +:+ n) = Str.trim n.
Proof. reflexivity. Qed.

(** X15: the loader reads back the list that a text of the form
    ['n1', 'n2', ...] stands for: for names that are not empty, hold
    neither comma nor quote and have no white space at their ends, the
    disciplines computed from the text are exactly the names, in order;
    the text [[]] gives no discipline. *)
Theorem parseDisciplines_listText (names : list string) :
  (forall n, In n names -> plainName n) ->
  parseDisciplines (RawText (listText names)) = names.
Proof.
  intros Hplain. unfold parseDisciplines, listText.
  change (0 <? String.length ("[" +:+ JS.join ", " (map quoted names) +:+ "]"))%nat
    with true. cbv iota.
  change (Str.dropFirstIf "["%char ("[" +:+ JS.join ", " (map quoted names) +:+ "]"))
    with (JS.join ", " (map quoted names) +:+ String "]"%char EmptyString).
  rewrite dropLastIf_app, removeAll_join_quoted by (intros n Hn; apply Hplain, Hn).
  destruct names as [|n names]; [reflexivity|].
  change (JS.join ", " (n :: names)) with ("" +:+ JS.join ", " (n :: names)).
  rewrite split_join; [|reflexivity | intros m Hm; apply Hplain, Hm].
  change ("" +:+ n) with n. cbn [map]. rewrite map_map.
  assert (Htrim : forall m, In m (n :: names) -> Str.trim m = m /\ JS.truthy m = true).
  { intros m Hm. destruct (Hplain m Hm) as (Hne & _ & _ & Ht).
    split; [exact Ht | apply truthy_nonempty, Hne]. }
  destruct (Htrim n (or_introl eq_refl)) as [Hn1 Hn2].
  cbn [List.filter]. rewrite Hn1, Hn2. f_equal.
  assert (Hrest : forall m, In m names -> Str.trim m = m /\ JS.truthy m = true)
    by (intros m Hm; apply Htrim; right; exact Hm).
  clear -Hrest. induction names as [|m names IH]; [reflexivity|].
  cbn [map List.filter]. rewrite trim_space.
  destruct (Hrest m (or_introl eq_refl)) as [H1 H2]. rewrite H1, H2. f_equal.
  apply IH. intros m' Hm'. apply Hrest. right. exact Hm'.
Qed.

Lemma parseDisciplines_listText_witness :
  parseDisciplines (RawText "['Athletics', 'Beach Volleyball']")
  = ["Athletics"; "Beach Volleyball"].
Proof.
  apply (parseDisciplines_listText ["Athletics"; "Beach Volleyball"]).
  intros n Hn. simpl in Hn.
  destruct Hn as [<- | [<- | []]]; repeat split; discriminate.
Defined.

(** ** Counting maps and sorting *)

Lemma ctr_get_map (g : string -> Q) (keys : list string) (k : string) :
  Lib.get k (map (fun k' => (k', g k')) keys)
  = if bool_decide (k ∈ keys) then Some (g k) else None.
Proof.
  induction keys as [|k' keys IH]; simpl; [reflexivity|].
  destruct (String.eqb_spec k k') as [-> | Hne].
  - rewrite bool_decide_eq_true_2 by left. reflexivity.
  - rewrite IH. do 2 case_bool_decide; try reflexivity.
    + exfalso. apply H0. right. exact H.
    + exfalso. apply elem_of_cons in H0 as [? | ?]; [exact (Hne H0) | exact (H H0)].
Qed.

Lemma ctr_set_present (g : string -> Q) (keys : list string) (k : string) (v : Q) :
  NoDup keys -> k ∈ keys ->
  Lib.set k v (map (fun k' => (k', g k')) keys)
  = map (fun k' => (k', if String.eqb k k' then v else g k')) keys.
Proof.
  induction keys as [|k' keys IH]; simpl; intros Hnd Hk; [inversion Hk|].
  apply NoDup_cons in Hnd as [Hk' Hnd].
  destruct (String.eqb_spec k k') as [-> | Hne].
  - f_equal. apply map_ext_in. intros k Hin.
    destruct (String.eqb_spec k' k) as [-> | _]; [|reflexivity].
    exfalso. apply Hk', list_elem_of_In, Hin.
  - f_equal. apply IH; [exact Hnd|].
    apply elem_of_cons in Hk as [Hk | Hk]; [contradiction | exact Hk].
Qed.

Lemma ctr_set_absent (g : string -> Q) (keys : list string) (k : string) (v : Q) :
  k ∉ keys ->
  Lib.set k v (map (fun k' => (k', g k')) keys)
  = map (fun k' => (k', g k')) keys ++ [(k, v)].
Proof.
  induction keys as [|k' keys IH]; simpl; intros Hk; [reflexivity|].
  destruct (String.eqb_spec k k') as [-> | Hne].
  - exfalso. apply Hk. left.
  - f_equal. apply IH. intros H. apply Hk. right. exact H.
Qed.

Lemma occurrences_snoc (k k' : string) (keys : list string) :
  occurrences k (keys ++ [k'])
  = (occurrences k keys + if String.eqb k k' then 1 else 0)%nat.
Proof.
  unfold occurrences. rewrite List.filter_app, length_app. simpl.
  destruct (String.eqb k k'); reflexivity.
Qed.

Lemma occurrences_absent (k : string) (keys : list string) :
  k ∉ keys -> occurrences k keys = 0%nat.
Proof.
  intros Hk. unfold occurrences. rewrite filter_all_false; [reflexivity|].
  intros k' Hk'. destruct (String.eqb_spec k k') as [-> | _]; [|reflexivity].
  exfalso. apply Hk, list_elem_of_In, Hk'.
Qed.

Lemma occurrences_present (k : string) (keys : list string) :
  k ∈ keys <-> (1 <= occurrences k keys)%nat.
Proof.
  split.
  - intros Hk. unfold occurrences.
    assert (Hin : In k (List.filter (String.eqb k) keys)).
    { apply filter_In. split; [apply list_elem_of_In, Hk | apply String.eqb_refl]. }
    destruct (List.filter (String.eqb k) keys); [destruct Hin | simpl; lia].
  - intros Hocc. destruct (decide (k ∈ keys)) as [Hk | Hk]; [exact Hk|].
    rewrite (occurrences_absent k keys Hk) in Hocc. lia.
Qed.

(** A counting map holds every key once, in the order of first
    occurrence, with the number of its occurrences. *)
Lemma tally_spec (keys : list string) :
  ParallelSets.tally keys
  = map (fun k => (k, inject_Z (Z.of_nat (occurrences k keys)))) (JS.set_from keys).
Proof.
  induction keys as [|k keys IH] using rev_ind; [reflexivity|].
  unfold ParallelSets.tally in *. rewrite fold_left_app. simpl.
  rewrite set_from_snoc, IH. unfold Lib.bump. rewrite ctr_get_map.
  unfold JS.set_add. case_bool_decide as Hk.
  - rewrite ctr_set_present; [|apply set_from_NoDup | exact Hk].
    apply map_ext_in. intros k' Hk'. f_equal. rewrite occurrences_snoc.
    destruct (String.eqb_spec k k') as [<- | Hne].
    + rewrite String.eqb_refl. cbn [default]. unfold id.
      rewrite degree_succ, Nat.add_1_r. reflexivity.
    + destruct (String.eqb_spec k' k) as [-> | _]; [contradiction|].
      rewrite Nat.add_0_r. reflexivity.
  - rewrite ctr_set_absent by exact Hk. rewrite map_app. simpl. f_equal.
    + apply map_ext_in. intros k' Hk'. f_equal. rewrite occurrences_snoc.
      destruct (String.eqb_spec k' k) as [-> | _].
      * exfalso. apply Hk, list_elem_of_In, Hk'.
      * rewrite Nat.add_0_r. reflexivity.
    + rewrite occurrences_snoc, String.eqb_refl.
      rewrite set_from_elem in Hk. rewrite (occurrences_absent k keys Hk).
      reflexivity.
Qed.

Lemma insert_perm {A} (cmp : A -> A -> Q) (x : A) (l : list A) :
  Permutation (Lib.insert cmp x l) (x :: l).
Proof.
  induction l as [|y l IH]; simpl; [reflexivity|].
  destruct (Qle_bool (cmp x y) 0); [reflexivity|].
  rewrite IH. apply perm_swap.
Qed.

Lemma sort_perm {A} (cmp : A -> A -> Q) (l : list A) :
  Permutation (Lib.sort cmp l) l.
Proof.
  induction l as [|x l IH]; simpl; [reflexivity|].
  change (Permutation (Lib.insert cmp x (Lib.sort cmp l)) (x :: l)).
  rewrite insert_perm, IH. reflexivity.
Qed.

Lemma insert_sorted (x : string * Q) (l : list (string * Q)) :
  StronglySorted countGe l ->
  StronglySorted countGe (Lib.insert ParallelSets.byCountDesc x l).
Proof.
  induction l as [|y l IH]; intros Hs; simpl.
  - constructor; [constructor | constructor].
  - apply StronglySorted_inv in Hs as [Hs Hy].
    destruct (Qle_bool (ParallelSets.byCountDesc x y) 0) eqn:E.
    + apply Qle_bool_iff in E. unfold ParallelSets.byCountDesc in E.
      assert (Hxy : countGe x y) by (unfold countGe; lra).
      constructor; [constructor; assumption|].
      constructor; [exact Hxy|].
      eapply Forall_impl; [exact Hy|]. intros z Hz. unfold countGe in *. lra.
    + assert (Hyx : countGe y x).
      { unfold countGe. destruct (Qlt_le_dec (snd y) (snd x)) as [Hlt | Hle]; [|exact Hle].
        exfalso. assert (Hle : (ParallelSets.byCountDesc x y <= 0)%Q)
          by (unfold ParallelSets.byCountDesc; lra).
        apply Qle_bool_iff in Hle. congruence. }
      constructor; [apply IH, Hs|].
      apply Forall_forall. intros z Hz.
      apply list_elem_of_In in Hz.
      apply (Permutation_in _ (insert_perm ParallelSets.byCountDesc x l)) in Hz.
      destruct Hz as [<- | Hz]; [exact Hyx|].
      rewrite Forall_forall in Hy. apply Hy, list_elem_of_In, Hz.
Qed.

Lemma sort_sorted (l : list (string * Q)) :
  StronglySorted countGe (Lib.sort ParallelSets.byCountDesc l).
Proof.
  induction l as [|x l IH]; [constructor|].
  apply insert_sorted, IH.
Qed.

(** ** The ranking of the countries and the athletes that pass *)

Lemma StronglySorted_map {A B} (R : A -> A -> Prop) (R' : B -> B -> Prop)
    (f : A -> B) (l : list A) :
  (forall x y, In x l -> In y l -> R x y -> R' (f x) (f y)) ->
  StronglySorted R l -> StronglySorted R' (map f l).
Proof.
  induction l as [|a l IH]; intros HR Hs; [constructor|].
  apply StronglySorted_inv in Hs as [Hs Ha]. simpl. constructor.
  - apply IH; [|exact Hs]. intros x y Hx Hy. apply HR; right; assumption.
  - rewrite Forall_forall in Ha. apply Forall_forall. intros b Hb.
    apply list_elem_of_In, in_map_iff in Hb as (y & <- & Hy).
    apply HR; [left; reflexivity | right; exact Hy | apply Ha, list_elem_of_In, Hy].
Qed.

Lemma StronglySorted_app_order {A} (R : A -> A -> Prop) (l1 l2 : list A) :
  StronglySorted R (l1 ++ l2) ->
  forall x y, In x l1 -> In y l2 -> R x y.
Proof.
  induction l1 as [|a l1 IH]; intros Hs x y Hx Hy; [destruct Hx|].
  simpl in Hs. apply StronglySorted_inv in Hs as [Hs Ha].
  destruct Hx as [<- | Hx].
  - rewrite Forall_forall in Ha. apply Ha, list_elem_of_In, in_or_app. right. exact Hy.
  - exact (IH Hs x y Hx Hy).
Qed.

Lemma ranked_entries (keys : list string) :
  let es := Lib.sort ParallelSets.byCountDesc (ParallelSets.tally keys) in
  Permutation (map fst es) (JS.set_from keys)
  /\ StronglySorted countGe es
  /\ (forall e, In e es -> snd e = inject_Z (Z.of_nat (occurrences (fst e) keys))).
Proof.
  intros es. subst es.
  pose proof (sort_perm ParallelSets.byCountDesc (ParallelSets.tally keys)) as Hp.
  split; [|split].
  - rewrite Hp, tally_spec, map_map. cbn [fst]. rewrite map_id. reflexivity.
  - apply sort_sorted.
  - intros e He. apply (Permutation_in _ Hp) in He.
    rewrite tally_spec in He. apply in_map_iff in He as (k & <- & _). reflexivity.
Qed.

Lemma ranking_spec (keys : list string) :
  let ranking := map fst (Lib.sort ParallelSets.byCountDesc (ParallelSets.tally keys)) in
  NoDup ranking
  /\ (forall k, In k ranking <-> In k keys)
  /\ StronglySorted (fun k1 k2 => (occurrences k2 keys <= occurrences k1 keys)%nat) ranking.
Proof.
  intros ranking. subst ranking.
  destruct (ranked_entries keys) as (Hp & Hs & Hv).
  split; [|split].
  - rewrite Hp. apply set_from_NoDup.
  - intros k. split; intros Hk.
    + apply (Permutation_in _ Hp) in Hk.
      apply list_elem_of_In in Hk. rewrite set_from_elem in Hk.
      apply list_elem_of_In, Hk.
    + apply (Permutation_in _ (Permutation_sym Hp)).
      apply list_elem_of_In, set_from_elem, list_elem_of_In, Hk.
  - apply (StronglySorted_map countGe); [|exact Hs].
    intros x y Hx Hy Hxy. unfold countGe in Hxy.
    rewrite (Hv x Hx), (Hv y Hy) in Hxy. rewrite <- Zle_Qle in Hxy. lia.
Qed.

Lemma countries_ranked_aux (athletes : list ParallelSets.AthleteRec) :
  (forall c, In c (ParallelSets.countries athletes) <->
             exists a, In a athletes /\ ParallelSets.country a = c)
  /\ StronglySorted (fun c1 c2 => (athletesOf athletes c2 <= athletesOf athletes c1)%nat)
       (ParallelSets.countries athletes).
Proof.
  destruct (ranking_spec (map ParallelSets.country athletes)) as (_ & Hin & Hs).
  split; [|exact Hs].
  intros c. unfold ParallelSets.countries. rewrite Hin, in_map_iff.
  split; intros (a & H1 & H2); exists a; split; assumption.
Qed.

(** X17: the country list of the chart holds every country of the
    athletes exactly once, and a country with more athletes stands
    before every country with fewer. *)
Theorem countries_ranked (athletes : list ParallelSets.AthleteRec) :
  NoDup (ParallelSets.countries athletes)
  /\ (forall c, In c (ParallelSets.countries athletes) <->
                exists a, In a athletes /\ ParallelSets.country a = c)
  /\ StronglySorted (fun c1 c2 => (athletesOf athletes c2 <= athletesOf athletes c1)%nat)
       (ParallelSets.countries athletes).
Proof.
  destruct (ranking_spec (map ParallelSets.country athletes)) as (Hnd & _ & _).
  destruct (countries_ranked_aux athletes) as (Hin & Hs).
  split; [exact Hnd|]. split; [exact Hin | exact Hs].
Qed.

Lemma filtered_all (athletes : list ParallelSets.AthleteRec) (n : nat) :
  ParallelSets.filtered athletes "__ALL__" n
  = List.filter
      (fun a => bool_decide (ParallelSets.country a
                             ∈ take n (ParallelSets.countries athletes)))
      athletes.
Proof.
  unfold ParallelSets.filtered. destruct athletes as [|a athletes]; [reflexivity|].
  cbn [length Nat.eqb String.eqb negb]. simpl (negb _).
  apply filter_ext_on. intros b _.
  apply bool_decide_ext. apply elem_of_list_to_set.
Qed.

Lemma filtered_one (athletes : list ParallelSets.AthleteRec) (selected : string) (n : nat) :
  selected <> "__ALL__" ->
  ParallelSets.filtered athletes selected n
  = List.filter (fun a => String.eqb (ParallelSets.country a) selected) athletes.
Proof.
  intros Hne. unfold ParallelSets.filtered.
  destruct athletes as [|a athletes]; [reflexivity|]. cbn [length Nat.eqb].
  destruct (String.eqb_spec selected "__ALL__") as [He | _]; [contradiction | reflexivity].
Qed.

(** X18: the athletes that pass the country control.  They are a
    subsequence of the athletes.  With a country selected they are the
    athletes of that country.  With no country selected they are the
    athletes of the first [topCountries] countries of the ranking: a
    country that passes has at least as many athletes as any country
    that does not, and nobody is dropped when [topCountries] is at least
    the number of countries. *)
Theorem filtered_top_countries (athletes : list ParallelSets.AthleteRec)
    (selected : string) (n : nat) :
  sublist (ParallelSets.filtered athletes selected n) athletes
  /\ (selected <> "__ALL__" ->
      forall a, In a (ParallelSets.filtered athletes selected n) <->
                In a athletes /\ ParallelSets.country a = selected)
  /\ (forall a b,
        In a (ParallelSets.filtered athletes "__ALL__" n) ->
        In b athletes -> ~ In b (ParallelSets.filtered athletes "__ALL__" n) ->
        (athletesOf athletes (ParallelSets.country b)
         <= athletesOf athletes (ParallelSets.country a))%nat)
  /\ ((length (ParallelSets.countries athletes) <= n)%nat ->
      ParallelSets.filtered athletes "__ALL__" n = athletes).
Proof.
  destruct (countries_ranked_aux athletes) as (Hin & Hs).
  split; [|split; [|split]].
  - destruct (String.eqb_spec selected "__ALL__") as [-> | Hne].
    + rewrite filtered_all. apply filter_sublist.
    + rewrite (filtered_one _ _ _ Hne). apply filter_sublist.
  - intros Hne a. rewrite (filtered_one _ _ _ Hne), filter_In.
    split; intros [H1 H2]; (split; [exact H1|]); apply String.eqb_eq; exact H2.
  - intros a b Ha Hb Hnb. rewrite filtered_all in Ha, Hnb.
    apply filter_In in Ha as [Ha Hka]. apply bool_decide_eq_true in Hka.
    assert (Hkb : ParallelSets.country b ∉ take n (ParallelSets.countries athletes)).
    { intros Hk. apply Hnb, filter_In. split; [exact Hb|].
      apply bool_decide_eq_true, Hk. }
    assert (Hdb : In (ParallelSets.country b) (drop n (ParallelSets.countries athletes))).
    { assert (Hcb : In (ParallelSets.country b) (ParallelSets.countries athletes)).
      { apply Hin. exists b. split; [exact Hb | reflexivity]. }
      rewrite <- (take_drop n (ParallelSets.countries athletes)) in Hcb.
      apply in_app_or in Hcb as [Hcb | Hcb]; [|exact Hcb].
      exfalso. apply Hkb, list_elem_of_In, Hcb. }
    rewrite <- (take_drop n (ParallelSets.countries athletes)) in Hs.
    apply (StronglySorted_app_order _ _ _ Hs); [apply list_elem_of_In, Hka | exact Hdb].
  - intros Hn. rewrite filtered_all, take_ge by exact Hn.
    apply filter_all_true. intros a Ha. apply bool_decide_eq_true, list_elem_of_In, Hin.
    exists a. split; [exact Ha | reflexivity].
Qed.

Lemma filtered_top_countries_witness :
  ParallelSets.filtered exampleAthletes "__ALL__" 5 = exampleAthletes
  /\ (forall a, In a (ParallelSets.filtered exampleAthletes "USA" 5) <->
                In a exampleAthletes /\ ParallelSets.country a = "USA").
Proof.
  destruct (filtered_top_countries exampleAthletes "USA" 5) as (_ & Hone & _ & Hall).
  split.
  - apply Hall. vm_compute. lia.
  - apply Hone. discriminate.
Defined.

(** ** The Sankey chart *)

Lemma splitOn_length_pos (sep s : string) (skip : nat) :
  (1 <= length (Lib.splitOn sep s skip))%nat.
Proof.
  revert skip. induction s as [|c s IH]; intros skip; simpl; [lia|].
  destruct skip as [|k]; [|apply IH].
  destruct (Lib.startsWith sep (String c s)); [simpl; lia|].
  pose proof (IH 0%nat). destruct (Lib.splitOn sep s 0); simpl in *; lia.
Qed.

Lemma startsWith_app (sep b : string) : Lib.startsWith sep (sep +:+ b) = true.
Proof.
  induction sep as [|c sep IH]; [reflexivity|].
  change (String c sep +:+ b) with (String c (sep +:+ b)). simpl.
  rewrite Ascii.eqb_refl, IH. reflexivity.
Qed.

(** A key that holds the separator splits into at least two pieces, so
    both variables of the destructuring in [pushLink] are bound. *)
Lemma splitOn_two (sep a b : string) :
  sep <> EmptyString ->
  (2 <= length (Lib.splitOn sep (a +:+ sep +:+ b) 0))%nat.
Proof.
  intros Hsep. induction a as [|x a IH].
  - change ("" +:+ sep +:+ b) with (sep +:+ b).
    pose proof (startsWith_app sep b) as Hs.
    destruct sep as [|c sep]; [contradiction|].
    change (String c sep +:+ b) with (String c (sep +:+ b)) in *.
    cbn [Lib.splitOn]. rewrite Hs.
    pose proof (splitOn_length_pos (String c sep) (sep +:+ b)
                  (String.length (String c sep) - 1)) as Hp.
    rewrite length_cons. lia.
  - change (String x a +:+ sep +:+ b) with (String x (a +:+ sep +:+ b)).
    cbn [Lib.splitOn].
    destruct (Lib.startsWith sep (String x (a +:+ sep +:+ b))).
    + pose proof (splitOn_length_pos sep (a +:+ sep +:+ b) (String.length sep - 1)) as Hp.
      rewrite length_cons. lia.
    + destruct (Lib.splitOn sep (a +:+ sep +:+ b) 0); simpl in *; lia.
Qed.

Lemma getIndex_spec (nm : string) (t : ParallelSets.NodeTable) :
  tableOk t ->
  tableOk (snd (ParallelSets.getIndex nm t))
  /\ ParallelSets.nodesArr (snd (ParallelSets.getIndex nm t))
       !! fst (ParallelSets.getIndex nm t) = Some {| ParallelSets.name := nm |}
  /\ (ParallelSets.nodesArr (snd (ParallelSets.getIndex nm t)) = ParallelSets.nodesArr t
      \/ (ParallelSets.nodesArr (snd (ParallelSets.getIndex nm t))
            = ParallelSets.nodesArr t ++ [{| ParallelSets.name := nm |}]
          /\ fst (ParallelSets.getIndex nm t) = length (ParallelSets.nodesArr t))).
Proof.
  intros Hok. unfold ParallelSets.getIndex.
  destruct (ParallelSets.nodeMap t !! nm) as [i|] eqn:Hm; cbn [fst snd].
  - split; [exact Hok|]. split; [apply Hok, Hm | left; reflexivity].
  - cbn [ParallelSets.nodesArr ParallelSets.nodeMap]. split; [|split].
    + intros nm' i. cbn [ParallelSets.nodesArr ParallelSets.nodeMap].
      destruct (decide (nm = nm')) as [<- | Hne].
      * rewrite lookup_insert_eq. split.
        -- intros H. injection H as <-.
           rewrite lookup_app_r by lia. rewrite Nat.sub_diag. reflexivity.
        -- intros H. f_equal.
           destruct (decide (i < length (ParallelSets.nodesArr t))%nat) as [Hlt | Hge].
           ++ rewrite lookup_app_l in H by exact Hlt.
              apply Hok in H. congruence.
           ++ apply lookup_lt_Some in H. rewrite length_app in H. simpl in H. lia.
      * rewrite lookup_insert_ne by exact Hne. unfold tableOk in Hok.
        rewrite (Hok nm' i). split.
        -- intros H. rewrite lookup_app_l; [exact H|]. apply lookup_lt_Some in H. exact H.
        -- intros H.
           destruct (decide (i < length (ParallelSets.nodesArr t))%nat) as [Hlt | Hge].
           ++ rewrite lookup_app_l in H by exact Hlt. exact H.
           ++ rewrite lookup_app_r in H by lia.
              destruct (i - length (ParallelSets.nodesArr t))%nat; simpl in H;
                [injection H as H; contradiction | discriminate H].
    + rewrite lookup_app_r by lia. rewrite Nat.sub_diag. reflexivity.
    + right. split; reflexivity.
Qed.

Lemma linksOk_grow (ns : list ParallelSets.SankeyNode) (ls : list ParallelSets.SankeyLink)
    (i j : nat) (ns' : list ParallelSets.SankeyNode) (v : Q) :
  linksOk ns ls ->
  (i < length ns')%nat -> (j < length ns')%nat ->
  (length ns <= length ns')%nat ->
  (forall k, (length ns <= k < length ns')%nat -> k = i \/ k = j) ->
  linksOk ns' (ls ++ [{| ParallelSets.source := i; ParallelSets.target := j;
                         ParallelSets.value := v |}]).
Proof.
  intros [Hin Hused] Hi Hj Hle Hnew. split.
  - intros l Hl. apply in_app_or in Hl as [Hl | [<- | []]].
    + destruct (Hin l Hl). lia.
    + cbn. lia.
  - intros k Hk. destruct (decide (k < length ns)%nat) as [Hlt | Hge].
    + destruct (Hused k Hlt) as (l & Hl & He).
      exists l. split; [apply in_or_app; left; exact Hl | exact He].
    + eexists. split; [apply in_or_app; right; left; reflexivity|]. cbn.
      destruct (Hnew k ltac:(lia)) as [-> | ->]; [left | right]; reflexivity.
Qed.

Lemma pushLink_spec (acc : ParallelSets.NodeTable * list ParallelSets.SankeyLink)
    (entry : string * Q) :
  tableOk (fst acc) -> linksOk (ParallelSets.nodesArr (fst acc)) (snd acc) ->
  tableOk (fst (ParallelSets.pushLink acc entry))
  /\ linksOk (ParallelSets.nodesArr (fst (ParallelSets.pushLink acc entry)))
       (snd (ParallelSets.pushLink acc entry))
  /\ map ParallelSets.value (snd (ParallelSets.pushLink acc entry))
     = map ParallelSets.value (snd acc) ++ [snd entry].
Proof.
  intros Hok Hl. unfold ParallelSets.pushLink.
  set (parts := Lib.splitOn "|||" (fst entry) 0).
  pose proof (getIndex_spec (JS.destructure 0 parts) (fst acc) Hok) as (Hok1 & Hat1 & Hg1).
  destruct (ParallelSets.getIndex (JS.destructure 0 parts) (fst acc)) as [src t1].
  cbn [fst snd] in *.
  pose proof (getIndex_spec (JS.destructure 1 parts) t1 Hok1) as (Hok2 & Hat2 & Hg2).
  destruct (ParallelSets.getIndex (JS.destructure 1 parts) t1) as [tgt t2].
  cbn [fst snd] in *.
  split; [exact Hok2|]. split.
  - apply lookup_lt_Some in Hat2 as Htgt. apply lookup_lt_Some in Hat1 as Hsrc.
    assert (L1 : length (ParallelSets.nodesArr t1) = length (ParallelSets.nodesArr (fst acc))
                 \/ (length (ParallelSets.nodesArr t1)
                       = S (length (ParallelSets.nodesArr (fst acc)))
                     /\ src = length (ParallelSets.nodesArr (fst acc)))).
    { destruct Hg1 as [E | [E F]]; rewrite E; [left; reflexivity|].
      right. rewrite length_app. simpl. split; [lia | exact F]. }
    assert (L2 : length (ParallelSets.nodesArr t2) = length (ParallelSets.nodesArr t1)
                 \/ (length (ParallelSets.nodesArr t2) = S (length (ParallelSets.nodesArr t1))
                     /\ tgt = length (ParallelSets.nodesArr t1))).
    { destruct Hg2 as [E | [E F]]; rewrite E; [left; reflexivity|].
      right. rewrite length_app. simpl. split; [lia | exact F]. }
    apply (linksOk_grow (ParallelSets.nodesArr (fst acc))); [exact Hl | lia | exact Htgt | lia |].
    intros k Hk. lia.
  - rewrite map_app. reflexivity.
Qed.

Lemma pushLinks_spec (es : list (string * Q))
    (acc : ParallelSets.NodeTable * list ParallelSets.SankeyLink) :
  tableOk (fst acc) -> linksOk (ParallelSets.nodesArr (fst acc)) (snd acc) ->
  tableOk (fst (fold_left ParallelSets.pushLink es acc))
  /\ linksOk (ParallelSets.nodesArr (fst (fold_left ParallelSets.pushLink es acc)))
       (snd (fold_left ParallelSets.pushLink es acc))
  /\ map ParallelSets.value (snd (fold_left ParallelSets.pushLink es acc))
     = map ParallelSets.value (snd acc) ++ map snd es.
Proof.
  revert acc. induction es as [|e es IH]; intros acc Hok Hl; simpl.
  - rewrite app_nil_r. split; [exact Hok|]. split; [exact Hl | reflexivity].
  - destruct (pushLink_spec acc e Hok Hl) as (Hok' & Hl' & Hv').
    destruct (IH _ Hok' Hl') as (Hok'' & Hl'' & Hv'').
    split; [exact Hok''|]. split; [exact Hl''|].
    rewrite Hv'', Hv', <- app_assoc. reflexivity.
Qed.

Lemma tableOk_NoDup (t : ParallelSets.NodeTable) :
  tableOk t -> NoDup (map ParallelSets.name (ParallelSets.nodesArr t)).
Proof.
  intros Hok. apply NoDup_alt. intros i j nm Hi Hj.
  assert (Hnode : forall k, map ParallelSets.name (ParallelSets.nodesArr t) !! k = Some nm ->
                    ParallelSets.nodeMap t !! nm = Some k).
  { intros k Hk. apply Hok.
    change (map ParallelSets.name (ParallelSets.nodesArr t))
      with (ParallelSets.name <$> ParallelSets.nodesArr t) in Hk.
    rewrite list_lookup_fmap in Hk.
    destruct (ParallelSets.nodesArr t !! k) as [[nm']|]; [|discriminate Hk].
    simpl in Hk. injection Hk as ->. reflexivity. }
  apply Hnode in Hi, Hj. congruence.
Qed.

Lemma sankey_tables (filtered : list ParallelSets.AthleteRec)
    (topSports medalLookup : gset string) :
  let d := ParallelSets.sankey filtered topSports medalLookup in
  let fl := ParallelSets.flows filtered topSports medalLookup in
  NoDup (map ParallelSets.name (ParallelSets.nodes d))
  /\ linksOk (ParallelSets.nodes d) (ParallelSets.links d)
  /\ map ParallelSets.value (ParallelSets.links d) = map snd (fst fl) ++ map snd (snd fl).
Proof.
  intros d fl. subst d fl. unfold ParallelSets.sankey.
  destruct (ParallelSets.flows filtered topSports medalLookup) as [cs so].
  cbn [fst snd ParallelSets.nodes ParallelSets.links].
  set (start := ({| ParallelSets.nodeMap := ∅; ParallelSets.nodesArr := [] |},
                 @nil ParallelSets.SankeyLink)).
  assert (Hok0 : tableOk (fst start)).
  { intros nm i. cbn. rewrite lookup_empty. split; intros H; discriminate H. }
  assert (Hl0 : linksOk (ParallelSets.nodesArr (fst start)) (snd start)).
  { split; [intros l [] | intros i Hi; cbn in Hi; lia]. }
  destruct (pushLinks_spec cs start Hok0 Hl0) as (Hok1 & Hl1 & Hv1).
  destruct (pushLinks_spec so _ Hok1 Hl1) as (Hok2 & Hl2 & Hv2).
  split; [apply tableOk_NoDup, Hok2|]. split; [exact Hl2|].
  rewrite Hv2, Hv1. reflexivity.
Qed.

(** X19: the data of the chart are well formed for every input: no two
    nodes have the same name, every link ends at indices of the node
    array, and every node is an end of some link. *)
Theorem sankey_well_formed (filtered : list ParallelSets.AthleteRec)
    (topSports medalLookup : gset string) :
  let d := ParallelSets.sankey filtered topSports medalLookup in
  NoDup (map ParallelSets.name (ParallelSets.nodes d))
  /\ (forall l, In l (ParallelSets.links d) ->
        (ParallelSets.source l < length (ParallelSets.nodes d))%nat
        /\ (ParallelSets.target l < length (ParallelSets.nodes d))%nat)
  /\ (forall i, (i < length (ParallelSets.nodes d))%nat ->
        exists l, In l (ParallelSets.links d)
                  /\ (ParallelSets.source l = i \/ ParallelSets.target l = i)).
Proof.
  intros d. subst d.
  destruct (sankey_tables filtered topSports medalLookup) as (Hnd & [Hin Hused] & _).
  split; [exact Hnd|]. split; [exact Hin | exact Hused].
Qed.

Lemma flows_from (topSports medalLookup : gset string)
    (l : list ParallelSets.AthleteRec) (ks1 ks2 : list string) :
  fold_left (ParallelSets.flowStep topSports medalLookup) l
    (ParallelSets.tally ks1, ParallelSets.tally ks2)
  = (ParallelSets.tally (ks1 ++ map countrySportKey (counted l topSports)),
     ParallelSets.tally (ks2 ++ map (sportOutcomeKey medalLookup) (counted l topSports))).
Proof.
  revert ks1 ks2. induction l as [|a l IH]; intros ks1 ks2.
  - simpl. rewrite !app_nil_r. reflexivity.
  - cbn [fold_left]. unfold counted. cbn [List.filter]. fold (counted l topSports).
    unfold ParallelSets.flowStep at 2.
    destruct (bool_decide (ParallelSets.sport a ∈ topSports)); cbn [negb fst snd].
    + assert (Hb : forall ks k, Lib.bump (ParallelSets.tally ks) k
                                = ParallelSets.tally (ks ++ [k])).
      { intros ks k. unfold ParallelSets.tally. rewrite fold_left_app. reflexivity. }
      rewrite !Hb, IH. cbn [map]. rewrite <- !app_assoc. reflexivity.
    + apply IH.
Qed.

(** The two counting maps of the chart are the tallies of the two keys
    over the counted athletes. *)
Lemma flows_spec (filtered : list ParallelSets.AthleteRec)
    (topSports medalLookup : gset string) :
  ParallelSets.flows filtered topSports medalLookup
  = (ParallelSets.tally (map countrySportKey (counted filtered topSports)),
     ParallelSets.tally (map (sportOutcomeKey medalLookup) (counted filtered topSports))).
Proof. exact (flows_from topSports medalLookup filtered [] []). Qed.

Lemma occurrences_sum (keys ks : list string) :
  NoDup ks -> (forall k, k ∈ keys -> k ∈ ks) ->
  list_sum (map (fun k => occurrences k keys) ks) = length keys.
Proof.
  intros Hnd. induction keys as [|k0 keys IH]; intros Hks.
  - clear Hnd Hks. induction ks as [|k ks IHk]; [reflexivity | exact IHk].
  - assert (Hstep : forall k, occurrences k (k0 :: keys)
                      = ((if String.eqb k0 k then 1 else 0) + occurrences k keys)%nat).
    { intros k. unfold occurrences. simpl. rewrite (String.eqb_sym k k0).
      destruct (String.eqb k0 k); reflexivity. }
    rewrite (map_ext _ _ Hstep), list_sum_add.
    rewrite one_key_among; [|exact Hnd | apply Hks; left].
    rewrite IH; [reflexivity|]. intros k Hk. apply Hks. right. exact Hk.
Qed.

Lemma tally_sum (keys : list string) :
  sumQ (map snd (ParallelSets.tally keys)) = inject_Z (Z.of_nat (length keys)).
Proof.
  rewrite tally_spec.
  rewrite <- (occurrences_sum keys (JS.set_from keys));
    [|apply set_from_NoDup | intros k Hk; apply set_from_elem, Hk].
  induction (JS.set_from keys) as [|k ks IH]; [reflexivity|].
  cbn [map snd sumQ fold_right list_sum]. unfold sumQ in IH. rewrite IH.
  rewrite Nat2Z.inj_add, inject_Z_plus. reflexivity.
Qed.

Lemma tally_values (keys : list string) (v : Q) :
  In v (map snd (ParallelSets.tally keys)) ->
  exists n, (1 <= n)%nat /\ v = inject_Z (Z.of_nat n).
Proof.
  rewrite tally_spec, map_map. cbn [snd]. intros Hv.
  apply in_map_iff in Hv as (k & <- & Hk).
  exists (occurrences k keys). split; [|reflexivity].
  apply occurrences_present, set_from_elem, list_elem_of_In, Hk.
Qed.

Lemma tally_length_0 (keys : list string) :
  length (ParallelSets.tally keys) = 0%nat <-> keys = [].
Proof.
  rewrite tally_spec, length_map. rewrite <- (set_from_nil_iff keys).
  destruct (JS.set_from keys); simpl; split; intros H; try reflexivity; discriminate H.
Qed.

(** X20: the chart counts every athlete of a top sport exactly once in
    each of its two layers: the values of the links are those of the
    country-to-sport flows followed by those of the sport-to-outcome
    flows, each layer adds up to the number of counted athletes, every
    value is a whole number of at least 1, and the chart has data when
    and only when some athlete is counted. *)
Theorem sankey_counts_each_athlete (filtered : list ParallelSets.AthleteRec)
    (topSports medalLookup : gset string) :
  let d := ParallelSets.sankey filtered topSports medalLookup in
  let fl := ParallelSets.flows filtered topSports medalLookup in
  let n := length (counted filtered topSports) in
  map ParallelSets.value (ParallelSets.links d) = map snd (fst fl) ++ map snd (snd fl)
  /\ sumQ (map snd (fst fl)) = inject_Z (Z.of_nat n)
  /\ sumQ (map snd (snd fl)) = inject_Z (Z.of_nat n)
  /\ (forall l, In l (ParallelSets.links d) ->
        exists k, (1 <= k)%nat /\ ParallelSets.value l = inject_Z (Z.of_nat k))
  /\ (ParallelSets.hasData d = true <-> (0 < n)%nat).
Proof.
  intros d fl n. subst d fl n.
  destruct (sankey_tables filtered topSports medalLookup) as (_ & [Hin _] & Hv).
  set (d := ParallelSets.sankey filtered topSports medalLookup) in *.
  rewrite flows_spec in *. cbn [fst snd] in *.
  set (kept := counted filtered topSports) in *.
  split; [exact Hv|]. split; [|split; [|split]].
  - rewrite tally_sum, length_map. reflexivity.
  - rewrite tally_sum, length_map. reflexivity.
  - intros l Hl.
    assert (Hval : In (ParallelSets.value l) (map ParallelSets.value (ParallelSets.links d)))
      by (apply in_map, Hl).
    rewrite Hv in Hval. apply in_app_or in Hval as [Hval | Hval];
      exact (tally_values _ _ Hval).
  - assert (Hlen : length (ParallelSets.links d)
                   = (length (ParallelSets.tally (map countrySportKey kept))
                      + length (ParallelSets.tally
                                  (map (sportOutcomeKey medalLookup) kept)))%nat).
    { rewrite <- (length_map ParallelSets.value), Hv, length_app, !length_map.
      reflexivity. }
    unfold ParallelSets.hasData. rewrite andb_true_iff, !Nat.ltb_lt. split.
    + intros [_ Hlinks]. destruct kept as [|a kept']; [|simpl; lia].
      simpl in Hlen. lia.
    + intros Hn.
      assert (Hpos : (0 < length (ParallelSets.links d))%nat).
      { destruct kept as [|a kept']; [simpl in Hn; lia|].
        destruct (length (ParallelSets.tally (map countrySportKey (a :: kept'))))
          as [|m] eqn:E; [|lia].
        apply tally_length_0 in E. discriminate E. }
      split; [|exact Hpos].
      destruct (ParallelSets.links d) as [|l ls]; [simpl in Hpos; lia|].
      destruct (Hin l (or_introl eq_refl)). lia.
Qed.

(** ** Reading the medals file *)

Lemma startsWith_refl (s : string) : Lib.startsWith s s = true.
Proof.
  induction s as [|c s IH]; [reflexivity|]. simpl. rewrite Ascii.eqb_refl. exact IH.
Qed.

Lemma includes_refl (s : string) : Lib.includes s s = true.
Proof. destruct s; simpl; [reflexivity|]. rewrite Ascii.eqb_refl, startsWith_refl. reflexivity. Qed.

(** The test [lk === c] of [pickFieldFuzzy] is covered by
    [lk.includes(c)]. *)
Lemma keyMatches_mentions (candidates : list string) (k : string) :
  ParallelSets.keyMatches candidates k = mentions candidates k.
Proof.
  unfold ParallelSets.keyMatches, mentions.
  induction candidates as [|c cs IH]; [reflexivity|]. cbn [existsb]. rewrite IH. f_equal.
  destruct (String.eqb_spec (ParallelSets.lower (Some k)) c) as [<- | _]; [|reflexivity].
  rewrite includes_refl. reflexivity.
Qed.

Lemma mentions_nonempty (candidates : list string) (k : string) :
  (forall c, In c candidates -> c <> EmptyString) ->
  mentions candidates k = true -> JS.truthy k = true.
Proof.
  intros Hne Hm. destruct k as [|a k]; [|reflexivity].
  unfold mentions in Hm. apply existsb_exists in Hm as (c & Hc & Hinc).
  destruct c as [|x c]; [exfalso; exact (Hne _ Hc eq_refl) | discriminate Hinc].
Qed.

Lemma find_ext_pair {A} (f g : A -> bool) (l : list A) :
  (forall x, f x = g x) -> List.find f l = List.find g l.
Proof.
  intros H. induction l as [|x l IH]; [reflexivity|]. simpl. rewrite H, IH. reflexivity.
Qed.

(** X21: the order of the candidate names, and their repetition, play
    no role in [pickFieldFuzzy]: two candidate lists with the same
    names pick the same field of every row. *)
Theorem pickFieldFuzzy_candidates_as_set (row : ParallelSets.AnyRow)
    (cands1 cands2 : list string) :
  (forall c, In c cands1 <-> In c cands2) ->
  ParallelSets.pickFieldFuzzy row cands1 = ParallelSets.pickFieldFuzzy row cands2.
Proof.
  intros Hsame. unfold ParallelSets.pickFieldFuzzy.
  rewrite (find_ext_pair (fun kv => ParallelSets.keyMatches cands1 (fst kv))
             (fun kv => ParallelSets.keyMatches cands2 (fst kv))); [reflexivity|].
  intros kv. rewrite !keyMatches_mentions. unfold mentions.
  apply eq_true_iff_eq. rewrite !existsb_exists.
  split; intros (c & Hc & Hinc); exists c; (split; [apply Hsame, Hc | exact Hinc]).
Qed.

Lemma pickFieldFuzzy_candidates_as_set_witness :
  ParallelSets.pickFieldFuzzy [("NOC", "BRA"); ("Name", "Ana")] ["name"; "noc"]
  = ParallelSets.pickFieldFuzzy [("NOC", "BRA"); ("Name", "Ana")] ["noc"; "name"; "noc"].
Proof.
  apply pickFieldFuzzy_candidates_as_set.
  intros c. simpl. tauto.
Defined.

(** X22: [pickFieldFuzzy] returns the value of the first column, in the
    order of the row, whose name contains one of the (non-empty)
    candidates once it is trimmed and lowered, and the empty string
    when no column does. *)
Theorem pickFieldFuzzy_first_match (cands : list string) :
  (forall c, In c cands -> c <> EmptyString) ->
  (forall pre k v post,
     forallb (fun kv => negb (mentions cands (fst kv))) pre = true ->
     mentions cands k = true ->
     ParallelSets.pickFieldFuzzy (pre ++ (k, v) :: post) cands = v)
  /\ (forall row,
        forallb (fun kv => negb (mentions cands (fst kv))) row = true ->
        ParallelSets.pickFieldFuzzy row cands = EmptyString).
Proof.
  intros Hne. split.
  - intros pre k v post Hpre Hk. unfold ParallelSets.pickFieldFuzzy.
    induction pre as [|[k' v'] pre IH].
    + cbn [app List.find fst]. rewrite keyMatches_mentions, Hk.
      rewrite (mentions_nonempty cands k Hne Hk). reflexivity.
    + cbn [forallb fst] in Hpre. apply andb_true_iff in Hpre as [Hk' Hpre].
      apply negb_true_iff in Hk'.
      cbn [app List.find fst]. rewrite keyMatches_mentions, Hk'. exact (IH Hpre).
  - intros row Hrow. unfold ParallelSets.pickFieldFuzzy.
    induction row as [|[k' v'] row IH]; [reflexivity|].
    cbn [forallb fst] in Hrow. apply andb_true_iff in Hrow as [Hk' Hrow].
    apply negb_true_iff in Hk'.
    cbn [List.find fst]. rewrite keyMatches_mentions, Hk'. exact (IH Hrow).
Qed.

Lemma pickFieldFuzzy_first_match_witness :
  ParallelSets.pickFieldFuzzy
    ([("medal_type", "Gold Medal")] ++ (" Athlete_Name ", "Ana") :: [("name", "Bo")])
    ParallelSets.athleteFields = "Ana".
Proof.
  assert (Hne : forall c, In c ParallelSets.athleteFields -> c <> EmptyString).
  { intros c Hc. simpl in Hc.
    destruct Hc as [<- | [<- | [<- | [<- | [<- | [<- | []]]]]]]; discriminate. }
  apply (proj1 (pickFieldFuzzy_first_match ParallelSets.athleteFields Hne));
    reflexivity.
Defined.

Lemma lowerChar_pipe (c : ascii) :
  Ascii.eqb (Lib.lowerChar c) pipe = Ascii.eqb c pipe.
Proof. destruct c as [[] [] [] [] [] [] [] []]; reflexivity. Qed.

Lemma toLowerCase_noPipe (s : string) : noPipe (Lib.toLowerCase s) = noPipe s.
Proof.
  induction s as [|c s IH]; [reflexivity|]. simpl. rewrite lowerChar_pipe, IH. reflexivity.
Qed.

Lemma noPipe_noChar (s : string) : noPipe s = noChar pipe s.
Proof. induction s as [|c s IH]; [reflexivity|]. simpl. rewrite IH. reflexivity. Qed.

Lemma lower_noPipe (s : option string) :
  noPipe (default EmptyString s) = true -> noPipe (ParallelSets.lower s) = true.
Proof.
  intros H. unfold ParallelSets.lower, ParallelSets.norm.
  rewrite toLowerCase_noPipe, noPipe_noChar. apply trim_noChar.
  rewrite <- noPipe_noChar. exact H.
Qed.

Lemma lower_norm (v : string) :
  ParallelSets.lower (Some (ParallelSets.norm (Some v))) = ParallelSets.lower (Some v).
Proof.
  unfold ParallelSets.lower, ParallelSets.norm. cbn [default]. unfold id.
  rewrite trim_idem. reflexivity.
Qed.

(** Keys of two and of three pipe-free parts. *)
Lemma looseKey_inj (a c a' c' : string) :
  noPipe a = true -> noPipe c = true -> noPipe a' = true -> noPipe c' = true ->
  a +:+ "|" +:+ c = a' +:+ "|" +:+ c' -> a = a' /\ c = c'.
Proof.
  intros Ha Hc Ha' Hc' He. apply (f_equal (JS.split pipe)) in He.
  change (a +:+ String pipe c = a' +:+ String pipe c') in He || idtac.
  change ("|" +:+ c) with (String pipe c) in He.
  change ("|" +:+ c') with (String pipe c') in He.
  rewrite (split_noPipe_sep _ _ Ha), (split_noPipe_sep _ _ Ha') in He.
  rewrite (split_noPipe _ Hc), (split_noPipe _ Hc') in He.
  injection He as -> ->. split; reflexivity.
Qed.

Lemma fullKey_not_loose (a c s a' c' : string) :
  noPipe a = true -> noPipe c = true -> noPipe a' = true -> noPipe c' = true ->
  a +:+ "|" +:+ c +:+ "|" +:+ s <> a' +:+ "|" +:+ c'.
Proof.
  intros Ha Hc Ha' Hc' He. apply (f_equal (JS.split pipe)) in He.
  change ("|" +:+ c +:+ "|" +:+ s) with (String pipe (c +:+ String pipe s)) in He.
  change ("|" +:+ c') with (String pipe c') in He.
  rewrite (split_noPipe_sep _ _ Ha), (split_noPipe_sep _ _ Ha') in He.
  rewrite (split_noPipe_sep _ _ Hc), (split_noPipe _ Hc') in He.
  pose proof (split_length_pos pipe s) as Hs.
  injection He as _ _ He. rewrite He in Hs. simpl in Hs. lia.
Qed.

Lemma fullKey_inj (a c s a' c' s' : string) :
  noPipe a = true -> noPipe c = true -> noPipe a' = true -> noPipe c' = true ->
  a +:+ "|" +:+ c +:+ "|" +:+ s = a' +:+ "|" +:+ c' +:+ "|" +:+ s' ->
  a = a' /\ c = c'.
Proof.
  intros Ha Hc Ha' Hc' He. apply (f_equal (JS.split pipe)) in He.
  change ("|" +:+ c +:+ "|" +:+ s) with (String pipe (c +:+ String pipe s)) in He.
  change ("|" +:+ c' +:+ "|" +:+ s') with (String pipe (c' +:+ String pipe s')) in He.
  rewrite (split_noPipe_sep _ _ Ha), (split_noPipe_sep _ _ Ha') in He.
  rewrite (split_noPipe_sep _ _ Hc), (split_noPipe_sep _ _ Hc') in He.
  injection He as -> -> _. split; reflexivity.
Qed.

(** What one row of the medals file adds to the lookup. *)
Lemma addMedalRow_elem (k : string) (set : gset string) (r : ParallelSets.AnyRow) :
  k ∈ ParallelSets.addMedalRow set r
  <-> k ∈ set
      \/ (JS.truthy (ParallelSets.norm (Some (rowAthlete r))) = true
          /\ JS.truthy (ParallelSets.norm (Some (rowCountry r))) = true
          /\ (k = ParallelSets.lower (Some (rowAthlete r)) +:+ "|"
                  +:+ ParallelSets.lower (Some (rowCountry r))
              \/ (JS.truthy (ParallelSets.norm (Some (rowSport r))) = true
                  /\ k = ParallelSets.lower (Some (rowAthlete r)) +:+ "|"
                         +:+ ParallelSets.lower (Some (rowCountry r)) +:+ "|"
                         +:+ ParallelSets.lower (Some (rowSport r))))).
Proof.
  unfold ParallelSets.addMedalRow, rowAthlete, rowCountry, rowSport. cbv zeta.
  rewrite !lower_norm.
  destruct (JS.truthy (ParallelSets.norm
              (Some (ParallelSets.pickFieldFuzzy r ParallelSets.athleteFields))));
    destruct (JS.truthy (ParallelSets.norm
                (Some (ParallelSets.pickFieldFuzzy r ParallelSets.countryFields))));
    destruct (JS.truthy (ParallelSets.norm
                (Some (ParallelSets.pickFieldFuzzy r ParallelSets.sportFields))));
    cbn [andb]; rewrite ?elem_of_union, ?elem_of_singleton; intuition congruence.
Qed.

Lemma medalRows_elem (k : string) (rows : list ParallelSets.AnyRow) (set : gset string) :
  k ∈ fold_left ParallelSets.addMedalRow rows set
  <-> k ∈ set \/ exists r, In r rows /\ k ∈ ParallelSets.addMedalRow ∅ r.
Proof.
  revert set. induction rows as [|r rows IH]; intros set; simpl.
  - split; [intros H; left; exact H | intros [H | (r & [] & _)]; exact H].
  - rewrite IH. rewrite (addMedalRow_elem k set r).
    split.
    + intros [[H | H] | (r' & Hr' & H)].
      * left. exact H.
      * right. exists r. split; [left; reflexivity|].
        apply addMedalRow_elem. right. exact H.
      * right. exists r'. split; [right; exact Hr' | exact H].
    + intros [H | (r' & [<- | Hr'] & H)].
      * left. left. exact H.
      * apply addMedalRow_elem in H as [H | H]; [|left; right; exact H].
        apply elem_of_empty in H. destruct H.
      * right. exists r'. split; assumption.
Qed.

Lemma outcomeOf_cases (ml : gset string) (a : ParallelSets.AthleteRec) :
  ParallelSets.outcomeOf ml a
  = if hasMedalFromAthletes a
       || (bool_decide (ParallelSets.lower (ParallelSets.athlete a) +:+ "|"
                        +:+ ParallelSets.lower (Some (ParallelSets.country a)) +:+ "|"
                        +:+ ParallelSets.lower (Some (ParallelSets.sport a)) ∈ ml)
           || bool_decide (ParallelSets.lower (ParallelSets.athlete a) +:+ "|"
                           +:+ ParallelSets.lower (Some (ParallelSets.country a)) ∈ ml))
    then "Medalist" else "Participant".
Proof. reflexivity. Qed.

(** In a lookup built from rows without the separator in athlete and
    country, a key of the athlete is found when and only when a row
    names the athlete. *)
Lemma medalLookup_names (rows : list ParallelSets.AnyRow) (a : ParallelSets.AthleteRec)
    (s : string) :
  (forall r, In r rows -> medalRowPipeFree r = true) ->
  noPipe (default EmptyString (ParallelSets.athlete a)) = true ->
  noPipe (ParallelSets.country a) = true ->
  let ml := ParallelSets.medalLookup (Some rows) in
  let la := ParallelSets.lower (ParallelSets.athlete a) in
  let lc := ParallelSets.lower (Some (ParallelSets.country a)) in
  (la +:+ "|" +:+ lc +:+ "|" +:+ s ∈ ml \/ la +:+ "|" +:+ lc ∈ ml)
  <-> exists r, In r rows /\ namesAthlete r a = true.
Proof.
  intros Hrows Ha Hc ml la lc.
  assert (Hla : noPipe la = true) by (apply lower_noPipe, Ha).
  assert (Hlc : noPipe lc = true) by (apply (lower_noPipe (Some _)), Hc).
  assert (Hrow : forall r, In r rows ->
            noPipe (ParallelSets.lower (Some (rowAthlete r))) = true
            /\ noPipe (ParallelSets.lower (Some (rowCountry r))) = true).
  { intros r Hr. specialize (Hrows r Hr). unfold medalRowPipeFree in Hrows.
    apply andb_true_iff in Hrows as [H1 H2].
    split; apply (lower_noPipe (Some _)); assumption. }
  assert (Hnames : forall r, namesAthlete r a = true
            <-> JS.truthy (ParallelSets.norm (Some (rowAthlete r))) = true
                /\ JS.truthy (ParallelSets.norm (Some (rowCountry r))) = true
                /\ ParallelSets.lower (Some (rowAthlete r)) = la
                /\ ParallelSets.lower (Some (rowCountry r)) = lc).
  { intros r. unfold namesAthlete. rewrite !andb_true_iff, !String.eqb_eq.
    subst la lc. tauto. }
  subst ml. unfold ParallelSets.medalLookup. rewrite !medalRows_elem. split.
  - intros [[H | (r & Hr & H)] | [H | (r & Hr & H)]];
      try (apply elem_of_empty in H; destruct H).
    + exists r. split; [exact Hr|]. apply Hnames.
      destruct (Hrow r Hr) as [Hra Hrc].
      apply addMedalRow_elem in H as [H | (HtA & HtC & [H | [_ H]])].
      * apply elem_of_empty in H. destruct H.
      * exfalso. exact (fullKey_not_loose _ _ _ _ _ Hla Hlc Hra Hrc H).
      * destruct (fullKey_inj _ _ _ _ _ _ Hla Hlc Hra Hrc H) as [E1 E2].
        repeat split; congruence.
    + exists r. split; [exact Hr|]. apply Hnames.
      destruct (Hrow r Hr) as [Hra Hrc].
      apply addMedalRow_elem in H as [H | (HtA & HtC & [H | [_ H]])].
      * apply elem_of_empty in H. destruct H.
      * destruct (looseKey_inj _ _ _ _ Hla Hlc Hra Hrc H) as [E1 E2].
        repeat split; congruence.
      * exfalso. symmetry in H.
        exact (fullKey_not_loose _ _ _ _ _ Hra Hrc Hla Hlc H).
  - intros (r & Hr & Hn). apply Hnames in Hn as (HtA & HtC & <- & <-).
    right. right. exists r. split; [exact Hr|].
    apply addMedalRow_elem. right. split; [exact HtA|]. split; [exact HtC|].
    left. reflexivity.
Qed.

(** X23: whether an athlete counts as a medalist does not depend on
    the sport.  When no athlete or country name holds the separator of
    the lookup keys, the outcome is Medalist exactly when the athlete's
    own medal field says so or some row of the medals file names the
    athlete and the country, compared without case and surrounding
    white space; it is Participant otherwise, and it is the same in
    every sport of the athlete. *)
Theorem medalist_whatever_the_sport (rows : list ParallelSets.AnyRow)
    (a : ParallelSets.AthleteRec) :
  (forall r, In r rows -> medalRowPipeFree r = true) ->
  noPipe (default EmptyString (ParallelSets.athlete a)) = true ->
  noPipe (ParallelSets.country a) = true ->
  let ml := ParallelSets.medalLookup (Some rows) in
  (ParallelSets.outcomeOf ml a = "Medalist"
   <-> hasMedalFromAthletes a = true \/ exists r, In r rows /\ namesAthlete r a = true)
  /\ (ParallelSets.outcomeOf ml a = "Medalist"
      \/ ParallelSets.outcomeOf ml a = "Participant")
  /\ (forall s, ParallelSets.outcomeOf ml (withSport a s) = ParallelSets.outcomeOf ml a).
Proof.
  intros Hrows Ha Hc ml.
  assert (Hchar : forall b : ParallelSets.AthleteRec,
            ParallelSets.athlete b = ParallelSets.athlete a ->
            ParallelSets.country b = ParallelSets.country a ->
            ParallelSets.medal b = ParallelSets.medal a ->
            ParallelSets.outcomeOf ml b
            = if hasMedalFromAthletes a || existsb (fun r => namesAthlete r a) rows
              then "Medalist" else "Participant").
  { intros b Eb Ec Em. rewrite outcomeOf_cases.
    assert (Hhm : hasMedalFromAthletes b = hasMedalFromAthletes a)
      by (unfold hasMedalFromAthletes; rewrite Em; reflexivity).
    rewrite Hhm. destruct (hasMedalFromAthletes a); [reflexivity|]. cbn [orb].
    pose proof (medalLookup_names rows a (ParallelSets.lower (Some (ParallelSets.sport b)))
                  Hrows Ha Hc) as Hn.
    cbv zeta in Hn. fold ml in Hn. rewrite Eb, Ec.
    destruct (existsb (fun r => namesAthlete r a) rows) eqn:Hex.
    - apply existsb_exists in Hex. apply Hn in Hex.
      repeat case_bool_decide; try reflexivity; exfalso; tauto.
    - assert (Hno : ~ exists r, In r rows /\ namesAthlete r a = true).
      { intros H. apply existsb_exists in H. congruence. }
      repeat case_bool_decide; try reflexivity; exfalso; tauto. }
  split; [|split].
  - rewrite (Hchar a eq_refl eq_refl eq_refl), <- existsb_exists.
    destruct (hasMedalFromAthletes a); cbn [orb].
    + split; [intros _; left; reflexivity | reflexivity].
    + destruct (existsb (fun r => namesAthlete r a) rows).
      * split; [intros _; right; reflexivity | reflexivity].
      * split; [discriminate|]. intros [H | H]; discriminate H.
  - rewrite (Hchar a eq_refl eq_refl eq_refl).
    destruct (_ || _); [left | right]; reflexivity.
  - intros s. rewrite (Hchar a eq_refl eq_refl eq_refl).
    apply Hchar; reflexivity.
Qed.

Lemma medalist_whatever_the_sport_witness :
  ParallelSets.outcomeOf (ParallelSets.medalLookup (Some exampleMedalRows))
    (withSport (psAthlete "ana lima" "bra" "Judo") "Golf")
  = ParallelSets.outcomeOf (ParallelSets.medalLookup (Some exampleMedalRows))
      (psAthlete "ana lima" "bra" "Judo").
Proof.
  apply (medalist_whatever_the_sport exampleMedalRows (psAthlete "ana lima" "bra" "Judo")).
  - intros r Hr. simpl in Hr. destruct Hr as [<- | [<- | []]]; reflexivity.
  - reflexivity.
  - reflexivity.
Defined.

(** ** The top sports *)

Lemma top_of_ranking (keys : list string) (n : nat) (k k' : string) :
  let ranking := map fst (Lib.sort ParallelSets.byCountDesc (ParallelSets.tally keys)) in
  In k (take n ranking) -> In k' keys -> ~ In k' (take n ranking) ->
  (occurrences k' keys <= occurrences k keys)%nat.
Proof.
  intros ranking Hk Hk' Hnk'.
  destruct (ranking_spec keys) as (_ & Hin & Hs). fold ranking in Hin, Hs.
  assert (Hd : In k' (drop n ranking)).
  { apply Hin in Hk'. rewrite <- (take_drop n ranking) in Hk'.
    apply in_app_or in Hk' as [H | H]; [contradiction | exact H]. }
  rewrite <- (take_drop n ranking) in Hs.
  exact (StronglySorted_app_order _ _ _ Hs k k' Hk Hd).
Qed.

Lemma topSportSet_elem (filtered : list ParallelSets.AthleteRec) (n : nat) (s : string) :
  s ∈ ParallelSets.topSportSet filtered n
  <-> In s (take n (map fst (Lib.sort ParallelSets.byCountDesc
                               (ParallelSets.tally (map ParallelSets.sport filtered))))).
Proof.
  unfold ParallelSets.topSportSet. rewrite elem_of_list_to_set, list_elem_of_In.
  rewrite <- firstn_map. reflexivity.
Qed.

(** X24: the sports of the chart.  Every top sport is the sport of some
    athlete that passed the country control; there are [topSports] of
    them, or all sports if there are fewer; a sport among them has at
    least as many athletes as any sport left out; and when [topSports]
    is at least the number of sports, the chart counts every athlete. *)
Theorem topSportSet_ranked (filtered : list ParallelSets.AthleteRec) (n : nat) :
  let top := ParallelSets.topSportSet filtered n in
  let sports := JS.set_from (map ParallelSets.sport filtered) in
  (forall s, s ∈ top -> exists a, In a filtered /\ ParallelSets.sport a = s)
  /\ size top = Nat.min n (length sports)
  /\ (forall a b, In a filtered -> In b filtered ->
        ParallelSets.sport a ∈ top -> ParallelSets.sport b ∉ top ->
        (athletesIn filtered (ParallelSets.sport b)
         <= athletesIn filtered (ParallelSets.sport a))%nat)
  /\ ((length sports <= n)%nat -> counted filtered top = filtered).
Proof.
  intros top sports. subst top sports.
  destruct (ranking_spec (map ParallelSets.sport filtered)) as (Hnd & Hin & _).
  destruct (ranked_entries (map ParallelSets.sport filtered)) as (Hperm & _ & _).
  set (ranking := map fst (Lib.sort ParallelSets.byCountDesc
                             (ParallelSets.tally (map ParallelSets.sport filtered)))) in *.
  split; [|split; [|split]].
  - intros s Hs. apply topSportSet_elem in Hs. fold ranking in Hs.
    assert (Hr : In s ranking).
    { rewrite <- (take_drop n ranking). apply in_or_app. left. exact Hs. }
    apply Hin, in_map_iff in Hr as (a & Ha & Hfa). exists a. split; assumption.
  - unfold ParallelSets.topSportSet.
    change (take n (Lib.sort ParallelSets.byCountDesc
                      (ParallelSets.tally (map ParallelSets.sport filtered))))
      with (firstn n (Lib.sort ParallelSets.byCountDesc
                        (ParallelSets.tally (map ParallelSets.sport filtered)))).
    rewrite <- firstn_map. fold ranking.
    rewrite size_list_to_set.
    + rewrite length_take, (Permutation_length Hperm). reflexivity.
    + exact (sublist_NoDup _ _ Hnd (sublist_take ranking n)).
  - intros a b Ha Hb Hta Htb. unfold athletesIn.
    apply (top_of_ranking _ n).
    + apply topSportSet_elem, Hta.
    + apply in_map, Hb.
    + intros H. apply Htb, topSportSet_elem, H.
  - intros Hn. unfold counted. apply filter_all_true. intros a Ha.
    apply bool_decide_eq_true, topSportSet_elem. fold ranking.
    rewrite take_ge by (rewrite (Permutation_length Hperm); exact Hn).
    apply Hin, in_map, Ha.
Qed.
